(** * Futuricty: the livability scoring pipeline

    A shallow embedding of [src/services/livabilityService.ts] (the
    contribution-sum version of the service), of the cache service of
    [src/services/cacheService.ts] (its keys, and its entries in
    [localStorage] with their expiry), and of the store of custom points
    of [src/services/customPoiService.ts].

    JavaScript numbers are modelled as real numbers: arithmetic is exact,
    there is no NaN and no infinity; where the code computes NaN the
    model has an optional number.  Strings are sequences of ASCII
    characters.  Objects used as dictionaries (OSM tags, the two
    accumulators) are finite maps keyed by strings. *)

From Stdlib Require Import Reals Machin Lra Lia ZArith Ascii String Sorted.
From stdpp Require Import base option list strings gmap pretty.

Local Open Scope R_scope.

(** ** JavaScript primitives *)

Module JS.

(** [x < y], [x <= y] and [x === y] on numbers, as booleans. *)
Definition ltb (x y : R) : bool := if Rlt_dec x y then true else false.
Definition leb (x y : R) : bool := if Rle_dec x y then true else false.
Definition eqb (x y : R) : bool := if Req_dec_T x y then true else false.

(** [Math.max] and [Math.min] of two numbers. *)
Definition Math_max (x y : R) : R := Rmax x y.
Definition Math_min (x y : R) : R := Rmin x y.

(** [Math.round]: the nearest integer, halves rounded up. *)
Definition Math_round (x : R) : R := IZR (Zfloor (x + / 2)).

(** [Math.pow x y] for a base [0 <= x] and an exponent [0 < y], the
    only arguments the service passes: zero for a zero base, otherwise
    [exp (y * ln x)]. *)
Definition Math_pow (x y : R) : R :=
  if Req_dec_T x 0 then 0 else Rpower x y.

(** [Math.atan2 y x]. *)
Definition Math_atan2 (y x : R) : R :=
  if Rlt_dec 0 x then atan (y / x)
  else if Rlt_dec x 0 then
    (if Rle_dec 0 y then atan (y / x) + PI else atan (y / x) - PI)
  else if Rlt_dec 0 y then PI / 2
  else if Rlt_dec y 0 then - (PI / 2)
  else 0.

(** [String.prototype.toLowerCase], on ASCII letters. *)
Definition lowerChar (c : ascii) : ascii :=
  let n := nat_of_ascii c in
  if ((65 <=? n) && (n <=? 90))%nat then ascii_of_nat (n + 32) else c.

Fixpoint toLowerCase (s : string) : string :=
  match s with
  | EmptyString => EmptyString
  | String c s' => String (lowerChar c) (toLowerCase s')
  end.

(** [s.includes(sub)]: [sub] occurs in [s] as a contiguous substring. *)
Fixpoint includes (s sub : string) : bool :=
  String.prefix sub s ||
  match s with
  | EmptyString => false
  | String _ s' => includes s' sub
  end.

(** [String.prototype.trim]: white space removed at both ends. *)
Fixpoint trimStart (s : string) : string :=
  match s with
  | EmptyString => EmptyString
  | String c s' => if Ascii.is_space c then trimStart s' else s
  end.

Definition trim (s : string) : string :=
  String.rev (trimStart (String.rev (trimStart s))).

(** Truthiness of a string: every string but the empty one. *)
Definition truthy (s : string) : bool := negb (String.eqb s EmptyString).

(** [x || y] where [x] is a possibly missing number: [y] when [x] is
    [undefined] or zero. *)
Definition numOr (x : option R) (y : R) : R :=
  match x with
  | Some r => if eqb r 0 then y else r
  | None => y
  end.

(** [Array.prototype.findIndex]; [None] stands for the result [-1]. *)
Fixpoint findIndex {A : Type} (p : A -> bool) (l : list A) : option nat :=
  match l with
  | [] => None
  | x :: l' => if p x then Some 0%nat else S <$> findIndex p l'
  end.

End JS.

(** ** The category enum and the distance contribution model *)

Definition categories : list string :=
  ["health"; "education"; "market"; "transport"; "walkability";
   "recreation"; "safety"; "accessibility"; "police"; "religious"]%string.

Record DecayConfig := mkDecay {
  maxDistance : R;
  maxContribution : R;
  decayRate : R
}.

(** The ten entries of the [decayConfig] table of
    [calculateDistanceContribution]: its own properties. *)
Definition decayConfig (category : string) : option DecayConfig :=
  if String.eqb category "health" then Some (mkDecay 1000 10 (8 / 10))
  else if String.eqb category "education" then Some (mkDecay 1000 10 (9 / 10))
  else if String.eqb category "market" then Some (mkDecay 1000 8 (85 / 100))
  else if String.eqb category "transport" then Some (mkDecay 1000 10 (95 / 100))
  else if String.eqb category "walkability" then Some (mkDecay 1000 12 (85 / 100))
  else if String.eqb category "recreation" then Some (mkDecay 1000 8 (8 / 10))
  else if String.eqb category "safety" then Some (mkDecay 1000 6 (7 / 10))
  else if String.eqb category "accessibility" then Some (mkDecay 1000 4 (9 / 10))
  else if String.eqb category "police" then Some (mkDecay 1000 8 (6 / 10))
  else if String.eqb category "religious" then Some (mkDecay 1000 6 (75 / 100))
  else None.

Definition decayConfig_health : DecayConfig := mkDecay 1000 10 (8 / 10).

(** The names of the members that an object literal inherits from
    [Object.prototype]. *)
Definition objectPrototypeNames : list string :=
  ["constructor"; "hasOwnProperty"; "isPrototypeOf"; "propertyIsEnumerable";
   "toLocaleString"; "toString"; "valueOf"; "__proto__";
   "__defineGetter__"; "__defineSetter__"; "__lookupGetter__";
   "__lookupSetter__"]%string.

(** What the property access [decayConfig[category]] evaluates to: an
    entry of the table, a member inherited from [Object.prototype] (a
    function, or the prototype itself for [__proto__]), or [undefined]. *)
Inductive Member :=
  | OwnEntry (config : DecayConfig)
  | InheritedMember
  | Undefined.

Definition decayConfigMember (category : string) : Member :=
  match decayConfig category with
  | Some config => OwnEntry config
  | None =>
      if bool_decide (category ∈ objectPrototypeNames) then InheritedMember
      else Undefined
  end.

(** [decayConfig[category] || decayConfig.health] for a category that is
    not the name of an inherited member: the entry of the category, or
    that of health when the access gives [undefined]. *)
Definition configOf (category : string) : DecayConfig :=
  default decayConfig_health (decayConfig category).

(** [calculateDistanceContribution] for a category that is not the name
    of an inherited member.  (For such a name the result is no number;
    see [calculateDistanceContributionOrNaN].) *)
Definition calculateDistanceContribution (distance : R) (category : string) : R :=
  let config := configOf category in
  if JS.ltb (maxDistance config) distance then 0
  else
    let normalizedDistance := distance / maxDistance config in
    let contribution :=
      maxContribution config * JS.Math_pow (1 - normalizedDistance) (decayRate config) in
    let minContribution := maxContribution config * (1 / 10) in
    JS.Math_max contribution minContribution.

(** [calculateDistanceContribution] for every category, with the result
    NaN written [None].  An inherited member is truthy, so that the
    fallback to the health entry is not taken; its [maxDistance],
    [maxContribution] and [decayRate] are [undefined], the comparison
    [distance > undefined] is false and the arithmetic that follows
    gives NaN. *)
Definition calculateDistanceContributionOrNaN (distance : R) (category : string)
    : option R :=
  match decayConfigMember category with
  | InheritedMember => None
  | OwnEntry _ | Undefined => Some (calculateDistanceContribution distance category)
  end.

(** ** Raw map elements and the category classifier *)

(** The [tags] object of an Overpass element: OSM keys to string values. *)
Abbreviation Tags := (gmap string string).

Record Center := mkCenter {
  center_lat : option R;
  center_lon : option R
}.

(** A raw element of an Overpass response. *)
Record Element := mkElement {
  el_id : option N;
  el_lat : option R;
  el_lon : option R;
  el_center : option Center;
  el_tags : option Tags
}.

(** [element.tags?.key] *)
Definition tag (tags : option Tags) (key : string) : option string :=
  tags ≫= (λ t, t !! key).

(** [element.tags?.key === value] *)
Definition tagIs (tags : option Tags) (key value : string) : bool :=
  match tag tags key with
  | Some v => String.eqb v value
  | None => false
  end.

(** [element.tags?.key] used as a condition. *)
Definition tagTruthy (tags : option Tags) (key : string) : bool :=
  match tag tags key with
  | Some v => JS.truthy v
  | None => false
  end.

(** [element.tags.name.toLowerCase().includes(sub)] *)
Definition lowerNameHas (tags : option Tags) (sub : string) : bool :=
  match tag tags "name" with
  | Some n => JS.includes (JS.toLowerCase n) sub
  | None => false
  end.

Definition isEducation (tags : option Tags) : bool :=
  tagIs tags "amenity" "school" || tagIs tags "amenity" "university" ||
  tagIs tags "amenity" "college" || tagIs tags "amenity" "kindergarten" ||
  tagIs tags "amenity" "library" ||
  (tagTruthy tags "name" &&
   (lowerNameHas tags "sekolah" || lowerNameHas tags "sd " ||
    lowerNameHas tags " smp" || lowerNameHas tags " sma" ||
    lowerNameHas tags "smk" || lowerNameHas tags "universitas" ||
    lowerNameHas tags "univ" || lowerNameHas tags "kampus" ||
    lowerNameHas tags "tk" || lowerNameHas tags "paud" ||
    lowerNameHas tags "perpustakaan" || lowerNameHas tags "library")).

Definition isPolice (tags : option Tags) : bool :=
  tagIs tags "amenity" "police" ||
  (tagTruthy tags "name" &&
   (lowerNameHas tags "polisi" || lowerNameHas tags "polres" ||
    lowerNameHas tags "polsek" || lowerNameHas tags "polda" ||
    lowerNameHas tags "satlantas" || lowerNameHas tags "satpol" ||
    lowerNameHas tags "pp" || lowerNameHas tags "police")).

Definition isMarket (tags : option Tags) : bool :=
  tagTruthy tags "shop" || tagIs tags "amenity" "restaurant" ||
  tagIs tags "amenity" "cafe" || tagIs tags "amenity" "fast_food" ||
  tagIs tags "amenity" "food_court" || tagIs tags "amenity" "bar" ||
  tagIs tags "amenity" "pub" || tagIs tags "amenity" "ice_cream" ||
  tagIs tags "amenity" "coffee_shop" || tagIs tags "amenity" "fuel" ||
  tagIs tags "amenity" "gas_station" ||
  tagIs tags "amenity" "petrol_station" ||
  tagIs tags "amenity" "service_station" ||
  (tagIs tags "amenity" "community_centre" && tagTruthy tags "name" &&
   (lowerNameHas tags "pasar" || lowerNameHas tags "market" ||
    lowerNameHas tags "pusat" || lowerNameHas tags "center" ||
    lowerNameHas tags "centre")) ||
  (tagTruthy tags "name" &&
   (lowerNameHas tags "spbu" || lowerNameHas tags "pom bensin" ||
    lowerNameHas tags "gas station" || lowerNameHas tags "petrol" ||
    lowerNameHas tags "fuel" || lowerNameHas tags "bensin" ||
    lowerNameHas tags "solar" || lowerNameHas tags "pertamina" ||
    lowerNameHas tags "shell" || lowerNameHas tags "bp" ||
    lowerNameHas tags "esso" || lowerNameHas tags "caltex" ||
    lowerNameHas tags "toko" || lowerNameHas tags "warung" ||
    lowerNameHas tags "shop" || lowerNameHas tags "store" ||
    lowerNameHas tags "market" || lowerNameHas tags "mall" ||
    lowerNameHas tags "plaza")).

Definition isHealth (tags : option Tags) : bool :=
  tagIs tags "amenity" "hospital" || tagIs tags "amenity" "clinic" ||
  tagIs tags "amenity" "doctors" || tagIs tags "amenity" "dentist" ||
  tagIs tags "amenity" "pharmacy" || tagIs tags "amenity" "veterinary" ||
  (tagTruthy tags "name" &&
   (lowerNameHas tags "rumah sakit" ||
    (lowerNameHas tags "rs " && negb (lowerNameHas tags "sekolah") &&
     negb (lowerNameHas tags "sd") && negb (lowerNameHas tags "smp") &&
     negb (lowerNameHas tags "sma") && negb (lowerNameHas tags "smk")) ||
    lowerNameHas tags "rsud" || lowerNameHas tags "klinik" ||
    lowerNameHas tags "apotek" || lowerNameHas tags "apotik" ||
    lowerNameHas tags "dokter" || lowerNameHas tags "puskesmas" ||
    lowerNameHas tags "poli")).

Definition isTransport (tags : option Tags) : bool :=
  tagIs tags "public_transport" "platform" ||
  tagIs tags "public_transport" "station" ||
  tagIs tags "public_transport" "stop_position" ||
  tagIs tags "highway" "bus_stop" || tagIs tags "railway" "station" ||
  tagIs tags "railway" "halt" || tagIs tags "railway" "tram_stop" ||
  (tagTruthy tags "name" &&
   (lowerNameHas tags "halte" || lowerNameHas tags "bus stop" ||
    lowerNameHas tags "terminal" || lowerNameHas tags "stasiun" ||
    lowerNameHas tags "station" || lowerNameHas tags "mrt" ||
    lowerNameHas tags "lrt" || lowerNameHas tags "transjakarta" ||
    lowerNameHas tags "angkot")).

Definition isReligious (tags : option Tags) : bool :=
  tagIs tags "amenity" "place_of_worship" || tagIs tags "amenity" "mosque" ||
  tagIs tags "amenity" "church" || tagIs tags "amenity" "temple" ||
  tagIs tags "amenity" "synagogue" || tagIs tags "amenity" "hindu_temple" ||
  tagIs tags "amenity" "buddhist_temple" ||
  (tagTruthy tags "name" &&
   (lowerNameHas tags "masjid" || lowerNameHas tags "gudang" ||
    lowerNameHas tags "gereja" || lowerNameHas tags "katedral" ||
    lowerNameHas tags "synagogue" || lowerNameHas tags "hindu_temple" ||
    lowerNameHas tags "buddhist_temple" || lowerNameHas tags "pura" ||
    lowerNameHas tags "candi" || lowerNameHas tags "vihara")).

Definition isRecreation (tags : option Tags) : bool :=
  tagIs tags "leisure" "park" || tagIs tags "leisure" "playground" ||
  tagIs tags "leisure" "sports_centre" ||
  tagIs tags "leisure" "fitness_centre" ||
  tagIs tags "leisure" "swimming_pool" || tagIs tags "leisure" "garden" ||
  tagIs tags "amenity" "cinema" || tagIs tags "amenity" "theatre" ||
  tagIs tags "amenity" "community_centre" ||
  (tagTruthy tags "name" &&
   (lowerNameHas tags "taman" || lowerNameHas tags "park" ||
    lowerNameHas tags "playground" || lowerNameHas tags "kolam renang" ||
    lowerNameHas tags "swimming" || lowerNameHas tags "gym" ||
    lowerNameHas tags "fitness" || lowerNameHas tags "bioskop" ||
    lowerNameHas tags "cinema" || lowerNameHas tags "teater" ||
    lowerNameHas tags "theatre" || lowerNameHas tags "pusat komunitas")).

Definition isWalkability (tags : option Tags) : bool :=
  tagIs tags "highway" "footway" || tagIs tags "highway" "pedestrian" ||
  tagIs tags "highway" "path" || tagIs tags "highway" "steps" ||
  tagIs tags "highway" "bridleway" || tagTruthy tags "sidewalk" ||
  tagIs tags "footway" "sidewalk" || tagIs tags "footway" "crossing" ||
  tagTruthy tags "pedestrian" || tagIs tags "route" "foot" ||
  tagIs tags "route" "hiking" || tagIs tags "route" "walking" ||
  tagIs tags "amenity" "bench" || tagIs tags "amenity" "drinking_water" ||
  tagIs tags "highway" "street_lamp" || tagIs tags "lit" "yes" ||
  tagTruthy tags "traffic_calming" || tagTruthy tags "maxspeed" ||
  tagTruthy tags "zone_traffic" || tagIs tags "natural" "tree_row" ||
  tagIs tags "natural" "hedge" || tagIs tags "landuse" "grass" ||
  tagIs tags "landuse" "meadow" ||
  (tagIs tags "highway" "crossing" && tagIs tags "foot" "designated") ||
  (tagIs tags "highway" "crossing" && tagIs tags "crossing" "zebra") ||
  (tagIs tags "highway" "crossing" && tagIs tags "crossing" "traffic_signals") ||
  (tagIs tags "highway" "crossing" && tagIs tags "crossing" "uncontrolled") ||
  (tagIs tags "bridge" "yes" &&
   (tagIs tags "highway" "footway" || tagIs tags "highway" "pedestrian" ||
    tagIs tags "highway" "path")) ||
  (tagIs tags "tunnel" "yes" &&
   (tagIs tags "highway" "footway" || tagIs tags "highway" "pedestrian" ||
    tagIs tags "highway" "path")).

Definition isAccessibility (tags : option Tags) : bool :=
  tagIs tags "barrier" "kerb" || tagIs tags "kerb" "lowered" ||
  tagIs tags "kerb" "flush" || tagIs tags "highway" "elevator" ||
  (tagIs tags "highway" "steps" && tagTruthy tags "incline") ||
  (tagIs tags "amenity" "parking" && tagIs tags "access" "designated") ||
  tagIs tags "tactile_paving" "yes" ||
  (tagIs tags "amenity" "toilets" && tagIs tags "wheelchair" "yes").

Definition isSafety (tags : option Tags) : bool :=
  tagIs tags "highway" "street_lamp" || tagIs tags "lit" "yes" ||
  tagIs tags "highway" "crossing" || tagTruthy tags "traffic_calming" ||
  tagTruthy tags "maxspeed" || tagTruthy tags "sidewalk" ||
  tagIs tags "amenity" "fire_station" || tagIs tags "amenity" "hospital" ||
  tagIs tags "man_made" "surveillance" ||
  tagIs tags "surveillance_type" "camera".

(** The cascade of [if / else if] of [processFacilities] that replaces
    the query bucket [category] by the category the tags indicate. *)
Definition classify (tags : option Tags) (category : string) : string :=
  if isEducation tags then "education"
  else if isPolice tags then "police"
  else if isMarket tags then "market"
  else if isHealth tags then "health"
  else if isTransport tags then "transport"
  else if isReligious tags then "religious"
  else if isRecreation tags then "recreation"
  else if isWalkability tags then "walkability"
  else if isAccessibility tags then "accessibility"
  else if isSafety tags then "safety"
  else category.

(** The same rules as the ordered priority list the specification
    describes: (predicate, category) pairs, first match wins. *)
Definition priorityRules : list ((option Tags -> bool) * string) :=
  [(isEducation, "education"); (isPolice, "police"); (isMarket, "market");
   (isHealth, "health"); (isTransport, "transport");
   (isReligious, "religious"); (isRecreation, "recreation");
   (isWalkability, "walkability"); (isAccessibility, "accessibility");
   (isSafety, "safety")]%string.

Fixpoint firstMatch (rules : list ((option Tags -> bool) * string))
    (tags : option Tags) (category : string) : string :=
  match rules with
  | [] => category
  | (p, c) :: rules' => if p tags then c else firstMatch rules' tags category
  end.

(** ** Great-circle distance *)

(** [calculateDistance]: the Haversine formula, in metres. *)
Definition calculateDistance (lat1 lng1 lat2 lng2 : R) : R :=
  let R_earth := 6371000 in
  let dLat := ((lat2 - lat1) * PI) / 180 in
  let dLng := ((lng2 - lng1) * PI) / 180 in
  let a :=
    sin (dLat / 2) * sin (dLat / 2) +
    cos ((lat1 * PI) / 180) * cos ((lat2 * PI) / 180) *
    sin (dLng / 2) * sin (dLng / 2) in
  let c := 2 * JS.Math_atan2 (sqrt a) (sqrt (1 - a)) in
  R_earth * c.

(** ** The facility processor *)

Record Facility := mkFacility {
  id : string;
  name : string;
  category : string;
  lng : R;
  lat : R;
  distance : R;
  contribution : R;
  tags : option Tags
}.

(** The first truthy tag among [keys], else [dflt]: the chain of [||]
    that picks the display name. *)
Fixpoint firstTruthyTag (t : option Tags) (keys : list string) (dflt : string)
    : string :=
  match keys with
  | [] => dflt
  | k :: keys' =>
      match tag t k with
      | Some v => if JS.truthy v then v else firstTruthyTag t keys' dflt
      | None => firstTruthyTag t keys' dflt
      end
  end.

Definition nameKeys : list string :=
  ["name"; "shop"; "amenity"; "leisure"; "highway"; "traffic_calming";
   "crossing_ref"; "man_made"; "barrier"; "kerb"; "wheelchair";
   "tactile_paving"]%string.

(** [element.id || index], printed in decimal. *)
Definition idOrIndex (i : option N) (index : nat) : string :=
  match i with
  | Some n => if (n =? 0)%N then pretty index else pretty n
  | None => pretty index
  end.

(** The callback of [elements.map]: one raw element to one facility. *)
Definition toFacility (category : string) (userLat userLng : R)
    (index : nat) (element : Element) : Facility :=
  let lat := JS.numOr (el_lat element)
               (JS.numOr (el_center element ≫= center_lat) 0) in
  let lng := JS.numOr (el_lon element)
               (JS.numOr (el_center element ≫= center_lon) 0) in
  let distance := calculateDistance userLat userLng lat lng in
  let actualCategory := classify (el_tags element) category in
  let name :=
    firstTruthyTag (el_tags element) nameKeys (actualCategory +:+ " facility") in
  let contribution := calculateDistanceContribution distance actualCategory in
  {| id := actualCategory +:+ "-" +:+ idOrIndex (el_id element) index;
     name := name;
     category := actualCategory;
     lng := lng;
     lat := lat;
     distance := JS.Math_round distance;
     contribution := contribution;
     tags := el_tags element |}.

(** The table of maximal distances used by the filter of
    [processFacilities], looked up by its own keys. *)
Definition filterConfig (category : string) : option R :=
  if bool_decide (category ∈ categories) then Some 1000 else None.

(** [decayConfig[f.category] || 1000] *)
Definition filterMaxDistance (category : string) : R :=
  default 1000 (filterConfig category).

(** The callback of [.filter]. *)
Definition withinMaxDistance (f : Facility) : bool :=
  JS.leb (distance f) (filterMaxDistance (category f)).

(** The test of the proximity and name deduplication. *)
Definition nameSimilar (existingName facilityName : string) : bool :=
  String.eqb existingName facilityName ||
  JS.includes existingName facilityName ||
  JS.includes facilityName existingName ||
  (JS.includes existingName "sd" && JS.includes facilityName "sd") ||
  (JS.includes existingName "sekolah" && JS.includes facilityName "sekolah").

Definition isDuplicate (existing facility : Facility) : bool :=
  let coordDistance :=
    calculateDistance (lat existing) (lng existing) (lat facility) (lng facility) in
  let existingName := JS.trim (JS.toLowerCase (name existing)) in
  let facilityName := JS.trim (JS.toLowerCase (name facility)) in
  JS.ltb coordDistance 50 && nameSimilar existingName facilityName.

(** The reducer of the first [reduce]: append a facility that duplicates
    none of the kept ones, else keep the better of the two at the index
    of the first duplicate. *)
Definition dedupeStep (acc : list Facility) (facility : Facility) : list Facility :=
  match JS.findIndex (λ existing, isDuplicate existing facility) acc with
  | None => acc ++ [facility]
  | Some existingIndex =>
      match acc !! existingIndex with
      | Some existing =>
          if JS.ltb (contribution existing) (contribution facility)
          then <[existingIndex := facility]> acc
          else acc
      | None => acc
      end
  end.

Definition dedupe (facilities : list Facility) : list Facility :=
  fold_left dedupeStep facilities [].

(** The reducer of the second [reduce]: drop a facility whose [id] is
    already kept. *)
Definition dedupeByIdStep (acc : list Facility) (facility : Facility)
    : list Facility :=
  match JS.findIndex (λ existing, String.eqb (id existing) (id facility)) acc with
  | None => acc ++ [facility]
  | Some _ => acc
  end.

Definition dedupeById (facilities : list Facility) : list Facility :=
  fold_left dedupeByIdStep facilities [].

Definition processFacilities (elements : list Element) (category : string)
    (userLat userLng : R) : list Facility :=
  let facilities :=
    List.filter withinMaxDistance
      (imap (toFacility category userLat userLng) elements) in
  let uniqueFacilities := dedupe facilities in
  let finalFacilities := dedupeById uniqueFacilities in
  finalFacilities.

(** Two facilities are the same place under the deduplication rule. *)
Definition samePlace (f g : Facility) : Prop := isDuplicate f g = true.

(** No two entries of a list are the same place. *)
Fixpoint pairwiseDistinct (l : list Facility) : Prop :=
  match l with
  | [] => True
  | f :: l' => Forall (λ g, ¬ samePlace f g ∧ ¬ samePlace g f) l' ∧ pairwiseDistinct l'
  end.

(** No facility of a list beats an earlier facility it duplicates, so
    that the first [reduce] never overwrites a kept entry. *)
Fixpoint noBetterDuplicate (l : list Facility) : Prop :=
  match l with
  | [] => True
  | e :: l' =>
      Forall (λ f, samePlace e f → contribution f <= contribution e) l' ∧
      noBetterDuplicate l'
  end.

(** ** The score aggregator *)

(** The two accumulators of [calculateLivabilityScore]: objects with one
    numeric property per category. *)
Abbreviation Counts := (gmap string nat).
Abbreviation Scores := (gmap string R).

Definition initialCounts : Counts :=
  list_to_map ((λ c, (c, 0%nat)) <$> categories).

Definition initialScores : Scores :=
  list_to_map ((λ c, (c, 0)) <$> categories).

(** [obj.hasOwnProperty(key)] *)
Definition hasOwnProperty {V : Type} (obj : gmap string V) (key : string) : bool :=
  bool_decide (is_Some (obj !! key)).

(** [facilityCounts.key]; every run keeps all ten keys present. *)
Definition count (counts : Counts) (key : string) : nat :=
  default 0%nat (counts !! key).

(** [categoryScores.key]; every run keeps all ten keys present. *)
Definition score (scores : Scores) (key : string) : R :=
  default 0 (scores !! key).

(** [facilityCounts[key]++] *)
Definition increment (counts : Counts) (key : string) : Counts :=
  <[key := S (count counts key)]> counts.

(** [categoryScores[key] += x] *)
Definition addScore (scores : Scores) (key : string) (x : R) : Scores :=
  <[key := score scores key + x]> scores.

Record SubScores := mkSubScores {
  services : R;
  mobility : R;
  safety : R;
  environment : R
}.

(** The helper [cap] of [calculateSubScores]. *)
Definition cap (val : R) : R := JS.Math_min 100 (JS.Math_round val).

Definition calculateSubScores (categoryScores : Scores) (counts : Counts)
    : SubScores :=
  let servicesScore :=
    cap (score categoryScores "health" * (12 / 10) +
         score categoryScores "education" * 1 +
         score categoryScores "market" * (8 / 10) +
         score categoryScores "religious" * (8 / 10)) in
  let mobilityScore :=
    cap (score categoryScores "transport" * (15 / 10) +
         score categoryScores "walkability" * (5 / 10)) in
  let safetyScore :=
    cap (score categoryScores "safety" * (6 / 10) +
         score categoryScores "police" * 2 +
         score categoryScores "health" * (8 / 10) +
         score categoryScores "accessibility" * 1) in
  let environmentScore := cap (score categoryScores "recreation" * (25 / 10)) in
  {| services := servicesScore;
     mobility := mobilityScore;
     safety := safetyScore;
     environment := environmentScore |}.

(** The overall score of [calculateLivabilityScore]. *)
Definition overallScore (subscores : SubScores) : R :=
  services subscores * (3 / 10) +
  mobility subscores * (25 / 100) +
  safety subscores * (25 / 100) +
  environment subscores * (2 / 10).

(** The body of [facilities.forEach] in the processing of the fetched
    results: one facility counted and added to the sums, with the
    dampening of walkability and safety items. *)
Definition accumulate (acc : Counts * Scores) (facility : Facility)
    : Counts * Scores :=
  let '(facilityCounts, categoryScores) := acc in
  if hasOwnProperty facilityCounts (category facility) then
    let facilityCounts := increment facilityCounts (category facility) in
    if String.eqb (category facility) "walkability" then
      let reducedContribution := contribution facility * (25 / 100) in
      let categoryScores := addScore categoryScores "walkability" reducedContribution in
      let isLighting :=
        tagIs (tags facility) "highway" "street_lamp" ||
        tagIs (tags facility) "lit" "yes" in
      if isLighting
      then (facilityCounts, addScore categoryScores "safety" reducedContribution)
      else (facilityCounts, categoryScores)
    else if String.eqb (category facility) "safety" then
      let isMajorSafety := tagIs (tags facility) "amenity" "fire_station" in
      if isMajorSafety
      then (facilityCounts, addScore categoryScores "safety" (contribution facility))
      else (facilityCounts,
            addScore categoryScores "safety" (contribution facility * (25 / 100)))
    else
      (facilityCounts,
       addScore categoryScores (category facility) (contribution facility))
  else acc.

(** ** Custom points of interest *)

Record CustomPOI := mkCustomPOI {
  poi_id : string;
  poi_name : string;
  poi_category : string;
  poi_lng : R;
  poi_lat : R
}.

(** [customPoiService.getPOIsNearLocation]; the service computes the
    distance with its own copy of the Haversine formula. *)
Definition getPOIsNearLocation (allPOIs : list CustomPOI)
    (lat lng radiusMeters : R) : list CustomPOI :=
  List.filter
    (λ poi, JS.leb (calculateDistance lat lng (poi_lat poi) (poi_lng poi)) radiusMeters)
    allPOIs.

(** The callback of [customPOIs.map]; the flag [custom: true] of the
    tags is kept as the string [true].  The contribution of a facility
    is a real number: for a point whose category is the name of a member
    inherited from [Object.prototype] the code computes NaN
    ([calculateDistanceContributionOrNaN]), which the field cannot hold,
    and the statements on the contribution of custom points exclude
    these names. *)
Definition toCustomFacility (lat lng : R) (poi : CustomPOI) : Facility :=
  let distance := calculateDistance lat lng (poi_lat poi) (poi_lng poi) in
  let contribution := calculateDistanceContribution distance (poi_category poi) in
  {| id := poi_id poi;
     name := poi_name poi +:+ " (Custom)";
     category :=
       if String.eqb (poi_category poi) "custom" then "recreation"
       else poi_category poi;
     lng := poi_lng poi;
     lat := poi_lat poi;
     distance := JS.Math_round distance;
     contribution := contribution;
     tags := Some {[ "custom" := "true" ]} |}.

(** The body of [customFacilities.forEach]. *)
Definition accumulateCustom (acc : Counts * Scores) (facility : Facility)
    : Counts * Scores :=
  let '(facilityCounts, categoryScores) := acc in
  if hasOwnProperty facilityCounts (category facility) then
    (increment facilityCounts (category facility),
     addScore categoryScores (category facility) (contribution facility))
  else acc.

(** ** The fetch orchestrator *)

(** What one request to the Overpass endpoint comes back with: an HTTP
    response with its status and the [elements] of its JSON body, if
    any, or an error thrown by [fetch] itself. *)
Inductive Response :=
  | HttpResponse (status : nat) (elements : option (list Element))
  | NetworkError (message : string).

(** The network as seen from one run: the response to the request of a
    category at a given attempt (the request body is fixed by the
    category and the origin). *)
Definition Network := string → nat → Response.

(** The property of the [queries] table of [generateOverpassQuery] that
    a category selects.  The table has no query for accessibility, which
    falls back to the health query: [queries[category] || queries.health]. *)
Definition queryOf (category : string) : string :=
  if bool_decide (category ∈
       ["health"; "education"; "market"; "transport"; "walkability";
        "recreation"; "safety"; "police"; "religious"]%string)
  then category else "health"%string.

(** The state a run reads and writes: the unexpired entries of the cache
    service for the origin of the run, and the delays awaited so far in
    milliseconds, most recent first.  The key of an entry is derived
    from the text of the query (see [Cache.overpassKey]); the entries
    are addressed here by the query they belong to.  No entry expires
    and no write fails during a run; expiry and the quota are modelled
    in [CacheService]. *)
Record World := mkWorld {
  cache : gmap string (list Element);
  slept : list nat
}.

(** Computations that read and write the world and either return a value
    or throw an [Error], represented by its message. *)
Definition M (A : Type) : Type := World → (string + A) * World.

Definition ret {A : Type} (x : A) : M A := λ w, (inr x, w).

Definition throw {A : Type} (message : string) : M A := λ w, (inl message, w).

Definition bind {A B : Type} (m : M A) (k : A → M B) : M B :=
  λ w, match m w with
       | (inr x, w') => k x w'
       | (inl e, w') => (inl e, w')
       end.

(** [try { m } catch (error) { handler error }] *)
Definition tryCatch {A : Type} (m : M A) (handler : string → M A) : M A :=
  λ w, match m w with
       | (inr x, w') => (inr x, w')
       | (inl e, w') => handler e w'
       end.

Declare Scope orchestrator_scope.
Delimit Scope orchestrator_scope with M.
Notation "x <- m ;; k" := (bind m (λ x, k))
  (at level 100, m at next level, right associativity) : orchestrator_scope.
Notation "m ;; k" := (bind m (λ _, k))
  (at level 100, right associativity) : orchestrator_scope.

(** [await delay(ms)] *)
Definition delay (ms : nat) : M unit :=
  λ w, (inr tt, {| cache := cache w; slept := ms :: slept w |}).

(** [cacheService.get] on the entry of a query. *)
Definition getCached (query : string) : M (option (list Element)) :=
  λ w, (inr (cache w !! query), w).

(** [cacheService.set] on the entry of a query, in a [localStorage]
    that has room: the entry is written and no other entry is touched.
    (When the quota is exceeded, [cacheService.set] prunes, tries again
    and may store nothing: see [CacheService.set].  A run of the model
    never exceeds the quota.) *)
Definition setCached (query : string) (elements : list Element) : M unit :=
  λ w, (inr tt, {| cache := <[query := elements]> (cache w); slept := slept w |}).

(** [response.ok] *)
Definition ok (status : nat) : bool := ((200 <=? status) && (status <=? 299))%nat.

(** The [fetchFn] of [queryOverpassAPI]: one POST to the endpoint. *)
Definition fetchElements (net : Network) (category : string) (attempt : nat)
    : M (list Element) :=
  match net category attempt with
  | HttpResponse status elements =>
      if ok status then ret (default [] elements)
      else throw ("HTTP error! status: " +:+ pretty status)
  | NetworkError message => throw message
  end.

(** [queryOverpassAPI], through [cacheLocationData] and [cacheAPI]: the
    cached elements if there are any, else the fetched ones, cached on
    the way back. *)
Definition queryOverpassAPI (net : Network) (category : string) (attempt : nat)
    : M (list Element) :=
  (cached <- getCached (queryOf category) ;;
   match cached with
   | Some elements => ret elements
   | None =>
       data <- fetchElements net category attempt ;;
       setCached (queryOf category) data ;;
       ret data
   end)%M.

Inductive Status := fulfilled | rejected.

Record FetchResult := mkFetchResult {
  fr_category : string;
  fr_facilities : list Facility;
  fr_status : Status;
  fr_fromCache : option bool
}.

(** The [for] loop of [fetchCategoryWithRetry], at its iteration [i]
    with [n] iterations left. *)
Fixpoint retryLoop (net : Network) (category : string) (lat lng : R)
    (retries n i : nat) : M FetchResult :=
  match n with
  | O => ret (mkFetchResult category [] rejected None)
  | S n' =>
      tryCatch
        (elements <- queryOverpassAPI net category i ;;
         let facilities := processFacilities elements category lat lng in
         ret (mkFetchResult category facilities fulfilled (Some false)))%M
        (λ error,
           let isRateLimit := JS.includes error "429" in
           if (i =? retries)%nat then throw error
           else
             let waitTime := if isRateLimit then 5000%nat else (2000 * (i + 1))%nat in
             (delay waitTime ;;
              retryLoop net category lat lng retries n' (S i))%M)
  end.

Definition fetchCategoryWithRetry (net : Network) (category : string)
    (lat lng : R) (retries : nat) : M FetchResult :=
  (cachedElements <- getCached (queryOf category) ;;
   match cachedElements with
   | Some elements =>
       let facilities := processFacilities elements category lat lng in
       ret (mkFetchResult category facilities fulfilled (Some true))
   | None => retryLoop net category lat lng retries (S retries) 0
   end)%M.

(** The body of the sequential [for (const category of categories)]
    loop: the result of the category is pushed, or an empty one when its
    fetch throws. *)
Definition fetchOne (net : Network) (lat lng : R) (category : string)
    (results : list FetchResult) : M (list FetchResult) :=
  tryCatch
    (result <- fetchCategoryWithRetry net category lat lng 3 ;;
     (if negb (default false (fr_fromCache result))
      then delay 2000 else ret tt) ;;
     ret (results ++ [result]))%M
    (λ _, ret (results ++ [mkFetchResult category [] fulfilled None])).

Fixpoint fetchAll (net : Network) (lat lng : R) (cats : list string)
    (results : list FetchResult) : M (list FetchResult) :=
  match cats with
  | [] => ret results
  | category :: cats' =>
      (results' <- fetchOne net lat lng category results ;;
       fetchAll net lat lng cats' results')%M
  end.

(** The body of [results.forEach]. *)
Definition processResult (acc : list Facility * (Counts * Scores))
    (result : FetchResult) : list Facility * (Counts * Scores) :=
  let '(allFacilities, totals) := acc in
  match fr_status result with
  | fulfilled =>
      (allFacilities ++ fr_facilities result,
       fold_left accumulate (fr_facilities result) totals)
  | rejected => acc
  end.

Record Location := mkLocation {
  address : string;
  coordinates : R * R
}.

Record LiveabilityData := mkLiveabilityData {
  overall : R;
  subscores : SubScores;
  location : option Location;
  facilityCounts : Counts
}.

(** Everything [calculateLivabilityScore] does once the fetches are
    over: the fetched results are accumulated, the custom points of the
    store [allPOIs] are merged, and the scores are computed.  The sums
    are returned next to the published data. *)
Definition summarize (results : list FetchResult) (allPOIs : list CustomPOI)
    (lat lng : R) (address : string)
    : LiveabilityData * list Facility * Scores :=
  let '(allFacilities, totals) :=
    fold_left processResult results ([], (initialCounts, initialScores)) in
  let customPOIs := getPOIsNearLocation allPOIs lat lng 1000 in
  let customFacilities := toCustomFacility lat lng <$> customPOIs in
  let allFacilities := allFacilities ++ customFacilities in
  let '(facilityCounts, categoryScores) :=
    fold_left accumulateCustom customFacilities totals in
  let subscores := calculateSubScores categoryScores facilityCounts in
  let data :=
    {| overall := overallScore subscores;
       subscores := subscores;
       location := Some (mkLocation address (lng, lat));
       facilityCounts := facilityCounts |} in
  (data, allFacilities, categoryScores).

Definition calculateLivabilityScore (net : Network) (allPOIs : list CustomPOI)
    (lat lng : R) (address : string)
    : M (LiveabilityData * list Facility * Scores) :=
  (results <- fetchAll net lat lng categories [] ;;
   ret (summarize results allPOIs lat lng address))%M.

(** [getEmptyLivabilityData] *)
Definition getEmptyLivabilityData : LiveabilityData :=
  {| overall := 0;
     subscores := {| services := 0; mobility := 0; safety := 0; environment := 0 |};
     location := None;
     facilityCounts :=
       {[ "health" := 0%nat; "education" := 0%nat; "market" := 0%nat;
          "transport" := 0%nat; "walkability" := 0%nat; "recreation" := 0%nat;
          "safety" := 0%nat; "accessibility" := 0%nat; "police" := 0%nat;
          "religious" := 0%nat ]} |}.

(** ** Cache keys *)

Module Cache.

Local Open Scope Z_scope.

(** *** [cacheUtils.hash] *)

(** Conversion of an integer to a signed 32-bit integer, as the
    bitwise operators do it. *)
Definition toInt32 (z : Z) : Z := (z + 2 ^ 31) mod 2 ^ 32 - 2 ^ 31.

(** One iteration of the loop of [hash]:
    [hash = (hash << 5) - hash + char; hash = hash & hash]. *)
Definition hashStep (hash : Z) (char : ascii) : Z :=
  let hash := toInt32 (Z.shiftl (toInt32 hash) 5) - hash + Z.of_nat (nat_of_ascii char) in
  Z.land (toInt32 hash) (toInt32 hash).

Fixpoint hashLoop (hash : Z) (str : string) : Z :=
  match str with
  | EmptyString => hash
  | String char str' => hashLoop (hashStep hash char) str'
  end.

Definition hash (str : string) : string := pretty (hashLoop 0 str).

(** *** Printing coordinates *)

(** A coordinate given with six decimals, as a number of millionths
    of a degree.  The double nearest to such a number prints as the
    number itself. *)
Definition Coord := Z.

(** The [width] last decimal digits of [n], leading zeros kept. *)
Fixpoint fixedDigits (width : nat) (n : Z) : string :=
  match width with
  | O => EmptyString
  | S width' =>
      fixedDigits width' (n / 10) +:+
      String (ascii_of_nat (48 + Z.to_nat (n mod 10))) EmptyString
  end.

Fixpoint dropZeros (s : string) : string :=
  match s with
  | String "0" s' => dropZeros s'
  | _ => s
  end.

Definition stripTrailingZeros (s : string) : string :=
  String.rev (dropZeros (String.rev s)).

(** [Number.prototype.toString] *)
Definition toString (x : Coord) : string :=
  let a := Z.abs x in
  (if x <? 0 then "-" else "") +:+ pretty (a / 1000000) +:+
  (if a mod 1000000 =? 0 then ""
   else "." +:+ stripTrailingZeros (fixedDigits 6 (a mod 1000000))).

(** [x.toFixed(3)].  When [x] lies half way between two multiples of
    a thousandth, the result depends on the binary expansion of the
    double, which the model does not have: there is no result then. *)
Definition toFixed3 (x : Coord) : option string :=
  let a := Z.abs x in
  let r := a mod 1000 in
  if r =? 500 then None
  else
    let n := if 500 <? r then a / 1000 + 1 else a / 1000 in
    Some ((if x <? 0 then "-" else "") +:+ pretty (n / 1000) +:+ "." +:+
          fixedDigits 3 (n mod 1000)).

(** *** [CacheService.generateKey] *)

Fixpoint insertSorted (p : string * string) (l : list (string * string))
    : list (string * string) :=
  match l with
  | [] => [p]
  | q :: l' => if String.leb p.1 q.1 then p :: l else q :: insertSorted p l'
  end.

(** [Object.keys(params).sort()], with the values kept next to the keys. *)
Definition sortParams (params : list (string * string)) : list (string * string) :=
  foldr insertSorted [] params.

Fixpoint join (sep : string) (l : list string) : string :=
  match l with
  | [] => ""
  | [x] => x
  | x :: l' => x +:+ sep +:+ join sep l'
  end.

Definition generateKey (prefix : string) (params : list (string * string)) : string :=
  let sortedParams := join "|" ((λ p, p.1 +:+ ":" +:+ p.2) <$> sortParams params) in
  prefix +:+ ":" +:+ sortedParams.

(** The key under which [cacheLocationData] and [getCachedLocationData]
    store and look up the data of type [dataType] for an origin. *)
Definition locationKey (lat lng : Coord) (dataType : string) : option string :=
  lat3 ← toFixed3 lat;
  lng3 ← toFixed3 lng;
  Some (generateKey ("location-" +:+ dataType) [("lat", lat3); ("lng", lng3)]).

(** *** The query of a category *)

(** [s.replace(/pat/g, rep)] for a pattern without special characters;
    [skip] characters of a match are still to be passed over. *)
Fixpoint replaceFrom (pat rep : string) (skip : nat) (s : string) : string :=
  match s with
  | EmptyString => EmptyString
  | String c s' =>
      match skip with
      | S skip' => replaceFrom pat rep skip' s'
      | O =>
          if String.prefix pat s
          then rep +:+ replaceFrom pat rep (String.length pat - 1) s'
          else String c (replaceFrom pat rep 0 s')
      end
  end.

Definition replaceAll (pat rep s : string) : string := replaceFrom pat rep 0 s.

(** The double quote, and a query text in which each double quote is
    written as a backquote. *)
Definition doubleQuote : ascii := ascii_of_nat 34.

Fixpoint quoted (s : string) : string :=
  match s with
  | EmptyString => EmptyString
  | String c s' =>
      String (if Ascii.eqb c "`" then doubleQuote else c) (quoted s')
  end.

(** [FACILITY_DISTANCES] *)
Definition FACILITY_DISTANCES (category : string) : option nat :=
  if bool_decide (category ∈ categories) then Some 1000%nat else None.

Definition query_health : string :=
  quoted "
      [out:json];
      (
        node[`amenity`~`^(hospital|clinic|doctors|dentist|pharmacy|veterinary)$`](around:${distance},{lat},{lng});
        way[`amenity`~`^(hospital|clinic|doctors|dentist|pharmacy|veterinary)$`](around:${distance},{lat},{lng});
        node[`name`~`^(rumah sakit|rsud|klinik|apotek|apotik|dokter|puskesmas|poli)`](around:${distance},{lat},{lng});
        way[`name`~`^(rumah sakit|rsud|klinik|apotek|apotik|dokter|puskesmas|poli)`](around:${distance},{lat},{lng});
      );
      out center;
    ".

Definition query_education : string :=
  quoted "
      [out:json];
      (
        node[`amenity`~`^(school|university|college|kindergarten|library)$`](around:${distance},{lat},{lng});
        way[`amenity`~`^(school|university|college|kindergarten|library)$`](around:${distance},{lat},{lng});
        node[`name`~`^(sekolah|sd|smp|sma|smk|universitas|univ|kampus|tk|paud|perpustakaan|library)`](around:${distance},{lat},{lng});
        way[`name`~`^(sekolah|sd|smp|sma|smk|universitas|univ|kampus|tk|paud|perpustakaan|library)`](around:${distance},{lat},{lng});
      );
      out center;
    ".

Definition query_market : string :=
  quoted "
      [out:json];
      (
        // GRAB ALL SHOPS - OSM already knows what's a shop!
        node[`shop`](around:${distance},{lat},{lng});
        way[`shop`](around:${distance},{lat},{lng});
        
        // GRAB ALL RESTAURANTS/FOOD ESTABLISHMENTS
        node[`amenity`~`^(restaurant|cafe|fast_food|food_court|bar|pub|ice_cream|coffee_shop)$`](around:${distance},{lat},{lng});
        way[`amenity`~`^(restaurant|cafe|fast_food|food_court|bar|pub|ice_cream|coffee_shop)$`](around:${distance},{lat},{lng});
        
        // GRAB ALL AMENITIES THAT COULD BE SHOPS
        node[`amenity`~`^(shop|store|market|retail|food|beverage)$`](around:${distance},{lat},{lng});
        way[`amenity`~`^(shop|store|market|retail|food|beverage)$`](around:${distance},{lat},{lng});
        
        // GRAB ALL FUEL STATIONS AND GAS STATIONS
        node[`amenity`~`^(fuel|gas_station|petrol_station|service_station)$`](around:${distance},{lat},{lng});
        way[`amenity`~`^(fuel|gas_station|petrol_station|service_station)$`](around:${distance},{lat},{lng});
        
        // GRAB BY NAME PATTERNS (Indonesian and English) - more specific to avoid recreation
        node[`name`~`^(spbu|pom bensin|gas station|petrol|fuel|bensin|solar|pertamina|shell|bp|esso|caltex|toko|warung|shop|store|market|mall|plaza)`](around:${distance},{lat},{lng});
        way[`name`~`^(spbu|pom bensin|gas station|petrol|fuel|bensin|solar|pertamina|shell|bp|esso|caltex|toko|warung|shop|store|market|mall|plaza)`](around:${distance},{lat},{lng});
        
        // Community centers that might be market-like
        node[`amenity`=`community_centre`][`name`~`^(pasar|market|pusat|center|centre)`](around:${distance},{lat},{lng});
        way[`amenity`=`community_centre`][`name`~`^(pasar|market|pusat|center|centre)`](around:${distance},{lat},{lng});
      );
      out center;
    ".

Definition query_transport : string :=
  quoted "
      [out:json];
      (
        node[`public_transport`~`^(platform|station|stop_position)$`](around:${distance},{lat},{lng});
        node[`highway`=`bus_stop`](around:${distance},{lat},{lng});
        node[`railway`~`^(station|halt|tram_stop)$`](around:${distance},{lat},{lng});
        way[`public_transport`~`^(platform|station)$`](around:${distance},{lat},{lng});
        node[`name`~`^(halte|bus stop|terminal|stasiun|station|mrt|lrt|transjakarta|angkot)`](around:${distance},{lat},{lng});
        way[`name`~`^(halte|bus stop|terminal|stasiun|station|mrt|lrt|transjakarta|angkot)`](around:${distance},{lat},{lng});
      );
      out center;
    ".

Definition query_walkability : string :=
  quoted "
      [out:json];
      (
        // Pedestrian-friendly streets and paths
        way[`highway`~`^(footway|pedestrian|path|steps|bridleway)$`](around:${distance},{lat},{lng});
        way[`highway`=`residential`][`foot`=`designated`](around:${distance},{lat},{lng});
        way[`highway`=`service`][`foot`=`designated`](around:${distance},{lat},{lng});
        
        // Sidewalks and pedestrian infrastructure
        way[`sidewalk`~`^(both|left|right|separate)$`](around:${distance},{lat},{lng});
        way[`footway`=`sidewalk`](around:${distance},{lat},{lng});
        way[`footway`=`crossing`](around:${distance},{lat},{lng});
        
        // Pedestrian crossings and safety
        node[`highway`=`crossing`][`foot`=`designated`](around:${distance},{lat},{lng});
        node[`highway`=`crossing`][`crossing`=`zebra`](around:${distance},{lat},{lng});
        node[`highway`=`crossing`][`crossing`=`traffic_signals`](around:${distance},{lat},{lng});
        node[`highway`=`crossing`][`crossing`=`uncontrolled`](around:${distance},{lat},{lng});
        
        // Pedestrian bridges and tunnels
        way[`bridge`=`yes`][`highway`~`^(footway|pedestrian|path)$`](around:${distance},{lat},{lng});
        way[`tunnel`=`yes`][`highway`~`^(footway|pedestrian|path)$`](around:${distance},{lat},{lng});
        
        // Pedestrian zones and areas
        way[`pedestrian`=`yes`](around:${distance},{lat},{lng});
        way[`pedestrian`=`designated`](around:${distance},{lat},{lng});
        way[`pedestrian`=`zone`](around:${distance},{lat},{lng});
        
        // Walking routes and trails
        way[`route`=`foot`](around:${distance},{lat},{lng});
        way[`route`=`hiking`](around:${distance},{lat},{lng});
        way[`route`=`walking`](around:${distance},{lat},{lng});
        
        // Pedestrian-friendly amenities
        node[`amenity`=`bench`](around:${distance},{lat},{lng});
        way[`amenity`=`bench`](around:${distance},{lat},{lng});
        node[`amenity`=`drinking_water`](around:${distance},{lat},{lng});
        way[`amenity`=`drinking_water`](around:${distance},{lat},{lng});
        
        // Street furniture for pedestrians
        node[`highway`=`street_lamp`](around:${distance},{lat},{lng});
        way[`highway`][`lit`=`yes`](around:${distance},{lat},{lng});
        
        // Traffic calming for pedestrian safety
        way[`traffic_calming`~`^(speed_bump|table|chicane|hump|cushion)$`](around:${distance},{lat},{lng});
        
        // Low-speed zones (better for walking)
        way[`maxspeed`~`^(20|30|40)$`](around:${distance},{lat},{lng});
        way[`zone:traffic`=`20`](around:${distance},{lat},{lng});
        way[`zone:traffic`=`30`](around:${distance},{lat},{lng});
        
        // Pedestrian-friendly street design
        way[`highway`=`residential`][`lanes`=`1`](around:${distance},{lat},{lng});
        way[`highway`=`residential`][`lanes`=`2`](around:${distance},{lat},{lng});
        way[`highway`=`service`][`lanes`=`1`](around:${distance},{lat},{lng});
        
        // Green infrastructure for walking
        way[`natural`=`tree_row`](around:${distance},{lat},{lng});
        way[`natural`=`hedge`](around:${distance},{lat},{lng});
        way[`landuse`=`grass`](around:${distance},{lat},{lng});
        way[`landuse`=`meadow`](around:${distance},{lat},{lng});
      );
      out center;
    ".

Definition query_recreation : string :=
  quoted "
      [out:json];
      (
        node[`leisure`~`^(park|playground|sports_centre|fitness_centre|swimming_pool|garden)$`](around:${distance},{lat},{lng});
        way[`leisure`~`^(park|playground|sports_centre|fitness_centre|swimming_pool|garden)$`](around:${distance},{lat},{lng});
        node[`amenity`~`^(cinema|theatre)$`](around:${distance},{lat},{lng});
        way[`amenity`~`^(cinema|theatre)$`](around:${distance},{lat},{lng});
        node[`name`~`^(taman|park|playground|kolam renang|swimming|gym|fitness|bioskop|cinema|teater|theatre)`](around:${distance},{lat},{lng});
        way[`name`~`^(taman|park|playground|kolam renang|swimming|gym|fitness|bioskop|cinema|teater|theatre)`](around:${distance},{lat},{lng});
      );
      out center;
    ".

Definition query_safety : string :=
  quoted "
      [out:json];
      (
        // Street lighting
        node[`highway`=`street_lamp`](around:${distance},{lat},{lng});
        way[`highway`][`lit`=`yes`](around:${distance},{lat},{lng});
        
        // Crossings and traffic signals
        node[`highway`=`crossing`](around:${distance},{lat},{lng});
        node[`highway`=`crossing`][`crossing_ref`=`zebra`](around:${distance},{lat},{lng});
        node[`highway`=`crossing`][`crossing`=`uncontrolled`](around:${distance},{lat},{lng});
        node[`highway`=`traffic_signals`](around:${distance},{lat},{lng});
        
        // Traffic calming measures
        way[`traffic_calming`](around:${distance},{lat},{lng});
        way[`traffic_calming`=`speed_bump`](around:${distance},{lat},{lng});
        way[`traffic_calming`=`table`](around:${distance},{lat},{lng});
        way[`traffic_calming`=`chicane`](around:${distance},{lat},{lng});
        
        // Speed limits (high speed = higher risk)
        way[`maxspeed`](around:${distance},{lat},{lng});
        
        // Pedestrian infrastructure
        way[`sidewalk`](around:${distance},{lat},{lng});
        way[`sidewalk`=`both`](around:${distance},{lat},{lng});
        way[`sidewalk`=`left`](around:${distance},{lat},{lng});
        way[`sidewalk`=`right`](around:${distance},{lat},{lng});
        way[`footway`=`sidewalk`](around:${distance},{lat},{lng});
        way[`kerb`=`lowered`](around:${distance},{lat},{lng});
        
        // Emergency response facilities (excluding police - they have their own category)
        node[`amenity`=`fire_station`](around:${distance},{lat},{lng});
        way[`amenity`=`fire_station`](around:${distance},{lat},{lng});
        node[`amenity`=`hospital`](around:${distance},{lat},{lng});
        way[`amenity`=`hospital`](around:${distance},{lat},{lng});
        
        // Surveillance/CCTV
        node[`man_made`=`surveillance`](around:${distance},{lat},{lng});
        way[`man_made`=`surveillance`](around:${distance},{lat},{lng});
        node[`surveillance:type`=`camera`](around:${distance},{lat},{lng});
        way[`surveillance:type`=`camera`](around:${distance},{lat},{lng});
        
        // Accessibility features (merged from access category)
        node[`barrier`=`kerb`](around:${distance},{lat},{lng});
        way[`barrier`=`kerb`](around:${distance},{lat},{lng});
        node[`kerb`=`lowered`](around:${distance},{lat},{lng});
        way[`kerb`=`lowered`](around:${distance},{lat},{lng});
        node[`kerb`=`flush`](around:${distance},{lat},{lng});
        way[`kerb`=`flush`](around:${distance},{lat},{lng});
        
        // Ramps and accessible entrances
        node[`highway`=`steps`][`incline`](around:${distance},{lat},{lng});
        way[`highway`=`steps`][`incline`](around:${distance},{lat},{lng});
        node[`highway`=`elevator`](around:${distance},{lat},{lng});
        way[`highway`=`elevator`](around:${distance},{lat},{lng});
        
        // Accessible parking
        node[`amenity`=`parking`][`access`=`designated`](around:${distance},{lat},{lng});
        way[`amenity`=`parking`][`access`=`designated`](around:${distance},{lat},{lng});
        
        // Tactile paving and guidance
        node[`tactile_paving`=`yes`](around:${distance},{lat},{lng});
        way[`tactile_paving`=`yes`](around:${distance},{lat},{lng});
        
        // Accessible toilets
        node[`amenity`=`toilets`][`wheelchair`=`yes`](around:${distance},{lat},{lng});
        way[`amenity`=`toilets`][`wheelchair`=`yes`](around:${distance},{lat},{lng});
      );
      out center;
    ".

Definition query_police : string :=
  quoted "
      [out:json];
      (
        // Police stations and related facilities
        node[`amenity`=`police`](around:${distance},{lat},{lng});
        way[`amenity`=`police`](around:${distance},{lat},{lng});
        node[`name`~`^(polisi|polres|polsek|polda|satlantas|satpol|pp|police)`](around:${distance},{lat},{lng});
        way[`name`~`^(polisi|polres|polsek|polda|satlantas|satpol|pp|police)`](around:${distance},{lat},{lng});
      );
      out center;
    ".

Definition query_religious : string :=
  quoted "
      [out:json];
      (
        node[`amenity`~`^(place_of_worship|mosque|church|temple|synagogue|hindu_temple|buddhist_temple)$`](around:${distance},{lat},{lng});
        way[`amenity`~`^(place_of_worship|mosque|church|temple|synagogue|hindu_temple|buddhist_temple)$`](around:${distance},{lat},{lng});
        node[`name`~`^(masjid|gudang|gereja|katedral|katedral|synagogue|hindu_temple|buddhist_temple)`](around:${distance},{lat},{lng});
        way[`name`~`^(masjid|gudang|gereja|katedral|katedral|synagogue|hindu_temple|buddhist_temple)`](around:${distance},{lat},{lng});
      );
      out center;
    ".

(** The [queries] table of [generateOverpassQuery], before the
    interpolation of the distance. *)
Definition queries (category : string) : option string :=
  if String.eqb category "health" then Some query_health
  else if String.eqb category "education" then Some query_education
  else if String.eqb category "market" then Some query_market
  else if String.eqb category "transport" then Some query_transport
  else if String.eqb category "walkability" then Some query_walkability
  else if String.eqb category "recreation" then Some query_recreation
  else if String.eqb category "safety" then Some query_safety
  else if String.eqb category "police" then Some query_police
  else if String.eqb category "religious" then Some query_religious
  else None.

Definition generateOverpassQuery (category : string) : string :=
  let distance := default 1000%nat (FACILITY_DISTANCES category) in
  replaceAll "${distance}" (pretty distance)
    (default query_health (queries category)).

(** The query sent for a category at an origin: the placeholders of
    the coordinates are replaced by the coordinates as they print. *)
Definition formattedQuery (category : string) (lat lng : Coord) : string :=
  replaceAll "{lng}" (toString lng)
    (replaceAll "{lat}" (toString lat) (generateOverpassQuery category)).

(** The cache key of the query of a category at an origin, as
    [queryOverpassAPI] and [fetchCategoryWithRetry] build it. *)
Definition overpassKey (category : string) (lat lng : Coord) : option string :=
  locationKey lat lng ("overpass-" +:+ hash (formattedQuery category lat lng)).

End Cache.

(** ** The cache service *)

Module CacheService.

Local Open Scope Z_scope.

(** What [JSON.parse] makes of an item of [localStorage]: the entry that
    [set] wrote, whose data is [None] when it is [null], or nothing,
    when the text does not parse. *)
Inductive Item (D : Type) :=
  | Entry (data : option D) (timestamp ttl : Z)
  | Corrupt.
Arguments Entry {D} data timestamp ttl.
Arguments Corrupt {D}.

Definition STORAGE_PREFIX : string := "f_cache_".
Definition defaultTTL : Z := 5 * 60 * 1000.
Definition maxSize : nat := 100.

Definition getStorageKey (key : string) : string := STORAGE_PREFIX +:+ key.

(** [key.startsWith(this.STORAGE_PREFIX)] *)
Definition isOwn (key : string) : bool := String.prefix STORAGE_PREFIX key.

(** [now - timestamp > ttl] *)
Definition expired (now timestamp ttl : Z) : bool := ttl <? now - timestamp.

(** [validEntries.sort((a, b) => a.timestamp - b.timestamp)]: a stable
    sort, oldest first. *)
Fixpoint insertByTimestamp (e : string * Z) (l : list (string * Z)) : list (string * Z) :=
  match l with
  | [] => [e]
  | e' :: l' => if e.2 <=? e'.2 then e :: l else e' :: insertByTimestamp e l'
  end.

Definition sortByTimestamp (l : list (string * Z)) : list (string * Z) :=
  foldr insertByTimestamp [] l.

(** [localStorage]: the item of each key.  The order in which
    [localStorage.key(i)] enumerates the keys is left to the browser; it
    is the order of [map_to_list] here. *)
Abbreviation Storage D := (gmap string (Item D)).

Section Service.

Context {D : Type}.

(** Whether [localStorage] has room for a content; [setItem] throws a
    [QuotaExceededError] when it has not. *)
Variable fits : Storage D → bool.

(** [localStorage.setItem]; [None] when it throws. *)
Definition setItem (key : string) (item : Item D) (storage : Storage D) : option (Storage D) :=
  if fits (<[key := item]> storage) then Some (<[key := item]> storage) else None.

(** The callback of [keys.forEach] in [prune]. *)
Definition checkExpiry (now : Z) (acc : list (string * Z) * Storage D) (key : string)
    : list (string * Z) * Storage D :=
  let '(validEntries, storage) := acc in
  match storage !! key with
  | Some (Entry _ timestamp ttl) =>
      if expired now timestamp ttl then (validEntries, delete key storage)
      else (validEntries ++ [(key, timestamp)], storage)
  | Some Corrupt => (validEntries, delete key storage)
  | None => acc
  end.

Definition prune (now : Z) (storage : Storage D) : Storage D :=
  let keys := List.filter isOwn (map_to_list storage).*1 in
  let '(validEntries, storage) := fold_left (checkExpiry now) keys ([], storage) in
  if (maxSize <? length validEntries)%nat then
    let sorted := sortByTimestamp validEntries in
    let toRemove := take (length validEntries - maxSize) sorted in
    fold_left (λ storage entry, delete entry.1 storage) toRemove storage
  else storage.

(** [get]; a text that does not parse makes [JSON.parse] throw, which
    is caught. *)
Definition get (key : string) (now : Z) (storage : Storage D) : option D * Storage D :=
  let storageKey := getStorageKey key in
  match storage !! storageKey with
  | None => (None, storage)
  | Some Corrupt => (None, storage)
  | Some (Entry data timestamp ttl) =>
      if expired now timestamp ttl then (None, delete storageKey storage)
      else (data, storage)
  end.

(** [set] at the time [now]; [pruneTime] is the time at which [prune]
    runs when the first write exceeds the quota. *)
Definition set (key : string) (data : option D) (ttl : Z) (now pruneTime : Z)
    (storage : Storage D) : Storage D :=
  let storageKey := getStorageKey key in
  let entry := Entry data now ttl in
  match setItem storageKey entry storage with
  | Some storage' => storage'
  | None =>
      let storage := prune pruneTime storage in
      match setItem storageKey entry storage with
      | Some storage' => storage'
      | None => storage
      end
  end.

Definition clear (storage : Storage D) : Storage D :=
  let keysToRemove := List.filter isOwn (map_to_list storage).*1 in
  fold_left (λ storage k, delete k storage) keysToRemove storage.

(** The [size] of [getStats]. *)
Definition statsSize (storage : Storage D) : nat :=
  length (List.filter isOwn (map_to_list storage).*1).

(** [cacheAPI] under the key that [generateKey] made; [fetched] is what
    [fetchFn] does when it is called: it throws or returns data.  The
    lookup runs at [getTime], the write at [setTime]. *)
Definition cacheAPI (key : string) (fetched : string + option D) (ttl : Z)
    (getTime setTime pruneTime : Z) (storage : Storage D)
    : (string + option D) * Storage D :=
  let '(cached, storage) := get key getTime storage in
  match cached with
  | Some data => (inr (Some data), storage)
  | None =>
      match fetched with
      | inl error => (inl error, storage)
      | inr data => (inr data, set key data ttl setTime pruneTime storage)
      end
  end.

(** [delete] *)
Definition delete (key : string) (storage : Storage D) : bool * Storage D :=
  (true, base.delete (getStorageKey key) storage).

(** An item that [prune] keeps at the time [now]: an entry that is not
    expired. *)
Definition live (now : Z) (item : Item D) : bool :=
  match item with
  | Entry _ timestamp ttl => negb (expired now timestamp ttl)
  | Corrupt => false
  end.

(** The key and the timestamp of the live entry under a key. *)
Definition validEntry (now : Z) (storage : Storage D) (key : string)
    : option (string * Z) :=
  match storage !! key with
  | Some (Entry _ timestamp ttl) =>
      if expired now timestamp ttl then None else Some (key, timestamp)
  | _ => None
  end.

End Service.

End CacheService.

(** ** The store of custom points *)

Module PoiStore.

(** A stored point: the fields that the score reads, and the others. *)
Record StoredPOI := mkStoredPOI {
  fields : CustomPOI;
  description : option string;
  createdAt : Z;
  updatedAt : Z
}.

Definition idOf (p : StoredPOI) : string := poi_id (fields p).

(** The item of [localStorage] under [STORAGE_KEY]: absent, or the list
    that [savePOIs] wrote. *)
Definition Store := option (list StoredPOI).

(** The argument of [addPOI]: a point without [id], [createdAt] and
    [updatedAt]. *)
Record NewPOI := mkNewPOI {
  new_name : string;
  new_category : string;
  new_lng : R;
  new_lat : R;
  new_description : option string
}.

(** The argument of [updatePOI]: the properties that are present
    replace those of the point.  An [updatedAt] among them is
    overwritten by the time of the update and is left out. *)
Record Updates := mkUpdates {
  upd_name : option string;
  upd_category : option string;
  upd_lng : option R;
  upd_lat : option R;
  upd_description : option string
}.

(** What [JSON.parse] makes of the argument of [importPOIs]. *)
Inductive Parsed :=
  | SyntaxError
  | NotAnArray
  | AnArray (imported : list StoredPOI).

Section Service.

(** Whether [localStorage.setItem] accepts the text of a list of points;
    it throws when the quota is exceeded. *)
Variable fits : list StoredPOI → bool.

Definition getAllPOIs (store : Store) : list StoredPOI := default [] store.

(** [savePOIs]: the error of [setItem] is caught and logged. *)
Definition savePOIs (pois : list StoredPOI) (store : Store) : Store :=
  if fits pois then Some pois else store.

(** [getPOIsNearLocation] on the store. *)
Definition nearLocation (store : Store) (lat lng radiusMeters : R) : list CustomPOI :=
  getPOIsNearLocation (fields <$> getAllPOIs store) lat lng radiusMeters.

(** [addPOI]; the three calls of [Date.now()] and the text made from
    [Math.random()] are arguments. *)
Definition addPOI (poi : NewPOI) (idTime createdTime updatedTime : Z)
    (random : string) (store : Store) : StoredPOI * Store :=
  let newPOI :=
    {| fields :=
         mkCustomPOI ("custom-" +:+ pretty idTime +:+ "-" +:+ random)
           (new_name poi) (new_category poi) (new_lng poi) (new_lat poi);
       description := new_description poi;
       createdAt := createdTime;
       updatedAt := updatedTime |} in
  let pois := getAllPOIs store ++ [newPOI] in
  (newPOI, savePOIs pois store).

(** [{ ...pois[index], ...updates, updatedAt: Date.now() }] *)
Definition applyUpdates (p : StoredPOI) (updates : Updates) (now : Z) : StoredPOI :=
  {| fields :=
       mkCustomPOI (poi_id (fields p))
         (default (poi_name (fields p)) (upd_name updates))
         (default (poi_category (fields p)) (upd_category updates))
         (default (poi_lng (fields p)) (upd_lng updates))
         (default (poi_lat (fields p)) (upd_lat updates));
     description :=
       match upd_description updates with
       | Some d => Some d
       | None => description p
       end;
     createdAt := createdAt p;
     updatedAt := now |}.

Definition updatePOI (id : string) (updates : Updates) (now : Z) (store : Store)
    : option StoredPOI * Store :=
  let pois := getAllPOIs store in
  match JS.findIndex (λ p, String.eqb (idOf p) id) pois with
  | None => (None, store)
  | Some index =>
      match pois !! index with
      | Some p =>
          let pois := <[index := applyUpdates p updates now]> pois in
          (pois !! index, savePOIs pois store)
      | None => (None, store)
      end
  end.

Definition deletePOI (id : string) (store : Store) : bool * Store :=
  let pois := getAllPOIs store in
  let filtered := List.filter (λ p, negb (String.eqb (idOf p) id)) pois in
  if (length filtered =? length pois)%nat then (false, store)
  else (true, savePOIs filtered store).

Definition getPOIById (id : string) (store : Store) : option StoredPOI :=
  List.find (λ p, String.eqb (idOf p) id) (getAllPOIs store).

Definition clearAllPOIs (store : Store) : Store := None.

Definition importPOIs (json : Parsed) (store : Store) : bool * Store :=
  match json with
  | SyntaxError => (false, store)
  | NotAnArray => (false, store)
  | AnArray imported =>
      let existing := getAllPOIs store in
      let merged := existing ++ imported in
      (true, savePOIs merged store)
  end.

End Service.

End PoiStore.

(** ** Predicates used in the statements *)

(** The accumulator of the counts has exactly the ten categories as
    keys, as in every run. *)
Definition ownKeys (counts : Counts) : Prop :=
  ∀ c, is_Some (counts !! c) ↔ c ∈ categories.

(** A response that makes the fetch of [queryOverpassAPI] throw. *)
Definition failing (r : Response) : Prop :=
  match r with
  | HttpResponse status _ => ok status = false
  | NetworkError _ => True
  end.

(** ** Concrete inputs *)

(** A hospital a little more than 1000 m north of the origin (0, 0). *)
Definition edgeHospital : Element :=
  mkElement (Some 42%N) (Some (8995 / 1000000)) None None
    (Some {[ "amenity" := "hospital" ]}).

Definition edgeHospitalFacility : Facility :=
  {| id := "health-42"; name := "hospital"; category := "health";
     lng := 0; lat := 8995 / 1000000; distance := 1000; contribution := 0;
     tags := Some {[ "amenity" := "hospital" ]} |}.

(** Three elements on one spot, the origin (1, 2) of the query: two
    cafes and a school whose name contains the names of both. *)
Definition kopi : Element :=
  mkElement (Some 1%N) (Some 1) (Some 2) None
    (Some {[ "amenity" := "cafe"; "name" := "Kopi" ]}).

Definition susu : Element :=
  mkElement (Some 2%N) (Some 1) (Some 2) None
    (Some {[ "amenity" := "cafe"; "name" := "Susu" ]}).

Definition kopiSusu : Element :=
  mkElement (Some 3%N) (Some 1) (Some 2) None
    (Some {[ "amenity" := "school"; "name" := "Kopi Susu" ]}).

Definition kopiFacility : Facility :=
  {| id := "market-1"; name := "Kopi"; category := "market"; lng := 2; lat := 1;
     distance := 0; contribution := 8;
     tags := Some {[ "amenity" := "cafe"; "name" := "Kopi" ]} |}.

Definition susuFacility : Facility :=
  {| id := "market-2"; name := "Susu"; category := "market"; lng := 2; lat := 1;
     distance := 0; contribution := 8;
     tags := Some {[ "amenity" := "cafe"; "name" := "Susu" ]} |}.

Definition kopiSusuFacility : Facility :=
  {| id := "education-3"; name := "Kopi Susu"; category := "education";
     lng := 2; lat := 1; distance := 0; contribution := 10;
     tags := Some {[ "amenity" := "school"; "name" := "Kopi Susu" ]} |}.

(** The same school returned twice, under two element ids. *)
Definition sdNegeri (i : N) : Element :=
  mkElement (Some i) (Some 1) (Some 2) None
    (Some {[ "amenity" := "school"; "name" := "SD Negeri 1" ]}).

(** A street lamp classified as walkability, with contribution 8. *)
Definition lamp : Facility :=
  {| id := "walkability-5"; name := "street_lamp"; category := "walkability";
     lng := 2; lat := 1; distance := 379; contribution := 8;
     tags := Some {[ "highway" := "street_lamp" ]} |}.

(** A custom point of category walkability on the origin (1, 2). *)
Definition customSidewalk : CustomPOI :=
  mkCustomPOI "custom-1" "Trotoar" "walkability" 2 1.

(** A custom point with the legacy category, and one whose category is
    none of the ten, both on the origin (1, 2). *)
Definition customPark : CustomPOI :=
  mkCustomPOI "custom-2" "Taman RT" "custom" 2 1.


(** A hospital on the origin (1, 2), a network on which every request of
    the health bucket fails with status 504 while the safety query
    returns that hospital and every other query returns no element, and
    a world with an empty cache. *)
Definition hospitalAtOrigin : Element :=
  mkElement (Some 9%N) (Some 1) (Some 2) None (Some {[ "amenity" := "hospital" ]}).


Definition healthDown : Network := λ category attempt,
  if String.eqb category "health" then HttpResponse 504 None
  else if String.eqb category "safety" then HttpResponse 200 (Some [hospitalAtOrigin])
  else HttpResponse 200 (Some []).

Definition emptyWorld : World := mkWorld ∅ [].

(** ** Further notions used in the statements *)

(** The number of facilities of a category in a list. *)
Definition countOf (c : string) (l : list Facility) : nat :=
  length (filter (λ f, category f = c) l).

(** Every sum of the accumulator is at least zero. *)
Definition nonnegative (scores : Scores) : Prop := ∀ c, 0 <= score scores c.

(** The message of the [Error] that a failing response makes the fetch
    throw. *)
Definition errorOf (r : Response) : string :=
  match r with
  | HttpResponse status _ => "HTTP error! status: " +:+ pretty status
  | NetworkError message => message
  end.

(** The wait of [fetchCategoryWithRetry] after the failure of attempt [i]
    with the error [message]. *)
Definition backoff (message : string) (i : nat) : nat :=
  if JS.includes message "429" then 5000%nat else (2000 * (i + 1))%nat.

(** The waits after the failures of the attempts [i], ..., [i + k - 1]
    of a category, most recent first. *)
Fixpoint backoffs (net : Network) (category : string) (i k : nat) : list nat :=
  match k with
  | O => []
  | S k' => backoffs net category (S i) k' ++ [backoff (errorOf (net category i)) i]
  end.

(** A network on which the second attempt is rate limited and every
    other attempt fails in [fetch] itself. *)
Definition rateLimited : Network := λ category attempt,
  match attempt with
  | 1%nat => HttpResponse 429 None
  | _ => NetworkError "Failed to fetch"
  end.

(** A network that times out once and then returns the hospital. *)
Definition secondTry : Network := λ category attempt,
  match attempt with
  | O => HttpResponse 504 None
  | _ => HttpResponse 200 (Some [hospitalAtOrigin])
  end.

(** A facility with a contribution and a rounded distance in range. *)
Definition inRange (f : Facility) : Prop := 0 <= contribution f ∧ 0 <= distance f <= 1000.

(** The waits of a run of [retries] retries: the cool-down after a rate
    limit, a back-off of [2000 * (j + 1)] for an attempt [j] before the
    last, and the delay after a category that was fetched. *)
Definition isWait (retries : nat) (ms : nat) : Prop :=
  ms = 5000%nat ∨ ∃ j, (j < retries)%nat ∧ ms = (2000 * (j + 1))%nat.

(** The world [w'] is the world [w] with more cache entries, none
    replaced, and more waits. *)
Definition grows (retries : nat) (w w' : World) : Prop :=
  cache w ⊆ cache w' ∧
  (∀ q, q ∉ queryOf <$> categories → cache w' !! q = cache w !! q) ∧
  ∃ new, slept w' = new ++ slept w ∧ Forall (isWait retries) new.

(** The sum of [g] over a list of facilities. *)
Definition sumOf (g : Facility → R) (l : list Facility) : R :=
  foldr (λ f s, g f + s) 0 l.

(** The part of the contribution of a fetched facility that enters the
    sum of the category [c]. *)
Definition share (c : string) (f : Facility) : R :=
  if bool_decide (category f ∈ categories) then
    if String.eqb (category f) "walkability" then
      if String.eqb c "walkability" then contribution f * (25 / 100)
      else if String.eqb c "safety" &&
              (tagIs (tags f) "highway" "street_lamp" || tagIs (tags f) "lit" "yes")
      then contribution f * (25 / 100)
      else 0
    else if String.eqb (category f) "safety" then
      if String.eqb c "safety" then
        if tagIs (tags f) "amenity" "fire_station" then contribution f
        else contribution f * (25 / 100)
      else 0
    else if String.eqb c (category f) then contribution f
    else 0
  else 0.

(** The part of the contribution of a custom facility that enters the
    sum of the category [c]. *)
Definition customShare (c : string) (f : Facility) : R :=
  if bool_decide (category f ∈ categories) && String.eqb c (category f)
  then contribution f else 0.

(** The facilities of the fulfilled results, in the order of the results. *)
Definition fetchedFacilities (results : list FetchResult) : list Facility :=
  mjoin ((λ r, match fr_status r with
               | fulfilled => fr_facilities r
               | rejected => []
               end) <$> results).

(** The polynomial in 31 whose coefficients are the character codes of
    a string, the first character with the highest power. *)
Definition polynomial (str : string) : Z :=
  fold_left (λ acc char, 31 * acc + Z.of_nat (nat_of_ascii char))%Z
    (list_ascii_of_string str) 0%Z.

(** A network on which the health query returns the hospital and every
    other request fails in [fetch] itself. *)
Definition healthUp : Network := λ category attempt,
  if String.eqb category "health" then HttpResponse 200 (Some [hospitalAtOrigin])
  else NetworkError "Failed to fetch".

(** A world whose cache holds the hospital under the health query. *)
Definition warmWorld : World := mkWorld {[ "health"%string := [hospitalAtOrigin] ]} [].

(** The deduplication rule is transitive on a list: duplicates come in
    groups. *)
Definition duplicatesTransitive (l : list Facility) : Prop :=
  ∀ f g h, f ∈ l → g ∈ l → h ∈ l → samePlace f g → samePlace g h → samePlace f h.

(** The kept facilities stand for the facilities seen so far: no two of
    them are the same place, each of them was seen, and each facility
    seen is kept or is the same place as a kept one that contributes at
    least as much. *)
Definition represents (kept seen : list Facility) : Prop :=
  pairwiseDistinct kept ∧
  (∀ g, g ∈ kept → g ∈ seen) ∧
  ∀ f, f ∈ seen →
    ∃ g, g ∈ kept ∧ (g = f ∨ samePlace g f) ∧ contribution f <= contribution g.


(** * Properties *)

(** ** Numbers *)

Lemma ltb_true (x y : R) : JS.ltb x y = true ↔ x < y.
Proof. unfold JS.ltb. destruct (Rlt_dec x y); split; intros; try done; lra. Qed.

Lemma ltb_false (x y : R) : JS.ltb x y = false ↔ y <= x.
Proof. unfold JS.ltb. destruct (Rlt_dec x y); split; intros; try done; lra. Qed.

Lemma leb_true (x y : R) : JS.leb x y = true ↔ x <= y.
Proof. unfold JS.leb. destruct (Rle_dec x y); split; intros; try done; lra. Qed.

Lemma leb_false (x y : R) : JS.leb x y = false ↔ y < x.
Proof. unfold JS.leb. destruct (Rle_dec x y); split; intros; try done; lra. Qed.

Lemma eqb_true (x y : R) : JS.eqb x y = true ↔ x = y.
Proof. unfold JS.eqb. destruct (Req_dec_T x y); split; intros; done. Qed.

Lemma Math_pow_0 (y : R) : JS.Math_pow 0 y = 0.
Proof. unfold JS.Math_pow. destruct (Req_dec_T 0 0); [done | lra]. Qed.

Lemma Math_pow_pos (x y : R) : 0 < x → JS.Math_pow x y = Rpower x y.
Proof. intros Hx. unfold JS.Math_pow. destruct (Req_dec_T x 0); [lra | done]. Qed.

Lemma Math_pow_1 (y : R) : JS.Math_pow 1 y = 1.
Proof.
  rewrite Math_pow_pos by lra.
  unfold Rpower. rewrite ln_1, Rmult_0_r. apply exp_0.
Qed.

Lemma Math_pow_nonneg (x y : R) : 0 <= JS.Math_pow x y.
Proof.
  unfold JS.Math_pow. destruct (Req_dec_T x 0); [lra |].
  unfold Rpower. left. apply exp_pos.
Qed.

(** [Math.pow] grows with a non-negative base when the exponent is
    positive. *)
Lemma Math_pow_le (x1 x2 y : R) :
  0 < y → 0 <= x1 <= x2 → JS.Math_pow x1 y <= JS.Math_pow x2 y.
Proof.
  intros Hy [H1 H12].
  destruct (Req_dec_T x1 0) as [-> | Hne].
  - rewrite Math_pow_0. apply Math_pow_nonneg.
  - rewrite !Math_pow_pos by lra. apply Rle_Rpower_l; lra.
Qed.

Lemma Math_round_eq (z : Z) (x : R) :
  IZR z - / 2 <= x < IZR z + / 2 → JS.Math_round x = IZR z.
Proof.
  intros H. unfold JS.Math_round. f_equal. apply Zfloor_eq. lra.
Qed.

Lemma Math_round_nonneg (x : R) : 0 <= x → 0 <= JS.Math_round x.
Proof.
  intros H. unfold JS.Math_round. apply IZR_le, Zfloor_lub. simpl. lra.
Qed.

Lemma Math_round_bounds (x : R) : x - / 2 < JS.Math_round x <= x + / 2.
Proof.
  unfold JS.Math_round. pose proof (Zfloor_bound (x + / 2)). lra.
Qed.

(** ** The distance contribution model *)

Lemma decayConfig_categories (c : string) :
  c ∈ categories →
  ∃ m r, decayConfig c = Some (mkDecay 1000 m r) ∧ 4 <= m ∧ 0 < r < 1.
Proof.
  unfold categories. rewrite !elem_of_cons, elem_of_nil.
  intros H. destruct_or!; subst; try done; cbn;
    eexists _, _; (split; [reflexivity | lra]).
Qed.

Lemma contribution_beyond (d : R) (c : string) :
  maxDistance (configOf c) < d → calculateDistanceContribution d c = 0.
Proof.
  intros H. unfold calculateDistanceContribution.
  apply ltb_true in H. by rewrite H.
Qed.

Lemma contribution_within (d : R) (c : string) :
  d <= maxDistance (configOf c) →
  calculateDistanceContribution d c =
    Rmax (maxContribution (configOf c) *
            JS.Math_pow (1 - d / maxDistance (configOf c)) (decayRate (configOf c)))
         (maxContribution (configOf c) * (1 / 10)).
Proof.
  intros H. unfold calculateDistanceContribution.
  apply ltb_false in H. by rewrite H.
Qed.

(** C1. For each of the ten categories the maximal distance is 1000;
    beyond it the contribution is 0; from 0 up to it the contribution is
    the maximum of [maxContribution * (1 - d/maxDistance)^decayRate] and
    a tenth of [maxContribution], hence at least that tenth; and the
    contribution never grows with the distance. *)
Theorem distance_contribution_model (c : string) :
  c ∈ categories →
  let cfg := configOf c in
  decayConfig c = Some cfg ∧
  maxDistance cfg = 1000 ∧
  (∀ d, d > maxDistance cfg → calculateDistanceContribution d c = 0) ∧
  (∀ d, 0 <= d < maxDistance cfg →
     calculateDistanceContribution d c =
       Rmax (maxContribution cfg * Rpower (1 - d / maxDistance cfg) (decayRate cfg))
            (1 / 10 * maxContribution cfg)) ∧
  calculateDistanceContribution (maxDistance cfg) c =
    Rmax (maxContribution cfg * 0) (1 / 10 * maxContribution cfg) ∧
  (∀ d, 0 <= d <= maxDistance cfg →
     calculateDistanceContribution d c >= 1 / 10 * maxContribution cfg) ∧
  (∀ d1 d2, d1 <= d2 →
     calculateDistanceContribution d2 c <= calculateDistanceContribution d1 c).
Proof.
  intros Hc cfg.
  destruct (decayConfig_categories c Hc) as (m & r & Hcfg & Hm & Hr).
  assert (cfg = mkDecay 1000 m r) as Ecfg
    by (unfold cfg, configOf; by rewrite Hcfg).
  assert (∀ d, d <= 1000 →
            calculateDistanceContribution d c =
              Rmax (m * JS.Math_pow (1 - d / 1000) r) (m * (1 / 10))) as Hin.
  { intros d Hd. rewrite contribution_within; fold cfg; rewrite Ecfg; cbn; [done | lra]. }
  assert (∀ d, 1000 < d → calculateDistanceContribution d c = 0) as Hout.
  { intros d Hd. apply contribution_beyond. fold cfg. rewrite Ecfg. cbn. lra. }
  rewrite Ecfg. cbn [maxDistance maxContribution decayRate].
  split_and!.
  - by rewrite Hcfg.
  - done.
  - intros d Hd. apply Hout. lra.
  - intros d Hd. rewrite Hin by lra.
    rewrite Math_pow_pos by (apply Rlt_0_minus; lra). f_equal. lra.
  - rewrite Hin by lra.
    replace (1 - 1000 / 1000) with 0 by lra. rewrite Math_pow_0. f_equal. lra.
  - intros d Hd. rewrite Hin by lra.
    pose proof (Rmax_r (m * JS.Math_pow (1 - d / 1000) r) (m * (1 / 10))). lra.
  - intros d1 d2 Hd.
    destruct (Rlt_dec 1000 d2) as [H2 | H2].
    + rewrite (Hout d2 H2).
      destruct (Rlt_dec 1000 d1) as [H1 | H1].
      * rewrite (Hout d1 H1). lra.
      * rewrite Hin by lra.
        pose proof (Rmax_r (m * JS.Math_pow (1 - d1 / 1000) r) (m * (1 / 10))). lra.
    + rewrite !Hin by lra.
      apply Rle_max_compat_r, Rmult_le_compat_l; [lra |].
      apply Math_pow_le; lra.
Qed.

Lemma distance_contribution_model_walkability :
  "walkability" ∈ categories ∧
  calculateDistanceContribution 1000 "walkability" =
    Rmax (12 * 0) (1 / 10 * 12).
Proof.
  assert ("walkability" ∈ categories) as H by compute_done.
  split; [exact H |].
  exact (proj1 (proj2 (proj2 (proj2 (proj2 (distance_contribution_model "walkability" H)))))).
Defined.

(** ** The score aggregator *)

Lemma cap_bounds (val : R) : 0 <= val → 0 <= cap val <= 100.
Proof.
  intros H. unfold cap, JS.Math_min.
  pose proof (Math_round_nonneg val H).
  split; [apply Rmin_glb; lra | apply Rmin_l].
Qed.

Lemma score_constant (l : list string) (v : R) (c : string) :
  score (list_to_map ((λ k, (k, v)) <$> l)) c = v ∨
  score (list_to_map ((λ k, (k, v)) <$> l)) c = 0.
Proof.
  unfold score.
  destruct (list_to_map ((λ k, (k, v)) <$> l) !! c) as [x |] eqn:E; [| by right].
  left. apply elem_of_list_to_map_2 in E.
  apply list_elem_of_fmap in E as (k & [= -> ->] & _). done.
Qed.

(** C3. The four sub-scores are the capped, rounded weighted sums of
    the category contribution sums; for non-negative sums each sub-score
    and the overall score lie between 0 and 100. *)
Theorem sub_scores_formulas_and_bounds (categoryScores : Scores) (counts : Counts) :
  (∀ c, 0 <= score categoryScores c) →
  let sum := score categoryScores in
  let s := calculateSubScores categoryScores counts in
  services s =
    Rmin 100 (JS.Math_round (sum "health" * (12 / 10) + sum "education" * 1 +
                             sum "market" * (8 / 10) + sum "religious" * (8 / 10))) ∧
  mobility s =
    Rmin 100 (JS.Math_round (sum "transport" * (15 / 10) + sum "walkability" * (5 / 10))) ∧
  safety s =
    Rmin 100 (JS.Math_round (sum "safety" * (6 / 10) + sum "police" * 2 +
                             sum "health" * (8 / 10) + sum "accessibility" * 1)) ∧
  environment s = Rmin 100 (JS.Math_round (sum "recreation" * (25 / 10))) ∧
  0 <= services s <= 100 ∧
  0 <= mobility s <= 100 ∧
  0 <= safety s <= 100 ∧
  0 <= environment s <= 100 ∧
  overallScore s =
    services s * (3 / 10) + mobility s * (25 / 100) +
    safety s * (25 / 100) + environment s * (2 / 10) ∧
  0 <= overallScore s <= 100.
Proof.
  intros Hpos sum s.
  pose proof (Hpos "health") as Hh. pose proof (Hpos "education") as He.
  pose proof (Hpos "market") as Hm. pose proof (Hpos "religious") as Hr.
  pose proof (Hpos "transport") as Ht. pose proof (Hpos "walkability") as Hw.
  pose proof (Hpos "safety") as Hs. pose proof (Hpos "police") as Hp.
  pose proof (Hpos "accessibility") as Ha. pose proof (Hpos "recreation") as Hc.
  assert (0 <= services s <= 100) as B1 by (apply cap_bounds; nra).
  assert (0 <= mobility s <= 100) as B2 by (apply cap_bounds; nra).
  assert (0 <= safety s <= 100) as B3 by (apply cap_bounds; nra).
  assert (0 <= environment s <= 100) as B4 by (apply cap_bounds; nra).
  split_and!; try done.
  all: unfold overallScore; lra.
Qed.

Lemma sub_scores_formulas_and_bounds_ten_each :
  let scores : Scores := list_to_map ((λ k, (k, 10)) <$> categories) in
  (∀ c, 0 <= score scores c) ∧
  0 <= overallScore (calculateSubScores scores initialCounts) <= 100.
Proof.
  intros scores.
  assert (∀ c, 0 <= score scores c) as H.
  { intros c. destruct (score_constant categories 10 c) as [E | E];
      unfold scores; rewrite E; lra. }
  split; [exact H |].
  pose proof (sub_scores_formulas_and_bounds scores initialCounts H) as T.
  cbv zeta in T. tauto.
Defined.

(** ** The category classifier *)

(** The cascade of conditionals is the first-match evaluation of the
    priority list. *)
Lemma classify_firstMatch (tags : option Tags) (category : string) :
  classify tags category = firstMatch priorityRules tags category.
Proof. reflexivity. Qed.

Lemma firstMatch_head (p : option Tags → bool) (c : string)
    (rules : list ((option Tags → bool) * string)) (tags : option Tags)
    (category : string) :
  p tags = true → firstMatch ((p, c) :: rules) tags category = c.
Proof. intros H. cbn. by rewrite H. Qed.

(** C2. The classifier is the first-match evaluation of an ordered rule
    list whose first rule is education and whose second rule is police;
    an element that satisfies both rules is classified as education,
    whatever query bucket returned it. *)
Theorem classifier_priority (element : Element) (bucket : string)
    (userLat userLng : R) (index : nat) :
  isEducation (el_tags element) = true →
  isPolice (el_tags element) = true →
  (∀ tags b, classify tags b = firstMatch priorityRules tags b) ∧
  (∃ rules, priorityRules =
     (isEducation, "education") :: (isPolice, "police") :: rules) ∧
  classify (el_tags element) bucket = "education" ∧
  category (toFacility bucket userLat userLng index element) = "education".
Proof.
  intros Hedu _.
  assert (classify (el_tags element) bucket = "education") as H
    by (rewrite classify_firstMatch; by apply firstMatch_head).
  split_and!; [apply classify_firstMatch | by eexists | exact H | exact H].
Qed.

Lemma classifier_priority_school_named_police :
  let element :=
    mkElement (Some 7%N) (Some 1) (Some 2) None
      (Some {[ "amenity" := "school"; "name" := "Sekolah Polisi Negara" ]}) in
  isEducation (el_tags element) = true ∧
  isPolice (el_tags element) = true ∧
  classify (el_tags element) "police" = "education".
Proof.
  intros element.
  assert (isEducation (el_tags element) = true) as H1 by (vm_compute; reflexivity).
  assert (isPolice (el_tags element) = true) as H2 by (vm_compute; reflexivity).
  split_and!; [exact H1 | exact H2 |].
  exact (proj1 (proj2 (proj2 (classifier_priority element "police" 0 0 0 H1 H2)))).
Defined.

(** ** Great-circle distance *)

Lemma PI_bounds : 314159 / 100000 < PI < 31416 / 10000.
Proof.
  pose proof (PI_2_3_7_ineq 3) as [Hl Hu].
  unfold sum_f_R0, tg_alt, PI_2_3_7_tg, Ratan_seq in Hl, Hu.
  simpl in Hl, Hu.
  split; lra.
Qed.

Lemma sin_half_sym (x y : R) :
  sin ((x - y) * PI / 180 / 2) * sin ((x - y) * PI / 180 / 2) =
  sin ((y - x) * PI / 180 / 2) * sin ((y - x) * PI / 180 / 2).
Proof.
  replace ((x - y) * PI / 180 / 2) with (- ((y - x) * PI / 180 / 2)) by lra.
  rewrite sin_neg. ring.
Qed.

(** The distance does not depend on the order of the two points. *)
Lemma calculateDistance_sym (lat1 lng1 lat2 lng2 : R) :
  calculateDistance lat1 lng1 lat2 lng2 = calculateDistance lat2 lng2 lat1 lng1.
Proof.
  unfold calculateDistance. cbv zeta.
  rewrite (sin_half_sym lat2 lat1).
  rewrite (Rmult_assoc _ (sin ((lng2 - lng1) * PI / 180 / 2))).
  rewrite (sin_half_sym lng2 lng1).
  rewrite (Rmult_comm (cos (lat1 * PI / 180)) (cos (lat2 * PI / 180))).
  rewrite <- (Rmult_assoc _ (sin ((lng1 - lng2) * PI / 180 / 2))).
  reflexivity.
Qed.

Lemma Math_atan2_sin_cos (t : R) :
  - (PI / 2) < t < PI / 2 → JS.Math_atan2 (sin t) (cos t) = t.
Proof.
  intros Ht. unfold JS.Math_atan2.
  pose proof (cos_gt_0 t ltac:(lra) ltac:(lra)) as Hc.
  destruct (Rlt_dec 0 (cos t)); [| lra].
  fold (tan t). by apply atan_tan.
Qed.

(** Between two points of one meridian the distance is the arc of the
    difference of latitude. *)
Lemma calculateDistance_meridian (lat1 lat2 lng : R) :
  0 <= lat2 - lat1 < 180 →
  calculateDistance lat1 lng lat2 lng = 6371000 * ((lat2 - lat1) * PI / 180).
Proof.
  intros H. unfold calculateDistance. cbv zeta.
  pose proof PI_RGT_0 as Hpi.
  set (t := (lat2 - lat1) * PI / 180 / 2).
  assert (0 <= t < PI / 2) as Ht by (unfold t; split; nra).
  replace ((lng - lng) * PI / 180 / 2) with 0 by lra.
  rewrite sin_0, !Rmult_0_r, Rplus_0_r.
  pose proof (sin_ge_0 t ltac:(lra) ltac:(lra)) as Hs.
  pose proof (cos_gt_0 t ltac:(lra) ltac:(lra)) as Hc.
  rewrite sqrt_square by done.
  replace (1 - sin t * sin t) with (cos t * cos t)
    by (pose proof (sin2_cos2 t) as E; unfold Rsqr in E; lra).
  rewrite sqrt_square by lra.
  rewrite Math_atan2_sin_cos by lra.
  unfold t. lra.
Qed.

Lemma calculateDistance_same (lat lng : R) : calculateDistance lat lng lat lng = 0.
Proof. rewrite calculateDistance_meridian by lra. lra. Qed.

(** ** The facility processor *)

Lemma numOr_Some (r y : R) : r ≠ 0 → JS.numOr (Some r) y = r.
Proof. intros H. unfold JS.numOr, JS.eqb. by destruct (Req_dec_T r 0). Qed.

Lemma filterMaxDistance_1000 (c : string) : filterMaxDistance c = 1000.
Proof. unfold filterMaxDistance, filterConfig. by case_bool_decide. Qed.

Lemma Math_round_0 : JS.Math_round 0 = 0.
Proof. apply (Math_round_eq 0). lra. Qed.

(** The facility made from an element that carries its own non-zero
    coordinates. *)
Lemma toFacility_direct (bucket : string) (userLat userLng : R) (index : nat)
    (i : option N) (la lo : R) (ce : option Center) (t : option Tags) :
  la ≠ 0 → lo ≠ 0 →
  toFacility bucket userLat userLng index (mkElement i (Some la) (Some lo) ce t) =
    {| id := classify t bucket +:+ "-" +:+ idOrIndex i index;
       name := firstTruthyTag t nameKeys (classify t bucket +:+ " facility");
       category := classify t bucket;
       lng := lo;
       lat := la;
       distance := JS.Math_round (calculateDistance userLat userLng la lo);
       contribution :=
         calculateDistanceContribution (calculateDistance userLat userLng la lo)
           (classify t bucket);
       tags := t |}.
Proof.
  intros Hla Hlo. unfold toFacility. cbn [el_id el_lat el_lon el_center el_tags].
  by rewrite !numOr_Some.
Qed.

Lemma contribution_at_origin (c : string) :
  c ∈ categories → calculateDistanceContribution 0 c = maxContribution (configOf c).
Proof.
  intros Hc. destruct (decayConfig_categories c Hc) as (m & r & Hcfg & Hm & Hr).
  rewrite contribution_within; unfold configOf; rewrite Hcfg; cbn; [| lra].
  replace (1 - 0 / 1000) with 1 by lra. rewrite Math_pow_1.
  rewrite Rmax_left; lra.
Qed.

Lemma withinMaxDistance_0 (f : Facility) : distance f = 0 → withinMaxDistance f = true.
Proof.
  intros H. unfold withinMaxDistance. apply leb_true.
  rewrite H, filterMaxDistance_1000. lra.
Qed.

(** A facility whose distance, before rounding, is within the maximal
    distance of its category has at least the floor contribution. *)
Lemma toFacility_floor (bucket : string) (userLat userLng : R) (index : nat)
    (element : Element) :
  let f := toFacility bucket userLat userLng index element in
  category f ∈ categories →
  calculateDistance userLat userLng (lat f) (lng f) <= 1000 →
  1 / 10 * maxContribution (configOf (category f)) <= contribution f ∧
  0 < contribution f.
Proof.
  intros f Hc Hd.
  destruct (decayConfig_categories _ Hc) as (m & r & Hcfg & Hm & Hr).
  unfold f, toFacility in *. cbn [category lat lng contribution] in *.
  rewrite contribution_within; unfold configOf; rewrite Hcfg; cbn; [| lra].
  pose proof (Rmax_r (m * JS.Math_pow
    (1 - calculateDistance userLat userLng
           (JS.numOr (el_lat element) (JS.numOr (el_center element ≫= center_lat) 0))
           (JS.numOr (el_lon element) (JS.numOr (el_center element ≫= center_lon) 0))
         / 1000) r) (m * (1 / 10))).
  lra.
Qed.

Lemma edgeHospital_distance :
  1000 < calculateDistance 0 0 (8995 / 1000000) 0 < 1000 + / 2.
Proof.
  rewrite calculateDistance_meridian by lra.
  pose proof PI_bounds. lra.
Qed.

(** C7, at a failing input. A hospital between 1000 m and 1000.5 m from
    the origin passes the filter, which compares the rounded distance
    1000 with the maximal distance 1000, while its contribution, computed
    from the distance before rounding, is 0 and so below the floor of
    its category. *)
Theorem retained_facility_without_contribution :
  processFacilities [edgeHospital] "health" 0 0 = [edgeHospitalFacility] ∧
  1000 < calculateDistance 0 0 (8995 / 1000000) 0 < 1000 + / 2 ∧
  contribution edgeHospitalFacility = 0 ∧
  contribution edgeHospitalFacility <
    1 / 10 * maxContribution (configOf (category edgeHospitalFacility)).
Proof.
  pose proof edgeHospital_distance as Hd.
  assert (toFacility "health" 0 0 0 edgeHospital = edgeHospitalFacility) as E.
  { unfold toFacility, edgeHospital, edgeHospitalFacility.
    cbn [el_id el_lat el_lon el_center el_tags].
    rewrite numOr_Some by lra. cbn [JS.numOr mbind option_bind].
    replace (classify (Some {[ "amenity" := "hospital" ]}) "health")
      with "health"%string by (vm_compute; reflexivity).
    f_equal.
    - apply (Math_round_eq 1000). lra.
    - apply contribution_beyond. cbn. lra. }
  assert (withinMaxDistance edgeHospitalFacility = true) as W.
  { unfold withinMaxDistance. apply leb_true. rewrite filterMaxDistance_1000. cbn. lra. }
  split; [| split; [exact Hd | split; [reflexivity | cbn; lra]]].
  unfold processFacilities. cbn [imap]. rewrite E.
  cbn [List.filter]. rewrite W. reflexivity.
Qed.

(** ** Deduplication *)

Lemma findIndex_None {A : Type} (p : A → bool) (l : list A) :
  JS.findIndex p l = None ↔ Forall (λ x, p x = false) l.
Proof.
  induction l as [| x l IH]; cbn; [by split; [constructor |] |].
  destruct (p x) eqn:E.
  - split; [done |]. intros H. inversion H; subst. congruence.
  - rewrite fmap_None, IH. split; [by constructor |]. by inversion 1.
Qed.

Lemma findIndex_Some {A : Type} (p : A → bool) (l : list A) (i : nat) :
  JS.findIndex p l = Some i → ∃ x, l !! i = Some x ∧ p x = true.
Proof.
  revert i. induction l as [| x l IH]; intros i; cbn; [done |].
  destruct (p x) eqn:E.
  - intros [= <-]. by exists x.
  - rewrite fmap_Some. intros (j & Hj & ->). by apply IH.
Qed.

Lemma nameSimilar_sym (a b : string) : nameSimilar a b = nameSimilar b a.
Proof.
  unfold nameSimilar. rewrite (String.eqb_sym a b).
  destruct (String.eqb b a), (JS.includes a b), (JS.includes b a),
    (JS.includes a "sd"), (JS.includes b "sd"),
    (JS.includes a "sekolah"), (JS.includes b "sekolah"); reflexivity.
Qed.

(** The deduplication rule is symmetric. *)
Lemma isDuplicate_sym (f g : Facility) : isDuplicate f g = isDuplicate g f.
Proof.
  unfold isDuplicate. cbv zeta.
  by rewrite calculateDistance_sym, nameSimilar_sym.
Qed.

Lemma isDuplicate_same_coordinates (f g : Facility) :
  lat f = lat g → lng f = lng g →
  isDuplicate f g =
    nameSimilar (JS.trim (JS.toLowerCase (name f))) (JS.trim (JS.toLowerCase (name g))).
Proof.
  intros Hlat Hlng. unfold isDuplicate. cbv zeta.
  rewrite Hlat, Hlng, calculateDistance_same.
  replace (JS.ltb 0 50) with true by (symmetry; apply ltb_true; lra).
  reflexivity.
Qed.

Lemma pairwiseDistinct_app (l1 l2 : list Facility) :
  pairwiseDistinct (l1 ++ l2) ↔
  pairwiseDistinct l1 ∧ pairwiseDistinct l2 ∧
  Forall (λ f, Forall (λ g, ¬ samePlace f g ∧ ¬ samePlace g f) l2) l1.
Proof.
  induction l1 as [| f l1 IH]; cbn.
  - split; [intros H; split_and!; [done | done | constructor] | tauto].
  - rewrite Forall_app, IH, Forall_cons. tauto.
Qed.

Lemma not_duplicate_distinct (acc : list Facility) (f : Facility) :
  Forall (λ e, isDuplicate e f = false) acc →
  Forall (λ e, Forall (λ g, ¬ samePlace e g ∧ ¬ samePlace g e) [f]) acc.
Proof.
  intros HF. eapply Forall_impl; [exact HF |].
  intros e H. constructor; [| constructor].
  unfold samePlace. rewrite (isDuplicate_sym f e), H. split; congruence.
Qed.

(** As long as no facility beats an earlier duplicate, the pass keeps a
    list without two entries for the same place. *)
Lemma dedupe_keeps (l : list Facility) : ∀ acc,
  pairwiseDistinct acc →
  Forall (λ e, Forall (λ f, samePlace e f → contribution f <= contribution e) l) acc →
  noBetterDuplicate l →
  pairwiseDistinct (fold_left dedupeStep l acc).
Proof.
  induction l as [| f l IH]; intros acc Hacc Hle Hno; cbn; [done |].
  destruct Hno as [Hf Hno].
  assert (Forall (λ e, Forall (λ g, samePlace e g → contribution g <= contribution e) l) acc)
    as Hle' by (eapply Forall_impl; [exact Hle | by intros e He; inversion He]).
  unfold dedupeStep at 2.
  destruct (JS.findIndex _ acc) as [i |] eqn:E.
  - apply findIndex_Some in E as (e & Hi & Hdup). rewrite Hi.
    assert (contribution f <= contribution e) as Hc.
    { rewrite Forall_lookup in Hle. specialize (Hle i e Hi).
      inversion Hle; subst. auto. }
    apply ltb_false in Hc. rewrite Hc. by apply IH.
  - apply findIndex_None in E. apply IH; [| | done].
    + apply pairwiseDistinct_app.
      split_and!; [done | by cbn | by apply not_duplicate_distinct].
    + apply Forall_app. split; [done |]. by constructor.
Qed.

(** On a list without two entries for the same place the pass changes
    nothing. *)
Lemma dedupe_distinct (l2 : list Facility) : ∀ l1,
  pairwiseDistinct (l1 ++ l2) → fold_left dedupeStep l2 l1 = l1 ++ l2.
Proof.
  induction l2 as [| f l2 IH]; intros l1 H; cbn; [by rewrite app_nil_r |].
  assert (JS.findIndex (λ existing, isDuplicate existing f) l1 = None) as E.
  { apply findIndex_None. apply pairwiseDistinct_app in H as (_ & _ & H).
    eapply Forall_impl; [exact H |].
    intros e He. inversion He as [| ? ? [Hn _] _]; subst.
    unfold samePlace in Hn. by destruct (isDuplicate e f). }
  unfold dedupeStep at 2. rewrite E.
  rewrite IH; rewrite <- app_assoc; done.
Qed.

Lemma dedupeById_distinct (l : list Facility) : ∀ acc,
  pairwiseDistinct (acc ++ l) → pairwiseDistinct (fold_left dedupeByIdStep l acc).
Proof.
  induction l as [| f l IH]; intros acc H; cbn; [by rewrite app_nil_r in H |].
  unfold dedupeByIdStep at 2.
  destruct (JS.findIndex _ acc).
  - apply IH. apply pairwiseDistinct_app in H as (H1 & [_ H2] & H3).
    apply pairwiseDistinct_app. split_and!; [done | done |].
    eapply Forall_impl; [exact H3 |]. by intros e He; inversion He.
  - apply IH. by rewrite <- app_assoc.
Qed.

(** Evaluation of [toFacility] on an element that lies on the origin of
    the query. *)
Ltac facility_at_origin :=
  rewrite toFacility_direct by lra;
  rewrite calculateDistance_same, Math_round_0;
  match goal with
  | |- context [classify ?t ?b] =>
      let c := eval vm_compute in (classify t b) in
      replace (classify t b) with c by (vm_compute; reflexivity)
  end;
  rewrite contribution_at_origin by compute_done.

Lemma kopi_facility : toFacility "market" 1 2 0 kopi = kopiFacility.
Proof. unfold kopi. facility_at_origin. reflexivity. Qed.

Lemma susu_facility : toFacility "market" 1 2 1 susu = susuFacility.
Proof. unfold susu. facility_at_origin. reflexivity. Qed.

Lemma kopiSusu_facility : toFacility "market" 1 2 2 kopiSusu = kopiSusuFacility.
Proof. unfold kopiSusu. facility_at_origin. reflexivity. Qed.

(** C6, a counterexample. Two cafes on one spot with unrelated names
    are both kept; a school on the same spot whose name contains both
    names then overwrites the first cafe, having the higher
    contribution.  The final list holds the school and the second cafe,
    which are the same place under the rule, and a second pass over it
    drops the cafe. *)
Lemma dedupe_leaves_duplicates :
  processFacilities [kopi; susu; kopiSusu] "market" 1 2 =
    [kopiSusuFacility; susuFacility] ∧
  isDuplicate kopiSusuFacility susuFacility = true ∧
  dedupe [kopiSusuFacility; susuFacility] = [kopiSusuFacility] ∧
  ¬ pairwiseDistinct (processFacilities [kopi; susu; kopiSusu] "market" 1 2) ∧
  dedupe (processFacilities [kopi; susu; kopiSusu] "market" 1 2) ≠
    processFacilities [kopi; susu; kopiSusu] "market" 1 2.
Proof.
  assert (isDuplicate kopiFacility susuFacility = false) as D12
    by (rewrite isDuplicate_same_coordinates by done; vm_compute; reflexivity).
  assert (isDuplicate kopiFacility kopiSusuFacility = true) as D13
    by (rewrite isDuplicate_same_coordinates by done; vm_compute; reflexivity).
  assert (isDuplicate kopiSusuFacility susuFacility = true) as D32
    by (rewrite isDuplicate_same_coordinates by done; vm_compute; reflexivity).
  assert (JS.ltb 8 10 = true) as L1 by (apply ltb_true; lra).
  assert (JS.ltb 10 8 = false) as L2 by (apply ltb_false; lra).
  assert (processFacilities [kopi; susu; kopiSusu] "market" 1 2 =
            [kopiSusuFacility; susuFacility]) as Hout;
    [| assert (dedupe [kopiSusuFacility; susuFacility] = [kopiSusuFacility]) as Hagain;
       [| rewrite Hout; split_and!; [done | exact D32 | exact Hagain | |] ] ].
  3: { intros [H _]. inversion H as [| ? ? [Hn _] _]; subst. by apply Hn. }
  3: { rewrite Hagain. discriminate. }
  - unfold processFacilities. cbn [imap].
    rewrite kopi_facility. cbn [compose imap].
    rewrite susu_facility, kopiSusu_facility.
    cbn [List.filter]. rewrite !withinMaxDistance_0 by done.
    unfold dedupe. cbn [fold_left].
    unfold dedupeStep at 3. cbn [JS.findIndex app].
    unfold dedupeStep at 2. cbn [JS.findIndex]. rewrite D12.
    cbn [fmap option_fmap option_map app].
    unfold dedupeStep. cbn [JS.findIndex]. rewrite D13.
    cbn [lookup list_lookup contribution kopiFacility kopiSusuFacility].
    rewrite L1. cbn [insert list_insert].
    unfold dedupeById, dedupeByIdStep. cbn. reflexivity.
  - unfold dedupe. cbn [fold_left].
    unfold dedupeStep at 2. cbn [JS.findIndex app].
    unfold dedupeStep. cbn [JS.findIndex]. rewrite D32.
    cbn [lookup list_lookup contribution susuFacility kopiSusuFacility].
    rewrite L2. reflexivity.
Qed.

Lemma sdNegeri_facility (i : N) (index : nat) :
  toFacility "education" 1 2 index (sdNegeri i) =
    {| id := "education-" +:+ idOrIndex (Some i) index; name := "SD Negeri 1";
       category := "education"; lng := 2; lat := 1; distance := 0;
       contribution := 10;
       tags := Some {[ "amenity" := "school"; "name" := "SD Negeri 1" ]} |}.
Proof. unfold sdNegeri. facility_at_origin. reflexivity. Qed.

(** The scenario of the specification: the same school twice on one
    spot collapses to one facility. *)
Lemma sdNegeri_collapses :
  processFacilities [sdNegeri 11; sdNegeri 12] "education" 1 2 =
    [ {| id := "education-11"; name := "SD Negeri 1"; category := "education";
         lng := 2; lat := 1; distance := 0; contribution := 10;
         tags := Some {[ "amenity" := "school"; "name" := "SD Negeri 1" ]} |} ].
Proof.
  unfold processFacilities. cbn [imap compose].
  rewrite !sdNegeri_facility.
  cbn [List.filter]. rewrite !withinMaxDistance_0 by done.
  unfold dedupe. cbn [fold_left].
  unfold dedupeStep at 2. cbn [JS.findIndex app].
  unfold dedupeStep. cbn [JS.findIndex].
  rewrite isDuplicate_same_coordinates by done.
  replace (nameSimilar _ _) with true by (vm_compute; reflexivity).
  cbn [lookup list_lookup contribution].
  replace (JS.ltb 10 10) with false by (symmetry; apply ltb_false; lra).
  unfold dedupeById, dedupeByIdStep. cbn. reflexivity.
Qed.

(** ** The accumulators *)

Lemma hasOwnProperty_true {V : Type} (obj : gmap string V) (key : string) :
  hasOwnProperty obj key = true ↔ is_Some (obj !! key).
Proof. unfold hasOwnProperty. by rewrite bool_decide_eq_true. Qed.

Lemma hasOwnProperty_false {V : Type} (obj : gmap string V) (key : string) :
  hasOwnProperty obj key = false ↔ ¬ is_Some (obj !! key).
Proof. unfold hasOwnProperty. by rewrite bool_decide_eq_false. Qed.

Lemma ownKeys_initial : ownKeys initialCounts.
Proof.
  intros c. unfold initialCounts.
  rewrite <- elem_of_dom, dom_list_to_map_L, elem_of_list_to_set, <- list_fmap_compose.
  rewrite list_elem_of_fmap. split.
  - by intros (k & -> & Hk).
  - intros Hc. by exists c.
Qed.

Lemma ownKeys_increment (counts : Counts) (key : string) :
  ownKeys counts → is_Some (counts !! key) → ownKeys (increment counts key).
Proof.
  intros H Hk c. unfold increment. rewrite <- (H c).
  destruct (decide (key = c)) as [-> | Hne].
  - rewrite lookup_insert_eq. split; [done | by eexists].
  - by rewrite lookup_insert_ne.
Qed.

Lemma count_increment (counts : Counts) (key k : string) :
  count (increment counts key) k =
    if decide (key = k) then S (count counts k) else count counts k.
Proof.
  unfold count, increment. destruct (decide (key = k)) as [-> | Hne].
  - by rewrite lookup_insert_eq.
  - by rewrite lookup_insert_ne.
Qed.

Lemma score_addScore (scores : Scores) (key k : string) (x : R) :
  score (addScore scores key x) k =
    if decide (key = k) then score scores k + x else score scores k.
Proof.
  unfold score, addScore. destruct (decide (key = k)) as [-> | Hne].
  - by rewrite lookup_insert_eq.
  - by rewrite lookup_insert_ne.
Qed.

Lemma score_initial (c : string) : score initialScores c = 0.
Proof. destruct (score_constant categories 0 c); done. Qed.

Lemma accumulate_ownKeys (acc : Counts * Scores) (f : Facility) :
  ownKeys acc.1 → ownKeys (accumulate acc f).1.
Proof.
  destruct acc as [counts scores]. intros H. unfold accumulate.
  destruct (hasOwnProperty counts (category f)) eqn:E; [| done].
  apply hasOwnProperty_true in E.
  repeat case_match; cbn; by apply ownKeys_increment.
Qed.

Lemma accumulateCustom_ownKeys (acc : Counts * Scores) (f : Facility) :
  ownKeys acc.1 → ownKeys (accumulateCustom acc f).1.
Proof.
  destruct acc as [counts scores]. intros H. unfold accumulateCustom.
  destruct (hasOwnProperty counts (category f)) eqn:E; [| done].
  apply hasOwnProperty_true in E. cbn. by apply ownKeys_increment.
Qed.

(** C5. A walkability facility adds a quarter of its contribution to
    the walkability sum; when its tags indicate lighting it adds the
    same amount to the safety sum, which is 2 and 2 for a contribution
    of 8; without lighting tags no other sum changes. *)
Theorem walkability_lighting_spillover (acc : Counts * Scores) (f : Facility) :
  ownKeys acc.1 →
  category f = "walkability" →
  let lighting :=
    tagIs (tags f) "highway" "street_lamp" || tagIs (tags f) "lit" "yes" in
  let reduced := contribution f * (25 / 100) in
  let sums := (accumulate acc f).2 in
  count (accumulate acc f).1 "walkability" = S (count acc.1 "walkability") ∧
  (lighting = true → contribution f = 8 →
     score sums "walkability" = score acc.2 "walkability" + 2 ∧
     score sums "safety" = score acc.2 "safety" + 2) ∧
  (lighting = true →
     score sums "walkability" = score acc.2 "walkability" + reduced ∧
     score sums "safety" = score acc.2 "safety" + reduced ∧
     ∀ k, k ≠ "walkability" → k ≠ "safety" → score sums k = score acc.2 k) ∧
  (lighting = false →
     score sums "walkability" = score acc.2 "walkability" + reduced ∧
     ∀ k, k ≠ "walkability" → score sums k = score acc.2 k).
Proof.
  destruct acc as [counts scores]. intros Hkeys Hcat lighting reduced sums.
  cbn [fst snd] in Hkeys |- *.
  assert (hasOwnProperty counts (category f) = true) as Hown.
  { apply hasOwnProperty_true, Hkeys. rewrite Hcat. compute_done. }
  assert (lighting = true →
          score sums "walkability" = score scores "walkability" + reduced ∧
          score sums "safety" = score scores "safety" + reduced ∧
          ∀ k, k ≠ "walkability" → k ≠ "safety" → score sums k = score scores k) as Hlit.
  { intros Hl. unfold sums, accumulate. rewrite Hown, Hcat.
    cbn [String.eqb Ascii.eqb Bool.eqb]. fold lighting. rewrite Hl. cbn [snd].
    fold reduced. split_and!.
    - rewrite !score_addScore. by repeat case_decide.
    - rewrite !score_addScore. by repeat case_decide.
    - intros k Hw Hs. rewrite !score_addScore. repeat case_decide; congruence. }
  split_and!.
  - unfold accumulate. rewrite Hown, Hcat. cbn [String.eqb Ascii.eqb Bool.eqb].
    destruct (_ || _); cbn [fst]; rewrite count_increment; by case_decide.
  - intros Hl H8. destruct (Hlit Hl) as (-> & -> & _). unfold reduced. rewrite H8. lra.
  - exact Hlit.
  - intros Hl. unfold sums, accumulate. rewrite Hown, Hcat.
    cbn [String.eqb Ascii.eqb Bool.eqb]. fold lighting. rewrite Hl. cbn [snd].
    fold reduced. split.
    + rewrite score_addScore. by case_decide.
    + intros k Hw. rewrite score_addScore. case_decide; congruence.
Qed.

Lemma walkability_lighting_spillover_lamp :
  ownKeys initialCounts ∧
  category lamp = "walkability" ∧
  score (accumulate (initialCounts, initialScores) lamp).2 "walkability" =
    score initialScores "walkability" + 2 ∧
  score (accumulate (initialCounts, initialScores) lamp).2 "safety" =
    score initialScores "safety" + 2.
Proof.
  split; [exact ownKeys_initial |]. split; [reflexivity |].
  exact (proj1 (proj2
    (walkability_lighting_spillover (initialCounts, initialScores) lamp
       ownKeys_initial eq_refl)) eq_refl eq_refl).
Defined.

(** ** Custom points of interest *)

(** [summarize] without pattern matching on pairs. *)
Lemma summarize_eq (results : list FetchResult) (allPOIs : list CustomPOI)
    (lat lng : R) (address : string) :
  let fetched := fold_left processResult results ([], (initialCounts, initialScores)) in
  let customFacilities :=
    toCustomFacility lat lng <$> getPOIsNearLocation allPOIs lat lng 1000 in
  let totals := fold_left accumulateCustom customFacilities fetched.2 in
  summarize results allPOIs lat lng address =
    ({| overall := overallScore (calculateSubScores totals.2 totals.1);
        subscores := calculateSubScores totals.2 totals.1;
        location := Some (mkLocation address (lng, lat));
        facilityCounts := totals.1 |},
     fetched.1 ++ customFacilities,
     totals.2).
Proof.
  intros fetched customFacilities totals. unfold summarize.
  fold fetched. destruct fetched as [allFacilities startTotals] eqn:E1.
  fold customFacilities. cbn [fst snd] in totals. fold totals.
  by destruct totals.
Qed.


Lemma calculateDistanceContributionOrNaN_number (d : R) (c : string) :
  c ∉ objectPrototypeNames →
  calculateDistanceContributionOrNaN d c = Some (calculateDistanceContribution d c).
Proof.
  intros H. unfold calculateDistanceContributionOrNaN, decayConfigMember.
  destruct (decayConfig c); [done |]. by rewrite bool_decide_eq_false_2.
Qed.

Lemma toCustomFacility_category (lat lng : R) (poi : CustomPOI) :
  category (toCustomFacility lat lng poi) =
    if String.eqb (poi_category poi) "custom" then "recreation"%string
    else poi_category poi.
Proof. reflexivity. Qed.

Lemma getPOIsNearLocation_elem (allPOIs : list CustomPOI) (lat lng radius : R)
    (poi : CustomPOI) :
  poi ∈ getPOIsNearLocation allPOIs lat lng radius ↔
  poi ∈ allPOIs ∧ calculateDistance lat lng (poi_lat poi) (poi_lng poi) <= radius.
Proof.
  unfold getPOIsNearLocation.
  rewrite !list_elem_of_In, filter_In, leb_true. done.
Qed.

Lemma processResult_ownKeys (acc : list Facility * (Counts * Scores)) (r : FetchResult) :
  ownKeys acc.2.1 → ownKeys (processResult acc r).2.1.
Proof.
  destruct acc as [all totals]. unfold processResult. cbn [snd].
  destruct (fr_status r); [| done]. cbn [snd].
  generalize (fr_facilities r). intros l. revert totals.
  induction l as [| f l IH]; intros totals H; [done |].
  cbn [fold_left]. apply IH. by apply accumulate_ownKeys.
Qed.

Lemma fetched_ownKeys (results : list FetchResult) :
  ownKeys (fold_left processResult results ([], (initialCounts, initialScores))).2.1.
Proof.
  assert (∀ acc, ownKeys acc.2.1 → ownKeys (fold_left processResult results acc).2.1) as H.
  { induction results as [| r results IH]; intros acc Hacc; [done |].
    cbn [fold_left]. apply IH. by apply processResult_ownKeys. }
  apply H. exact ownKeys_initial.
Qed.

Lemma custom_ownKeys (fs : list Facility) (acc : Counts * Scores) :
  ownKeys acc.1 → ownKeys (fold_left accumulateCustom fs acc).1.
Proof.
  revert acc. induction fs as [| f fs IH]; intros acc H; [done |].
  cbn [fold_left]. apply IH. by apply accumulateCustom_ownKeys.
Qed.


Lemma customSidewalk_facility :
  toCustomFacility 1 2 customSidewalk =
    {| id := "custom-1"; name := "Trotoar (Custom)"; category := "walkability";
       lng := 2; lat := 1; distance := 0; contribution := 12;
       tags := Some {[ "custom" := "true" ]} |}.
Proof.
  unfold toCustomFacility, customSidewalk. cbn [poi_id poi_name poi_category poi_lng poi_lat].
  rewrite calculateDistance_same, Math_round_0.
  rewrite contribution_at_origin by compute_done.
  reflexivity.
Qed.

(** C8, a counterexample. A custom walkability point on the origin has
    contribution 12, and the merge adds 12 to the walkability sum, where
    the accumulation of a fetched facility would add 3. *)
Lemma custom_walkability_not_dampened :
  getPOIsNearLocation [customSidewalk] 1 2 1000 = [customSidewalk] ∧
  category (toCustomFacility 1 2 customSidewalk) = "walkability" ∧
  contribution (toCustomFacility 1 2 customSidewalk) = 12 ∧
  score (summarize [] [customSidewalk] 1 2 "Jalan").2 "walkability" = 12 ∧
  score (accumulate (initialCounts, initialScores)
           (toCustomFacility 1 2 customSidewalk)).2 "walkability" = 3.
Proof.
  assert (getPOIsNearLocation [customSidewalk] 1 2 1000 = [customSidewalk]) as Hnear.
  { unfold getPOIsNearLocation. cbn [List.filter customSidewalk poi_lat poi_lng].
    rewrite calculateDistance_same.
    replace (JS.leb 0 1000) with true by (symmetry; apply leb_true; lra). done. }
  split_and!.
  - exact Hnear.
  - by rewrite customSidewalk_facility.
  - by rewrite customSidewalk_facility.
  - rewrite summarize_eq. cbn [snd]. rewrite Hnear. cbn [fmap list_fmap fold_left fst snd].
    rewrite customSidewalk_facility. unfold accumulateCustom. cbn [category contribution].
    replace (hasOwnProperty initialCounts "walkability") with true by (vm_compute; reflexivity).
    cbn [snd]. rewrite score_addScore, score_initial. case_decide; [lra | done].
  - rewrite customSidewalk_facility. unfold accumulate. cbn [category contribution tags].
    replace (hasOwnProperty initialCounts "walkability") with true by (vm_compute; reflexivity).
    cbn [String.eqb Ascii.eqb Bool.eqb].
    replace (tagIs _ "highway" "street_lamp" || tagIs _ "lit" "yes") with false
      by (vm_compute; reflexivity).
    cbn [snd]. rewrite score_addScore, score_initial. case_decide; [lra | done].
Qed.

Lemma getPOIsNearLocation_app (l1 l2 : list CustomPOI) (lat lng radius : R) :
  getPOIsNearLocation (l1 ++ l2) lat lng radius =
    getPOIsNearLocation l1 lat lng radius ++ getPOIsNearLocation l2 lat lng radius.
Proof. unfold getPOIsNearLocation. apply List.filter_app. Qed.

Lemma getPOIsNearLocation_cons (poi : CustomPOI) (l : list CustomPOI) (lat lng radius : R) :
  calculateDistance lat lng (poi_lat poi) (poi_lng poi) <= radius →
  getPOIsNearLocation (poi :: l) lat lng radius =
    poi :: getPOIsNearLocation l lat lng radius.
Proof.
  intros H. unfold getPOIsNearLocation. cbn [List.filter].
  apply leb_true in H. by rewrite H.
Qed.


(** ** The fetch orchestrator *)

Section Orchestrator.
Variable net : Network.
Variables lat lng : R.

Lemma fetchElements_failing (c : string) (i : nat) (w : World) :
  failing (net c i) → ∃ e, fetchElements net c i w = (inl e, w).
Proof.
  unfold fetchElements, failing. destruct (net c i) as [status els | message].
  - intros ->. by eexists.
  - intros _. by eexists.
Qed.

Lemma queryOverpassAPI_failing (c : string) (i : nat) (w : World) :
  cache w !! queryOf c = None → failing (net c i) →
  ∃ e, queryOverpassAPI net c i w = (inl e, w).
Proof.
  intros Hmiss Hfail. destruct (fetchElements_failing c i w Hfail) as [e He].
  exists e. unfold queryOverpassAPI, bind, getCached. by rewrite Hmiss, He.
Qed.

(** A query touches no cache entry but its own. *)
Lemma queryOverpassAPI_cache (c : string) (i : nat) (w w' : World) r (q : string) :
  queryOverpassAPI net c i w = (r, w') → queryOf c ≠ q →
  cache w' !! q = cache w !! q.
Proof.
  unfold queryOverpassAPI, bind, getCached, fetchElements, setCached, ret, throw.
  intros H Hq.
  destruct (cache w !! queryOf c); [by simplify_eq |].
  destruct (net c i) as [status els | message]; [| by simplify_eq].
  destruct (ok status); simplify_eq; [| done].
  cbn. by rewrite lookup_insert_ne.
Qed.

Lemma retryLoop_failing (c : string) (retries n i : nat) (w : World) :
  cache w !! queryOf c = None →
  (i + n = retries)%nat →
  (∀ j, (i <= j <= retries)%nat → failing (net c j)) →
  ∃ e w', retryLoop net c lat lng retries (S n) i w = (inl e, w') ∧
          cache w' = cache w.
Proof.
  revert i w. induction n as [| n IH]; intros i w Hmiss Hi Hfail.
  - destruct (queryOverpassAPI_failing c i w Hmiss) as [e He]; [apply Hfail; lia |].
    exists e, w. split; [| done].
    cbn [retryLoop]. unfold tryCatch, bind at 1. rewrite He.
    replace (i =? retries)%nat with true by (symmetry; apply Nat.eqb_eq; lia).
    done.
  - destruct (queryOverpassAPI_failing c i w Hmiss) as [e He]; [apply Hfail; lia |].
    set (w1 := snd (delay (if JS.includes e "429" then 5000%nat else (2000 * (i + 1))%nat) w)).
    destruct (IH (S i) w1) as (e' & w' & Hrun & Hcache); [done | lia | intros j Hj; apply Hfail; lia |].
    exists e', w'. split; [| done].
    remember (S n) as m. cbn [retryLoop]. unfold tryCatch, bind at 1. rewrite He.
    replace (i =? retries)%nat with false by (symmetry; apply Nat.eqb_neq; lia).
    unfold bind, delay. by subst m.
Qed.

Lemma retryLoop_cache (c : string) (retries n i : nat) (w w' : World) r (q : string) :
  retryLoop net c lat lng retries n i w = (r, w') → queryOf c ≠ q →
  cache w' !! q = cache w !! q.
Proof.
  revert i w. induction n as [| n IH]; intros i w H Hq.
  - cbn in H. unfold ret in H. by simplify_eq.
  - cbn [retryLoop] in H. unfold tryCatch, bind at 1 in H.
    destruct (queryOverpassAPI net c i w) as [[e | els] w1] eqn:E.
    + pose proof (queryOverpassAPI_cache _ _ _ _ _ _ E Hq) as H1.
      destruct (i =? retries)%nat.
      * unfold throw in H. by simplify_eq.
      * unfold bind, delay in H. apply IH in H; [| done]. by rewrite H.
    + unfold ret in H. simplify_eq. by eapply queryOverpassAPI_cache.
Qed.

Lemma retryLoop_category (c : string) (retries n i : nat) (w w' : World) r :
  retryLoop net c lat lng retries n i w = (inr r, w') → fr_category r = c.
Proof.
  revert i w. induction n as [| n IH]; intros i w H.
  - cbn in H. unfold ret in H. by simplify_eq.
  - cbn [retryLoop] in H. unfold tryCatch, bind at 1 in H.
    destruct (queryOverpassAPI net c i w) as [[e | els] w1].
    + destruct (i =? retries)%nat; [unfold throw in H; by simplify_eq |].
      unfold bind, delay in H. by apply IH in H.
    + unfold ret in H. by simplify_eq.
Qed.

Lemma fetchCategoryWithRetry_failing (c : string) (retries : nat) (w : World) :
  cache w !! queryOf c = None →
  (∀ j, (j <= retries)%nat → failing (net c j)) →
  ∃ e w', fetchCategoryWithRetry net c lat lng retries w = (inl e, w') ∧
          cache w' = cache w.
Proof.
  intros Hmiss Hfail. unfold fetchCategoryWithRetry, bind, getCached. rewrite Hmiss.
  apply retryLoop_failing; [done | lia | intros j Hj; apply Hfail; lia].
Qed.

Lemma fetchCategoryWithRetry_cache (c : string) (retries : nat) (w w' : World) r
    (q : string) :
  fetchCategoryWithRetry net c lat lng retries w = (r, w') → queryOf c ≠ q →
  cache w' !! q = cache w !! q.
Proof.
  unfold fetchCategoryWithRetry, bind, getCached. intros H Hq.
  destruct (cache w !! queryOf c).
  - unfold ret in H. by simplify_eq.
  - by eapply retryLoop_cache.
Qed.

Lemma fetchCategoryWithRetry_category (c : string) (retries : nat) (w w' : World) r :
  fetchCategoryWithRetry net c lat lng retries w = (inr r, w') → fr_category r = c.
Proof.
  unfold fetchCategoryWithRetry, bind, getCached. intros H.
  destruct (cache w !! queryOf c).
  - unfold ret in H. by simplify_eq.
  - by eapply retryLoop_category.
Qed.

Lemma fetchAll_cons (c : string) (cats : list string) (results : list FetchResult) :
  fetchAll net lat lng (c :: cats) results =
    bind (fetchOne net lat lng c results) (fetchAll net lat lng cats).
Proof. reflexivity. Qed.

Lemma fetchOne_spec (c : string) (results : list FetchResult) (w : World) :
  ∃ r w', fetchOne net lat lng c results w = (inr (results ++ [r]), w') ∧
          fr_category r = c ∧
          (∀ q, queryOf c ≠ q → cache w' !! q = cache w !! q) ∧
          (cache w !! queryOf c = None →
           (∀ j, (j <= 3)%nat → failing (net c j)) →
           fr_facilities r = [] ∧ fr_status r = fulfilled ∧ cache w' = cache w).
Proof.
  unfold fetchOne, tryCatch, bind at 1.
  destruct (fetchCategoryWithRetry net c lat lng 3 w) as [[e | r] w1] eqn:E.
  - eexists _, w1. split_and!; [done | done | |].
    + intros q Hq. by eapply fetchCategoryWithRetry_cache.
    + intros Hmiss Hfail.
      destruct (fetchCategoryWithRetry_failing c 3 w Hmiss Hfail) as (e' & w' & E' & Hc).
      rewrite E in E'. by simplify_eq.
  - pose proof (fetchCategoryWithRetry_category _ _ _ _ _ E) as Hcat.
    assert (∀ q, queryOf c ≠ q → cache w1 !! q = cache w !! q) as Hcache
      by (intros q Hq; by eapply fetchCategoryWithRetry_cache).
    assert (cache w !! queryOf c = None →
            (∀ j, (j <= 3)%nat → failing (net c j)) → False) as Hno.
    { intros Hmiss Hfail.
      destruct (fetchCategoryWithRetry_failing c 3 w Hmiss Hfail) as (e' & w' & E' & Hc).
      rewrite E in E'. by simplify_eq. }
    destruct (negb (default false (fr_fromCache r)));
      unfold bind, delay, ret; eexists r, _; (split_and!; [done | done | done | tauto]).
Qed.

Lemma fetchAll_spec (cats : list string) : ∀ (results : list FetchResult) (w : World),
  ∃ new w', fetchAll net lat lng cats results w = (inr (results ++ new), w') ∧
            fr_category <$> new = cats.
Proof.
  induction cats as [| c cats IH]; intros results w.
  - exists [], w. by rewrite app_nil_r.
  - destruct (fetchOne_spec c results w) as (r & w1 & E & Hcat & _).
    destruct (IH (results ++ [r]) w1) as (new & w' & E' & Hcats).
    exists (r :: new), w'. rewrite fetchAll_cons. unfold bind. rewrite E, E'.
    rewrite <- app_assoc. split; [done |]. cbn. by rewrite Hcat, Hcats.
Qed.



Lemma fetchAll_app (l1 l2 : list string) (results : list FetchResult) (w : World) :
  fetchAll net lat lng (l1 ++ l2) results w =
    bind (fetchAll net lat lng l1 results) (fetchAll net lat lng l2) w.
Proof.
  revert results w. induction l1 as [| c l1 IH]; intros results w; [done |].
  cbn [app]. rewrite !fetchAll_cons. unfold bind.
  destruct (fetchOne net lat lng c results w) as [[e | r] w1]; [done |].
  rewrite IH. done.
Qed.

End Orchestrator.

(** Results without facilities can be left out of the accumulation. *)
Lemma processResult_empty (acc : list Facility * (Counts * Scores)) (r : FetchResult) :
  fr_facilities r = [] → processResult acc r = acc.
Proof.
  intros H. destruct acc as [all totals]. unfold processResult.
  destruct (fr_status r); [| done]. rewrite H. cbn. by rewrite app_nil_r.
Qed.









(** Whatever the network and the cache do, the run returns a result. *)
Lemma calculateLivabilityScore_returns (net : Network) (allPOIs : list CustomPOI)
    (lat lng : R) (address : string) (w : World) :
  ∃ results w',
    calculateLivabilityScore net allPOIs lat lng address w =
      (inr (summarize results allPOIs lat lng address), w').
Proof.
  destruct (fetchAll_spec net lat lng categories [] w) as (new & w' & E & _).
  exists new, w'. unfold calculateLivabilityScore, bind. by rewrite E.
Qed.


(** ** Cache keys *)

Lemma FACILITY_DISTANCES_default (c : string) :
  default 1000%nat (Cache.FACILITY_DISTANCES c) = 1000%nat.
Proof. unfold Cache.FACILITY_DISTANCES. by case_bool_decide. Qed.

(** The query of a category is the query of the entry of the table that
    the category selects; accessibility sends the health query. *)
Lemma generateOverpassQuery_queryOf (c : string) :
  Cache.generateOverpassQuery c = Cache.generateOverpassQuery (queryOf c).
Proof.
  unfold Cache.generateOverpassQuery. rewrite !FACILITY_DISTANCES_default.
  f_equal. unfold queryOf. case_bool_decide as H; [done |].
  assert (Cache.queries c = None) as ->; [| done].
  unfold Cache.queries.
  repeat match goal with
         | |- context [String.eqb c ?k] =>
             destruct (String.eqb_spec c k) as [-> | _];
             [exfalso; apply H; compute_done | cbv iota]
         end.
  done.
Qed.

(** For one data type, the key of [cacheLocationData] depends on the
    origin through its coordinates rounded to three decimals only. *)
Lemma locationKey_rounded (lat1 lng1 lat2 lng2 : Cache.Coord) (dataType : string) :
  Cache.toFixed3 lat1 = Cache.toFixed3 lat2 →
  Cache.toFixed3 lng1 = Cache.toFixed3 lng2 →
  Cache.locationKey lat1 lng1 dataType = Cache.locationKey lat2 lng2 dataType.
Proof. intros H1 H2. unfold Cache.locationKey. by rewrite H1, H2. Qed.

(** C9, at a failing input. Two origins whose latitudes -6.2001 and
    -6.2002 round to the same three decimals, at one longitude, get
    different cache keys for the health query: the rounded coordinates
    in the key agree, but the data type of the key is the hash of the
    query text, into which the coordinates are written as they print,
    unrounded. *)
Theorem nearby_requests_use_different_keys :
  Cache.toFixed3 (-6200100)%Z = Some "-6.200"%string ∧
  Cache.toFixed3 (-6200200)%Z = Some "-6.200"%string ∧
  Cache.toString (-6200100)%Z = "-6.2001"%string ∧
  Cache.toString (-6200200)%Z = "-6.2002"%string ∧
  Cache.overpassKey "health" (-6200100)%Z 106816600%Z =
    Some "location-overpass-269094559:lat:-6.200|lng:106.817"%string ∧
  Cache.overpassKey "health" (-6200200)%Z 106816600%Z =
    Some "location-overpass-1783858399:lat:-6.200|lng:106.817"%string ∧
  Cache.overpassKey "health" (-6200100)%Z 106816600%Z ≠
    Cache.overpassKey "health" (-6200200)%Z 106816600%Z.
Proof.
  split_and!; try (vm_compute; reflexivity).
  vm_compute. discriminate.
Qed.

(** * Further properties *)

(** ** Further properties of the distance *)

Lemma Math_atan2_quadrant (y x : R) :
  0 <= y → 0 <= x → 0 <= JS.Math_atan2 y x <= PI / 2.
Proof.
  intros Hy Hx. unfold JS.Math_atan2. pose proof PI_RGT_0 as Hpi.
  destruct (Rlt_dec 0 x) as [Hpos | Hnpos].
  - pose proof (atan_bound (y / x)) as [_ Hub].
    assert (0 <= y / x) as Hq
      by (unfold Rdiv; apply Rmult_le_pos; [lra | left; apply Rinv_0_lt_compat; lra]).
    destruct Hq as [Hq | <-].
    + pose proof (atan_increasing 0 (y / x) Hq) as Hinc. rewrite atan_0 in Hinc. lra.
    + rewrite atan_0. lra.
  - destruct (Rlt_dec x 0); [lra |].
    destruct (Rlt_dec 0 y); [lra |].
    destruct (Rlt_dec y 0); lra.
Qed.

(** X1. The distance does not depend on the order of the two points, is
    zero between a point and itself, and lies between zero and half the
    circumference of the sphere of radius 6371000 m. *)
Theorem distance_symmetric_and_bounded (lat1 lng1 lat2 lng2 : R) :
  calculateDistance lat1 lng1 lat2 lng2 = calculateDistance lat2 lng2 lat1 lng1 ∧
  calculateDistance lat1 lng1 lat1 lng1 = 0 ∧
  0 <= calculateDistance lat1 lng1 lat2 lng2 <= 6371000 * PI.
Proof.
  split; [apply calculateDistance_sym |]. split; [apply calculateDistance_same |].
  unfold calculateDistance. cbv zeta.
  match goal with
  | |- context [JS.Math_atan2 (sqrt ?a) (sqrt ?b)] =>
      pose proof (Math_atan2_quadrant (sqrt a) (sqrt b) (sqrt_pos a) (sqrt_pos b))
  end.
  lra.
Qed.

Lemma calculateDistance_equator (lng1 lng2 : R) :
  0 <= lng2 - lng1 < 180 →
  calculateDistance 0 lng1 0 lng2 = 6371000 * ((lng2 - lng1) * PI / 180).
Proof.
  intros H. unfold calculateDistance. cbv zeta.
  pose proof PI_RGT_0 as Hpi.
  set (t := (lng2 - lng1) * PI / 180 / 2).
  assert (0 <= t < PI / 2) as Ht by (unfold t; split; nra).
  replace ((0 - 0) * PI / 180 / 2) with 0 by lra.
  replace (0 * PI / 180) with 0 by lra.
  rewrite sin_0, cos_0, !Rmult_0_l, Rplus_0_l, !Rmult_1_l.
  pose proof (sin_ge_0 t ltac:(lra) ltac:(lra)) as Hs.
  pose proof (cos_gt_0 t ltac:(lra) ltac:(lra)) as Hc.
  rewrite sqrt_square by done.
  replace (1 - sin t * sin t) with (cos t * cos t)
    by (pose proof (sin2_cos2 t) as E; unfold Rsqr in E; lra).
  rewrite sqrt_square by lra.
  rewrite Math_atan2_sin_cos by lra.
  unfold t. lra.
Qed.

(** X2. Along a meridian, and along the equator, the distance between
    two points less than 180 degrees apart is the length of the arc
    between them: the radius times the difference in radians. *)
Theorem distance_is_arc_length (a b c : R) :
  Rabs (b - a) < 180 →
  calculateDistance a c b c = 6371000 * (Rabs (b - a) * PI / 180) ∧
  calculateDistance 0 a 0 b = 6371000 * (Rabs (b - a) * PI / 180).
Proof.
  intros H. unfold Rabs in *. destruct (Rcase_abs (b - a)) as [Hneg | Hpos].
  - rewrite (calculateDistance_sym a c b c), (calculateDistance_sym 0 a 0 b).
    rewrite calculateDistance_meridian, calculateDistance_equator by lra.
    split; f_equal; lra.
  - rewrite calculateDistance_meridian, calculateDistance_equator by lra. done.
Qed.

Lemma distance_is_arc_length_one_degree :
  Rabs (1 - 0) < 180 ∧
  calculateDistance 0 7 1 7 = 6371000 * (Rabs (1 - 0) * PI / 180).
Proof.
  assert (Rabs (1 - 0) < 180) as H
    by (rewrite Rabs_right; lra).
  split; [exact H |]. exact (proj1 (distance_is_arc_length 0 1 7 H)).
Defined.

(** ** Further properties of the classifier *)

Lemma classify_cases (tags : option Tags) (bucket : string) :
  classify tags bucket ∈ categories ∨ classify tags bucket = bucket.
Proof.
  unfold classify. repeat (case_match; [left; compute_done |]). by right.
Qed.

(** X3. The classifier returns one of the ten categories or the query
    bucket it was given, so a bucket among the ten is never left; an
    element without tags, or with an empty tag object, keeps the
    bucket. *)
Theorem classify_range (tags : option Tags) (bucket : string) :
  (classify tags bucket ∈ categories ∨ classify tags bucket = bucket) ∧
  (bucket ∈ categories → classify tags bucket ∈ categories) ∧
  classify None bucket = bucket ∧
  classify (Some ∅) bucket = bucket.
Proof.
  split; [apply classify_cases |]. split; [| by split].
  intros H. by destruct (classify_cases tags bucket) as [? | ->].
Qed.

(** ** Further properties of the facility processor *)

Lemma contribution_nonneg (d : R) (c : string) : 0 <= calculateDistanceContribution d c.
Proof.
  unfold calculateDistanceContribution, JS.Math_max.
  destruct (JS.ltb _ d); [lra |].
  assert (0 < maxContribution (configOf c)) as Hm.
  { unfold configOf. destruct (decayConfig c) as [cfg |] eqn:E; [| cbn; lra].
    unfold decayConfig in E. repeat case_match; simplify_eq; cbn; lra. }
  match goal with |- 0 <= Rmax ?a ?b => pose proof (Rmax_r a b) end. lra.
Qed.

(** *** What the two passes keep *)

Lemma dedupeStep_elem (acc : list Facility) (f g : Facility) :
  g ∈ dedupeStep acc f → g ∈ acc ∨ g = f.
Proof.
  unfold dedupeStep. destruct (JS.findIndex _ acc) as [i |].
  - destruct (acc !! i) as [e |] eqn:Hi; [| by left].
    destruct (JS.ltb _ _); [| by left].
    intros Hg. apply list_elem_of_lookup in Hg as [j Hj].
    destruct (decide (i = j)) as [-> | Hne].
    + rewrite list_lookup_insert_eq in Hj by (by eapply lookup_lt_Some).
      right. congruence.
    + rewrite list_lookup_insert_ne in Hj by done.
      left. by eapply list_elem_of_lookup_2.
  - rewrite elem_of_app, list_elem_of_singleton. tauto.
Qed.

Lemma dedupeStep_length (acc : list Facility) (f : Facility) :
  (length (dedupeStep acc f) <= S (length acc))%nat.
Proof.
  unfold dedupeStep. repeat case_match; rewrite ?length_insert, ?length_app; cbn; lia.
Qed.

Lemma dedupe_fold_elem (l : list Facility) : ∀ acc g,
  g ∈ fold_left dedupeStep l acc → g ∈ acc ∨ g ∈ l.
Proof.
  induction l as [| f l IH]; intros acc g; cbn [fold_left]; [by left |].
  intros Hg. apply IH in Hg as [Hg | Hg]; [| right; by right].
  apply dedupeStep_elem in Hg as [Hg | ->]; [by left | right; by left].
Qed.

Lemma dedupe_fold_length (l : list Facility) : ∀ acc,
  (length (fold_left dedupeStep l acc) <= length acc + length l)%nat.
Proof.
  induction l as [| f l IH]; intros acc; cbn [fold_left length]; [lia |].
  pose proof (IH (dedupeStep acc f)). pose proof (dedupeStep_length acc f). lia.
Qed.

Lemma dedupeById_fold_elem (l : list Facility) : ∀ acc g,
  g ∈ fold_left dedupeByIdStep l acc → g ∈ acc ∨ g ∈ l.
Proof.
  induction l as [| f l IH]; intros acc g; cbn [fold_left]; [by left |].
  intros Hg. apply IH in Hg as [Hg | Hg]; [| right; by right].
  unfold dedupeByIdStep in Hg. destruct (JS.findIndex _ acc); [by left |].
  apply elem_of_app in Hg as [Hg | Hg]; [by left |].
  apply list_elem_of_singleton in Hg as ->. right; by left.
Qed.

Lemma dedupeById_fold_length (l : list Facility) : ∀ acc,
  (length (fold_left dedupeByIdStep l acc) <= length acc + length l)%nat.
Proof.
  induction l as [| f l IH]; intros acc; cbn [fold_left length]; [lia |].
  pose proof (IH (dedupeByIdStep acc f)) as H.
  unfold dedupeByIdStep in *. destruct (JS.findIndex _ acc);
    rewrite ?length_app in H; cbn in H; lia.
Qed.

Lemma dedupeById_fold_NoDup (l : list Facility) : ∀ acc,
  NoDup (id <$> acc) → NoDup (id <$> fold_left dedupeByIdStep l acc).
Proof.
  induction l as [| f l IH]; intros acc H; cbn [fold_left]; [done |].
  apply IH. unfold dedupeByIdStep.
  destruct (JS.findIndex _ acc) eqn:E; [done |].
  apply findIndex_None in E.
  rewrite fmap_app. apply NoDup_app. split_and!; [done | | apply NoDup_singleton].
  intros i Hi Hf. apply list_elem_of_singleton in Hf as ->.
  apply list_elem_of_fmap in Hi as (e & He & Hin).
  rewrite Forall_forall in E. specialize (E e Hin).
  apply String.eqb_neq in E. congruence.
Qed.

(** Every facility of the output is made from one of the elements. *)
Lemma processFacilities_elem (elements : list Element) (bucket : string)
    (userLat userLng : R) (f : Facility) :
  f ∈ processFacilities elements bucket userLat userLng →
  ∃ index element,
    elements !! index = Some element ∧
    f = toFacility bucket userLat userLng index element ∧
    withinMaxDistance f = true.
Proof.
  unfold processFacilities, dedupeById, dedupe. intros Hf.
  apply dedupeById_fold_elem in Hf as [Hf | Hf]; [by apply elem_of_nil in Hf |].
  apply dedupe_fold_elem in Hf as [Hf | Hf]; [by apply elem_of_nil in Hf |].
  apply list_elem_of_In, filter_In in Hf as [Hf Hw].
  apply list_elem_of_In, elem_of_lookup_imap in Hf as (i & e & -> & Hi).
  by exists i, e.
Qed.

(** X4. No two facilities of the list that [processFacilities] returns
    have the same [id], and the list is no longer than the list of
    elements. *)
Theorem processFacilities_ids_unique (elements : list Element) (bucket : string)
    (userLat userLng : R) :
  NoDup (id <$> processFacilities elements bucket userLat userLng) ∧
  (length (processFacilities elements bucket userLat userLng) <= length elements)%nat.
Proof.
  split.
  - apply (dedupeById_fold_NoDup _ []). constructor.
  - unfold processFacilities, dedupeById, dedupe.
    etrans; [apply dedupeById_fold_length |]. cbn [length plus].
    etrans; [apply dedupe_fold_length |]. cbn [length plus].
    rewrite <- (length_imap (toFacility bucket userLat userLng) elements).
    apply List.filter_length_le.
Qed.

(** X5. Every facility that [processFacilities] returns is the facility
    made from one of the elements at its index; its rounded distance is
    at most 1000, so that it lies less than 1000.5 m from the origin;
    its contribution is not negative; and its category is one of the ten
    or the bucket. *)
Theorem processFacilities_facilities (elements : list Element) (bucket : string)
    (userLat userLng : R) (f : Facility) :
  f ∈ processFacilities elements bucket userLat userLng →
  (∃ index element,
     elements !! index = Some element ∧
     f = toFacility bucket userLat userLng index element) ∧
  distance f <= 1000 ∧
  calculateDistance userLat userLng (lat f) (lng f) < 1000 + / 2 ∧
  0 <= contribution f ∧
  (category f ∈ categories ∨ category f = bucket).
Proof.
  intros Hf. apply processFacilities_elem in Hf as (i & e & Hi & -> & Hw).
  unfold withinMaxDistance in Hw. apply leb_true in Hw.
  rewrite filterMaxDistance_1000 in Hw.
  split; [by eauto |]. split; [done |]. split; [| split].
  - cbn [distance toFacility lat lng] in *.
    match goal with
    | |- ?d < _ => pose proof (Math_round_bounds d)
    end. lra.
  - apply contribution_nonneg.
  - cbn [category toFacility]. apply classify_cases.
Qed.

Lemma processFacilities_facilities_kopiSusu :
  kopiSusuFacility ∈ processFacilities [kopi; susu; kopiSusu] "market" 1 2 ∧
  distance kopiSusuFacility <= 1000 ∧
  0 <= contribution kopiSusuFacility.
Proof.
  assert (kopiSusuFacility ∈ processFacilities [kopi; susu; kopiSusu] "market" 1 2) as H.
  { assert (processFacilities [kopi; susu; kopiSusu] "market" 1 2 =
              [kopiSusuFacility; susuFacility]) as ->; [| by left].
    unfold processFacilities. cbn [imap].
    rewrite kopi_facility. cbn [compose imap].
    rewrite susu_facility, kopiSusu_facility.
    cbn [List.filter]. rewrite !withinMaxDistance_0 by done.
    unfold dedupe. cbn [fold_left].
    unfold dedupeStep at 3. cbn [JS.findIndex app].
    unfold dedupeStep at 2. cbn [JS.findIndex].
    replace (isDuplicate kopiFacility susuFacility) with false
      by (rewrite isDuplicate_same_coordinates by done; vm_compute; reflexivity).
    cbn [fmap option_fmap option_map app].
    unfold dedupeStep. cbn [JS.findIndex].
    replace (isDuplicate kopiFacility kopiSusuFacility) with true
      by (rewrite isDuplicate_same_coordinates by done; vm_compute; reflexivity).
    cbn [lookup list_lookup contribution kopiFacility kopiSusuFacility].
    replace (JS.ltb 8 10) with true by (symmetry; apply ltb_true; lra).
    cbn [insert list_insert].
    unfold dedupeById, dedupeByIdStep. cbn. reflexivity. }
  split; [exact H |].
  pose proof (processFacilities_facilities [kopi; susu; kopiSusu] "market" 1 2
                kopiSusuFacility H) as T.
  split; [exact (proj1 (proj2 T)) | exact (proj1 (proj2 (proj2 (proj2 T))))].
Defined.

Lemma countOf_app (c : string) (l1 l2 : list Facility) :
  countOf c (l1 ++ l2) = (countOf c l1 + countOf c l2)%nat.
Proof. unfold countOf. by rewrite filter_app, length_app. Qed.

Lemma countOf_cons (c : string) (f : Facility) (l : list Facility) :
  countOf c (f :: l) = ((if decide (category f = c) then 1 else 0) + countOf c l)%nat.
Proof. unfold countOf. rewrite filter_cons. by case_decide. Qed.

Lemma accumulate_count (acc : Counts * Scores) (f : Facility) (c : string) :
  ownKeys acc.1 → c ∈ categories →
  count (accumulate acc f).1 c =
    ((if decide (category f = c) then 1 else 0) + count acc.1 c)%nat.
Proof.
  destruct acc as [counts scores]. cbn [fst]. intros Hkeys Hc. unfold accumulate.
  destruct (hasOwnProperty counts (category f)) eqn:E.
  - assert (count (increment counts (category f)) c =
            ((if decide (category f = c) then 1 else 0) + count counts c)%nat) as Hinc
      by (rewrite count_increment; by case_decide).
    by repeat case_match.
  - apply hasOwnProperty_false in E. rewrite (Hkeys (category f)) in E.
    cbn [fst]. case_decide; [by subst | done].
Qed.

Lemma accumulateCustom_count (acc : Counts * Scores) (f : Facility) (c : string) :
  ownKeys acc.1 → c ∈ categories →
  count (accumulateCustom acc f).1 c =
    ((if decide (category f = c) then 1 else 0) + count acc.1 c)%nat.
Proof.
  destruct acc as [counts scores]. cbn [fst]. intros Hkeys Hc. unfold accumulateCustom.
  destruct (hasOwnProperty counts (category f)) eqn:E; cbn [fst].
  - rewrite count_increment. by case_decide.
  - apply hasOwnProperty_false in E. rewrite (Hkeys (category f)) in E.
    case_decide; [by subst | done].
Qed.

Lemma fold_accumulate_ownKeys (l : list Facility) (acc : Counts * Scores) :
  ownKeys acc.1 → ownKeys (fold_left accumulate l acc).1.
Proof.
  revert acc. induction l as [| f l IH]; intros acc H; [done |].
  cbn [fold_left]. apply IH. by apply accumulate_ownKeys.
Qed.

Lemma fold_accumulate_count (l : list Facility) (c : string) : ∀ acc,
  ownKeys acc.1 → c ∈ categories →
  count (fold_left accumulate l acc).1 c = (countOf c l + count acc.1 c)%nat.
Proof.
  induction l as [| f l IH]; intros acc Hkeys Hc; [done |].
  cbn [fold_left]. rewrite IH, accumulate_count, countOf_cons by
    (done || by apply accumulate_ownKeys). lia.
Qed.

Lemma fold_accumulateCustom_count (l : list Facility) (c : string) : ∀ acc,
  ownKeys acc.1 → c ∈ categories →
  count (fold_left accumulateCustom l acc).1 c = (countOf c l + count acc.1 c)%nat.
Proof.
  induction l as [| f l IH]; intros acc Hkeys Hc; [done |].
  cbn [fold_left]. rewrite IH, accumulateCustom_count, countOf_cons by
    (done || by apply accumulateCustom_ownKeys). lia.
Qed.

Lemma fold_processResult_count (results : list FetchResult) (c : string) : ∀ acc,
  ownKeys acc.2.1 → c ∈ categories →
  (count (fold_left processResult results acc).2.1 c + countOf c acc.1 =
   countOf c (fold_left processResult results acc).1 + count acc.2.1 c)%nat.
Proof.
  induction results as [| r results IH]; intros acc Hkeys Hc; [cbn; lia |].
  cbn [fold_left].
  specialize (IH (processResult acc r) (processResult_ownKeys acc r Hkeys) Hc).
  destruct acc as [all totals]. unfold processResult in *. cbn [fst snd] in *.
  destruct (fr_status r); [| done]. cbn [fst snd] in IH.
  rewrite fold_accumulate_count, countOf_app in IH by done. lia.
Qed.

Lemma count_initial (c : string) : count initialCounts c = 0%nat.
Proof.
  unfold count. destruct (initialCounts !! c) as [n |] eqn:E; [| done].
  apply elem_of_list_to_map_2, list_elem_of_fmap in E as (k & [= -> ->] & _). done.
Qed.

(** X6. In what [calculateLivabilityScore] returns, the count of each of
    the ten categories is the number of facilities of that category in
    the returned list, fetched and custom ones together. *)
Theorem facility_counts_match_facilities (results : list FetchResult)
    (allPOIs : list CustomPOI) (lat lng : R) (address : string) (c : string) :
  c ∈ categories →
  count (facilityCounts (summarize results allPOIs lat lng address).1.1) c =
    countOf c (summarize results allPOIs lat lng address).1.2.
Proof.
  intros Hc. rewrite summarize_eq. cbn [facilityCounts fst snd].
  rewrite fold_accumulateCustom_count, countOf_app by (done || apply fetched_ownKeys).
  pose proof (fold_processResult_count results c ([], (initialCounts, initialScores))
                ownKeys_initial Hc) as H.
  cbn [fst snd] in H. rewrite count_initial in H.
  change (countOf c []) with 0%nat in H. lia.
Qed.

Lemma facility_counts_match_facilities_park :
  "recreation" ∈ categories ∧
  count (facilityCounts (summarize [] [customPark] 1 2 "Jalan").1.1) "recreation" =
    countOf "recreation" (summarize [] [customPark] 1 2 "Jalan").1.2.
Proof.
  assert ("recreation" ∈ categories) as H by compute_done.
  split; [exact H |].
  exact (facility_counts_match_facilities [] [customPark] 1 2 "Jalan" "recreation" H).
Defined.

(** *** Sums and scores of a run *)

Lemma addScore_nonnegative (scores : Scores) (key : string) (x : R) :
  nonnegative scores → 0 <= x → nonnegative (addScore scores key x).
Proof.
  intros H Hx c. rewrite score_addScore. specialize (H c). case_decide; lra.
Qed.

Lemma accumulate_nonnegative (acc : Counts * Scores) (f : Facility) :
  nonnegative acc.2 → 0 <= contribution f → nonnegative (accumulate acc f).2.
Proof.
  destruct acc as [counts scores]. cbn [snd]. intros H Hf. unfold accumulate.
  repeat case_match; cbn [snd]; try done;
    repeat apply addScore_nonnegative; try done; lra.
Qed.

Lemma accumulateCustom_nonnegative (acc : Counts * Scores) (f : Facility) :
  nonnegative acc.2 → 0 <= contribution f → nonnegative (accumulateCustom acc f).2.
Proof.
  destruct acc as [counts scores]. cbn [snd]. intros H Hf. unfold accumulateCustom.
  case_match; cbn [snd]; [by apply addScore_nonnegative | done].
Qed.

Lemma calculateSubScores_bounds (scores : Scores) (counts : Counts) :
  nonnegative scores →
  let s := calculateSubScores scores counts in
  0 <= services s <= 100 ∧ 0 <= mobility s <= 100 ∧
  0 <= safety s <= 100 ∧ 0 <= environment s <= 100 ∧
  0 <= overallScore s <= 100.
Proof.
  intros Hpos s.
  pose proof (Hpos "health"). pose proof (Hpos "education").
  pose proof (Hpos "market"). pose proof (Hpos "religious").
  pose proof (Hpos "transport"). pose proof (Hpos "walkability").
  pose proof (Hpos "safety"). pose proof (Hpos "police").
  pose proof (Hpos "accessibility"). pose proof (Hpos "recreation").
  assert (0 <= services s <= 100) by (apply cap_bounds; nra).
  assert (0 <= mobility s <= 100) by (apply cap_bounds; nra).
  assert (0 <= safety s <= 100) by (apply cap_bounds; nra).
  assert (0 <= environment s <= 100) by (apply cap_bounds; nra).
  split_and!; try done; unfold overallScore; lra.
Qed.

Section Retry.
Variable net : Network.
Variables lat lng : R.

Lemma queryOverpassAPI_throws (c : string) (i : nat) (w : World) :
  cache w !! queryOf c = None → failing (net c i) →
  queryOverpassAPI net c i w = (inl (errorOf (net c i)), w).
Proof.
  intros Hmiss Hfail. unfold queryOverpassAPI, bind, getCached. rewrite Hmiss.
  unfold fetchElements, errorOf, failing in *.
  destruct (net c i) as [status els | message]; [by rewrite Hfail | done].
Qed.

Lemma queryOverpassAPI_fetches (c : string) (i : nat) (w : World)
    (status : nat) (body : option (list Element)) :
  cache w !! queryOf c = None → net c i = HttpResponse status body → ok status = true →
  queryOverpassAPI net c i w =
    (inr (default [] body),
     mkWorld (<[queryOf c := default [] body]> (cache w)) (slept w)).
Proof.
  intros Hmiss Hnet Hok. unfold queryOverpassAPI, bind, getCached. rewrite Hmiss.
  unfold fetchElements. by rewrite Hnet, Hok.
Qed.

Lemma backoffs_S (c : string) (i k : nat) :
  backoffs net c i (S k) = backoffs net c (S i) k ++ [backoff (errorOf (net c i)) i].
Proof. reflexivity. Qed.

Lemma retryLoop_exhausted (c : string) (retries : nat) : ∀ n i w,
  cache w !! queryOf c = None →
  (i + n = retries)%nat →
  (∀ j, (i <= j <= retries)%nat → failing (net c j)) →
  retryLoop net c lat lng retries (S n) i w =
    (inl (errorOf (net c retries)),
     mkWorld (cache w) (backoffs net c i n ++ slept w)).
Proof.
  induction n as [| n IH]; intros i w Hmiss Hi Hfail.
  - cbn [retryLoop]. unfold tryCatch, bind at 1.
    rewrite queryOverpassAPI_throws by (done || apply Hfail; lia).
    replace (i =? retries)%nat with true by (symmetry; apply Nat.eqb_eq; lia).
    replace i with retries by lia. unfold throw. by destruct w.
  - remember (S n) as m. cbn [retryLoop]. unfold tryCatch, bind at 1.
    rewrite queryOverpassAPI_throws by (done || apply Hfail; lia).
    replace (i =? retries)%nat with false by (symmetry; apply Nat.eqb_neq; lia).
    unfold bind, delay. subst m.
    rewrite IH; [| done | lia | intros j Hj; apply Hfail; lia].
    cbn [cache slept]. rewrite backoffs_S, <- app_assoc. done.
Qed.

Lemma retryLoop_succeeds (c : string) (retries : nat) (status : nat)
    (body : option (list Element)) : ∀ k n i w,
  cache w !! queryOf c = None →
  (k < n)%nat → (i + k <= retries)%nat →
  (∀ j, (i <= j < i + k)%nat → failing (net c j)) →
  net c (i + k)%nat = HttpResponse status body → ok status = true →
  retryLoop net c lat lng retries n i w =
    (inr (mkFetchResult c (processFacilities (default [] body) c lat lng)
            fulfilled (Some false)),
     mkWorld (<[queryOf c := default [] body]> (cache w))
             (backoffs net c i k ++ slept w)).
Proof.
  induction k as [| k IH]; intros n i w Hmiss Hn Hi Hfail Hnet Hok.
  - destruct n as [| n]; [lia |]. rewrite Nat.add_0_r in Hnet.
    cbn [retryLoop]. unfold tryCatch, bind at 1.
    by rewrite (queryOverpassAPI_fetches c i w status body).
  - destruct n as [| n]; [lia |].
    cbn [retryLoop]. unfold tryCatch, bind at 1.
    rewrite queryOverpassAPI_throws by (done || apply Hfail; lia).
    replace (i =? retries)%nat with false by (symmetry; apply Nat.eqb_neq; lia).
    unfold bind, delay.
    rewrite (IH n (S i)); [| done | lia | lia | intros j Hj; apply Hfail; lia
                           | by rewrite <- Hnet; f_equal; lia | done].
    cbn [cache slept]. rewrite backoffs_S, <- app_assoc. done.
Qed.

End Retry.


(** X7. When the query of a category is not cached and every attempt
    fails, [fetchCategoryWithRetry] throws the error of the last attempt
    after one wait per retry: 2000 ms times the number of the attempt,
    or 5000 ms when the error message contains 429.  The cache is left
    as it was. *)
Theorem retries_exhausted (net : Network) (lat lng : R) (c : string)
    (retries : nat) (w : World) :
  cache w !! queryOf c = None →
  (∀ j, (j <= retries)%nat → failing (net c j)) →
  fetchCategoryWithRetry net c lat lng retries w =
    (inl (errorOf (net c retries)),
     mkWorld (cache w) (backoffs net c 0 retries ++ slept w)) ∧
  length (backoffs net c 0 retries) = retries.
Proof.
  intros Hmiss Hfail. split.
  - unfold fetchCategoryWithRetry, bind, getCached. rewrite Hmiss.
    apply retryLoop_exhausted; [done | lia | intros j Hj; apply Hfail; lia].
  - generalize 0%nat. induction retries as [| n IH]; intros i; [done |].
    cbn [backoffs]. rewrite length_app, IH; [cbn; lia |].
    intros j Hj. apply Hfail. lia.
Qed.

Lemma retries_exhausted_rate_limited :
  cache emptyWorld !! queryOf "market" = None ∧
  (∀ j, (j <= 3)%nat → failing (rateLimited "market" j)) ∧
  fetchCategoryWithRetry rateLimited "market" 1 2 3 emptyWorld =
    (inl "Failed to fetch"%string, mkWorld ∅ [6000; 5000; 2000]%nat).
Proof.
  assert (∀ j, (j <= 3)%nat → failing (rateLimited "market" j)) as H
    by (intros [| [| j]] _; reflexivity).
  split; [reflexivity |]. split; [exact H |].
  exact (proj1 (retries_exhausted rateLimited 1 2 "market" 3 emptyWorld eq_refl H)).
Defined.

(** X8. When the query is not cached, the first [k] attempts fail and
    attempt [k] gets an ok response, the fetch returns the facilities
    made from the elements of that response (none when the body has no
    [elements]), with status fulfilled and not from the cache, and has
    waited once per failure. *)
Theorem retry_then_success (net : Network) (lat lng : R) (c : string)
    (retries k status : nat) (body : option (list Element)) (w : World) :
  cache w !! queryOf c = None →
  (k <= retries)%nat →
  (∀ j, (j < k)%nat → failing (net c j)) →
  net c k = HttpResponse status body →
  ok status = true →
  ∃ w',
    fetchCategoryWithRetry net c lat lng retries w =
      (inr (mkFetchResult c (processFacilities (default [] body) c lat lng)
              fulfilled (Some false)), w') ∧
    slept w' = backoffs net c 0 k ++ slept w ∧
    length (backoffs net c 0 k) = k.
Proof.
  intros Hmiss Hk Hfail Hnet Hok.
  exists (mkWorld (<[queryOf c := default [] body]> (cache w))
            (backoffs net c 0 k ++ slept w)).
  split; [| split; [reflexivity |]].
  - unfold fetchCategoryWithRetry, bind, getCached. rewrite Hmiss.
    apply (retryLoop_succeeds net lat lng c retries status body k);
      [done | lia | lia | intros j Hj; apply Hfail; lia | done | done].
  - clear. generalize 0%nat. induction k as [| n IH]; intros i; [done |].
    cbn [backoffs]. rewrite length_app, IH. cbn. lia.
Qed.

Lemma retry_then_success_second_try :
  cache emptyWorld !! queryOf "health" = None ∧
  ∃ w',
    fetchCategoryWithRetry secondTry "health" 1 2 3 emptyWorld =
      (inr (mkFetchResult "health" (processFacilities [hospitalAtOrigin] "health" 1 2)
              fulfilled (Some false)), w') ∧
    slept w' = [2000%nat].
Proof.
  split; [reflexivity |].
  assert (∀ j, (j < 1)%nat → failing (secondTry "health" j)) as H
    by (intros [| j] Hj; [reflexivity | lia]).
  destruct (retry_then_success secondTry 1 2 "health" 3 1 200 (Some [hospitalAtOrigin])
              emptyWorld eq_refl ltac:(lia) H eq_refl eq_refl) as (w' & E & Hs & _).
  exists w'. split; [exact E | exact Hs].
Defined.

Lemma fetchOne_cached (net : Network) (lat lng : R) (c : string)
    (results : list FetchResult) (w : World) (elements : list Element) :
  cache w !! queryOf c = Some elements →
  fetchOne net lat lng c results w =
    (inr (results ++
            [mkFetchResult c (processFacilities elements c lat lng) fulfilled (Some true)]),
     w).
Proof.
  intros Hhit. unfold fetchOne, tryCatch, bind, fetchCategoryWithRetry, bind, getCached.
  by rewrite Hhit.
Qed.

Lemma fetchOne_first_try (net : Network) (lat lng : R) (c : string)
    (results : list FetchResult) (w : World) (status : nat)
    (body : option (list Element)) :
  cache w !! queryOf c = None →
  net c 0%nat = HttpResponse status body →
  ok status = true →
  fetchOne net lat lng c results w =
    (inr (results ++
            [mkFetchResult c (processFacilities (default [] body) c lat lng)
               fulfilled (Some false)]),
     mkWorld (<[queryOf c := default [] body]> (cache w)) (2000%nat :: slept w)).
Proof.
  intros Hmiss Hnet Hok.
  unfold fetchOne, tryCatch, bind, fetchCategoryWithRetry, bind, getCached.
  rewrite Hmiss. cbn [retryLoop]. unfold tryCatch, bind, queryOverpassAPI, bind, getCached.
  rewrite Hmiss. unfold fetchElements. rewrite Hnet, Hok. reflexivity.
Qed.

(** X9. A cached query is answered without the network: whatever the
    network would respond, the category's facilities are made from the
    cached elements, marked as from the cache, and the world (cache and
    waits) is left as it was, so that no delay follows. *)
Theorem cache_hit_skips_network (net : Network) (lat lng : R) (c : string)
    (results : list FetchResult) (w : World) (elements : list Element) :
  cache w !! queryOf c = Some elements →
  fetchCategoryWithRetry net c lat lng 3 w =
    (inr (mkFetchResult c (processFacilities elements c lat lng) fulfilled (Some true)), w) ∧
  fetchOne net lat lng c results w =
    (inr (results ++
            [mkFetchResult c (processFacilities elements c lat lng) fulfilled (Some true)]),
     w).
Proof.
  intros Hhit. split; [| by apply fetchOne_cached].
  unfold fetchCategoryWithRetry, bind, getCached. by rewrite Hhit.
Qed.

Lemma cache_hit_skips_network_warm :
  cache warmWorld !! queryOf "health" = Some [hospitalAtOrigin] ∧
  fetchOne healthDown 1 2 "health" [] warmWorld =
    (inr ([] ++ [mkFetchResult "health" (processFacilities [hospitalAtOrigin] "health" 1 2)
                   fulfilled (Some true)]),
     warmWorld).
Proof.
  assert (cache warmWorld !! queryOf "health" = Some [hospitalAtOrigin]) as H
    by reflexivity.
  split; [exact H |].
  exact (proj2 (cache_hit_skips_network healthDown 1 2 "health" [] warmWorld
                  [hospitalAtOrigin] H)).
Defined.

(** X10. What a successful first fetch stores is what a later request of
    the same category is served: after a cache miss and an ok response,
    one inter-category delay of 2000 ms is awaited, the elements are in
    the cache under the category's query, and the next request of the
    category, over any network, is a cache hit on these elements. *)
Theorem fetched_elements_are_cached (net later : Network) (lat lng : R) (c : string)
    (results results' : list FetchResult) (w : World) (status : nat)
    (body : option (list Element)) :
  cache w !! queryOf c = None →
  net c 0%nat = HttpResponse status body →
  ok status = true →
  ∃ w1,
    fetchOne net lat lng c results w =
      (inr (results ++
              [mkFetchResult c (processFacilities (default [] body) c lat lng)
                 fulfilled (Some false)]), w1) ∧
    slept w1 = 2000%nat :: slept w ∧
    cache w1 !! queryOf c = Some (default [] body) ∧
    (∀ q, q ≠ queryOf c → cache w1 !! q = cache w !! q) ∧
    fetchOne later lat lng c results' w1 =
      (inr (results' ++
              [mkFetchResult c (processFacilities (default [] body) c lat lng)
                 fulfilled (Some true)]), w1).
Proof.
  intros Hmiss Hnet Hok. eexists. split; [by apply (fetchOne_first_try _ _ _ _ _ _ status) |].
  cbn [cache slept]. split_and!.
  - done.
  - apply lookup_insert_eq.
  - intros q Hq. by rewrite lookup_insert_ne.
  - apply fetchOne_cached. cbn [cache]. apply lookup_insert_eq.
Qed.

Lemma fetched_elements_are_cached_hospital :
  ∃ w1,
    fetchOne healthUp 1 2 "health" [] emptyWorld =
      (inr ([] ++ [mkFetchResult "health" (processFacilities [hospitalAtOrigin] "health" 1 2)
                     fulfilled (Some false)]), w1) ∧
    cache w1 !! queryOf "health" = Some [hospitalAtOrigin] ∧
    fetchOne healthDown 1 2 "health" [] w1 =
      (inr ([] ++ [mkFetchResult "health" (processFacilities [hospitalAtOrigin] "health" 1 2)
                     fulfilled (Some true)]), w1).
Proof.
  destruct (fetched_elements_are_cached healthUp healthDown 1 2 "health" [] [] emptyWorld
              200 (Some [hospitalAtOrigin]) eq_refl eq_refl eq_refl)
    as (w1 & E & _ & Hc & _ & E').
  exists w1. split; [exact E |]. split; [exact Hc | exact E'].
Defined.

Section Provenance.
Variable net : Network.
Variables lat lng : R.
(** A property of the facilities of a bucket that holds of no
    facilities and of whatever [processFacilities] returns. *)
Variable P : string → list Facility → Prop.
Hypothesis P_nil : ∀ c, P c [].
Hypothesis P_processed : ∀ c elements, P c (processFacilities elements c lat lng).

Lemma retryLoop_facilities (c : string) (retries : nat) : ∀ n i w w' r,
  retryLoop net c lat lng retries n i w = (inr r, w') →
  fr_category r = c ∧ P c (fr_facilities r).
Proof.
  induction n as [| n IH]; intros i w w' r H.
  - cbn in H. unfold ret in H. simplify_eq. split; [done | apply P_nil].
  - cbn [retryLoop] in H. unfold tryCatch, bind at 1 in H.
    destruct (queryOverpassAPI net c i w) as [[e | els] w1].
    + destruct (i =? retries)%nat; [unfold throw in H; by simplify_eq |].
      unfold bind, delay in H. by apply IH in H.
    + unfold ret in H. simplify_eq. split; [done | apply P_processed].
Qed.

Lemma fetchOne_facilities (c : string) (results : list FetchResult) (w : World) :
  ∃ r w', fetchOne net lat lng c results w = (inr (results ++ [r]), w') ∧
          fr_category r = c ∧ P c (fr_facilities r).
Proof.
  unfold fetchOne, tryCatch, bind at 1.
  destruct (fetchCategoryWithRetry net c lat lng 3 w) as [[e | r] w1] eqn:E.
  - eexists _, _. split; [done |]. split; [done | apply P_nil].
  - assert (fr_category r = c ∧ P c (fr_facilities r)) as [Hc HP].
    { unfold fetchCategoryWithRetry, bind, getCached in E.
      destruct (cache w !! queryOf c).
      - unfold ret in E. simplify_eq. split; [done | apply P_processed].
      - by eapply retryLoop_facilities. }
    destruct (negb (default false (fr_fromCache r)));
      unfold bind, delay, ret; by eexists r, _.
Qed.

Lemma fetchAll_facilities (cats : list string) : ∀ results w,
  ∃ new w', fetchAll net lat lng cats results w = (inr (results ++ new), w') ∧
            fr_category <$> new = cats ∧
            Forall (λ r, P (fr_category r) (fr_facilities r)) new.
Proof.
  induction cats as [| c cats IH]; intros results w.
  - exists [], w. by rewrite app_nil_r.
  - destruct (fetchOne_facilities c results w) as (r & w1 & E & Hcat & HP).
    destruct (IH (results ++ [r]) w1) as (new & w' & E' & Hcats & Hnew).
    exists (r :: new), w'. rewrite fetchAll_cons. unfold bind. rewrite E, E'.
    rewrite <- app_assoc. split_and!; [done | cbn; by rewrite Hcat, Hcats |].
    constructor; [by rewrite Hcat | done].
Qed.

End Provenance.

(** ** The ranges of a run *)

Lemma calculateDistance_nonneg (lat1 lng1 lat2 lng2 : R) :
  0 <= calculateDistance lat1 lng1 lat2 lng2.
Proof.
  unfold calculateDistance.
  match goal with
  | |- 0 <= _ * (2 * JS.Math_atan2 (sqrt ?a) (sqrt ?b)) =>
      pose proof (Math_atan2_quadrant (sqrt a) (sqrt b) (sqrt_pos a) (sqrt_pos b))
  end.
  nra.
Qed.

Lemma Math_round_le_1000 (d : R) : d <= 1000 → JS.Math_round d <= 1000.
Proof.
  intros H. unfold JS.Math_round.
  apply IZR_le.
  assert (Zfloor (d + / 2) < 1001)%Z; [| lia].
  apply lt_IZR. pose proof (Zfloor_bound (d + / 2)). lra.
Qed.

Lemma processFacilities_inRange (elements : list Element) (bucket : string)
    (userLat userLng : R) :
  Forall inRange (processFacilities elements bucket userLat userLng).
Proof.
  apply Forall_forall. intros f Hf.
  apply processFacilities_elem in Hf as (i & e & _ & -> & Hw).
  unfold withinMaxDistance in Hw. apply leb_true in Hw.
  rewrite filterMaxDistance_1000 in Hw. split; [apply contribution_nonneg |].
  split; [| done]. cbn [distance toFacility].
  apply Math_round_nonneg, calculateDistance_nonneg.
Qed.

Lemma toCustomFacility_inRange (allPOIs : list CustomPOI) (lat lng : R) :
  Forall inRange (toCustomFacility lat lng <$> getPOIsNearLocation allPOIs lat lng 1000).
Proof.
  apply Forall_fmap, Forall_forall. intros poi Hpoi.
  apply getPOIsNearLocation_elem in Hpoi as [_ Hd].
  split; [apply contribution_nonneg |]. cbn [distance toCustomFacility].
  split; [apply Math_round_nonneg, calculateDistance_nonneg | by apply Math_round_le_1000].
Qed.

Lemma fold_accumulate_nonnegative (l : list Facility) : ∀ acc,
  Forall inRange l → nonnegative acc.2 → nonnegative (fold_left accumulate l acc).2.
Proof.
  induction l as [| f l IH]; intros acc Hl Hacc; [done |].
  apply Forall_cons in Hl as [[Hf _] Hl]. cbn [fold_left].
  apply IH; [done |]. by apply accumulate_nonnegative.
Qed.

Lemma fold_accumulateCustom_nonnegative (l : list Facility) : ∀ acc,
  Forall inRange l → nonnegative acc.2 → nonnegative (fold_left accumulateCustom l acc).2.
Proof.
  induction l as [| f l IH]; intros acc Hl Hacc; [done |].
  apply Forall_cons in Hl as [[Hf _] Hl]. cbn [fold_left].
  apply IH; [done |]. by apply accumulateCustom_nonnegative.
Qed.

Lemma fold_processResult_inRange (results : list FetchResult) : ∀ acc,
  Forall (λ r, Forall inRange (fr_facilities r)) results →
  Forall inRange acc.1 → nonnegative acc.2.2 →
  Forall inRange (fold_left processResult results acc).1 ∧
  nonnegative (fold_left processResult results acc).2.2.
Proof.
  induction results as [| r results IH]; intros acc Hall Hacc Hpos; [done |].
  apply Forall_cons in Hall as [Hr Hall]. cbn [fold_left].
  apply IH; [done | |]; destruct acc as [all totals]; unfold processResult;
    destruct (fr_status r); cbn [fst snd] in *; try done.
  - by apply Forall_app.
  - by apply fold_accumulate_nonnegative.
Qed.

Lemma nonnegative_initial : nonnegative initialScores.
Proof. intros c. rewrite score_initial. lra. Qed.

(** X11. Whatever the network responds and whatever the cache holds,
    for a store of well-formed custom points none of whose categories is
    the name of a member inherited from [Object.prototype],
    [calculateLivabilityScore] returns: it does not throw.  In what it
    returns every category sum is at least zero, each of the four
    sub-scores and the overall score lie between 0 and 100, the location
    is the address and coordinates of the request, every facility has a
    contribution of at least zero and a rounded distance between 0 and
    1000, and the contribution of every custom point within 1000 m is a
    number. *)
Theorem livability_result_in_range (net : Network) (allPOIs : list CustomPOI)
    (lat lng : R) (address : string) (w : World) :
  Forall (λ poi, poi_category poi ∉ objectPrototypeNames) allPOIs →
  ∃ data facilities sums w',
    calculateLivabilityScore net allPOIs lat lng address w =
      (inr (data, facilities, sums), w') ∧
    (∀ c, 0 <= score sums c) ∧
    0 <= services (subscores data) <= 100 ∧
    0 <= mobility (subscores data) <= 100 ∧
    0 <= safety (subscores data) <= 100 ∧
    0 <= environment (subscores data) <= 100 ∧
    0 <= overall data <= 100 ∧
    location data = Some (mkLocation address (lng, lat)) ∧
    Forall (λ f, 0 <= contribution f ∧ 0 <= distance f <= 1000) facilities ∧
    Forall (λ poi,
              calculateDistanceContributionOrNaN
                (calculateDistance lat lng (poi_lat poi) (poi_lng poi))
                (poi_category poi) =
                Some (contribution (toCustomFacility lat lng poi)))
      (getPOIsNearLocation allPOIs lat lng 1000).
Proof.
  intros Hplain.
  destruct (fetchAll_facilities net lat lng (λ _, Forall inRange)
              (λ _, Forall_nil_2 _)
              (λ c elements, processFacilities_inRange elements c lat lng)
              categories [] w) as (results & w' & E & _ & Hall).
  cbn [app] in E.
  destruct (fold_processResult_inRange results ([], (initialCounts, initialScores)) Hall)
    as [Hfetched Hsums]; [constructor | apply nonnegative_initial |].
  pose proof (toCustomFacility_inRange allPOIs lat lng) as Hcustom.
  pose proof (fold_accumulateCustom_nonnegative _ _ Hcustom Hsums) as Htotals.
  pose proof (calculateSubScores_bounds _
    (fold_left accumulateCustom
       (toCustomFacility lat lng <$> getPOIsNearLocation allPOIs lat lng 1000)
       (fold_left processResult results ([], (initialCounts, initialScores))).2).1
    Htotals) as Hb.
  cbv zeta in Hb.
  eexists _, _, _, w'. split.
  { unfold calculateLivabilityScore, bind. rewrite E. unfold ret.
    rewrite summarize_eq. reflexivity. }
  cbn [subscores overall location].
  destruct Hb as (H1 & H2 & H3 & H4 & H5).
  split; [exact Htotals |]. split; [exact H1 |]. split; [exact H2 |].
  split; [exact H3 |]. split; [exact H4 |]. split; [exact H5 |].
  split; [reflexivity |]. split; [by apply Forall_app |].
  apply Forall_forall. intros poi Hpoi.
  apply getPOIsNearLocation_elem in Hpoi as [Hpoi _].
  rewrite Forall_forall in Hplain.
  by rewrite calculateDistanceContributionOrNaN_number by (by apply Hplain).
Qed.

Lemma livability_result_in_range_park :
  Forall (λ poi, poi_category poi ∉ objectPrototypeNames) [customPark] ∧
  ∃ data facilities sums w',
    calculateLivabilityScore healthDown [customPark] 1 2 "Jalan" emptyWorld =
      (inr (data, facilities, sums), w') ∧
    0 <= overall data <= 100.
Proof.
  assert (Forall (λ poi, poi_category poi ∉ objectPrototypeNames) [customPark]) as H
    by (constructor; [compute_done | constructor]).
  split; [exact H |].
  destruct (livability_result_in_range healthDown [customPark] 1 2 "Jalan" emptyWorld H)
    as (data & facilities & sums & w' & E & _ & _ & _ & _ & _ & Ho & _).
  exists data, facilities, sums, w'. split; [exact E | exact Ho].
Defined.

(** ** What a run does to the world *)

Lemma grows_refl (retries : nat) (w : World) : grows retries w w.
Proof. split; [done |]. split; [done |]. by exists []. Qed.

Lemma grows_trans (retries : nat) (w1 w2 w3 : World) :
  grows retries w1 w2 → grows retries w2 w3 → grows retries w1 w3.
Proof.
  intros (Hc & Ho & new & Hs & Hn) (Hc' & Ho' & new' & Hs' & Hn').
  split; [by etrans |]. split.
  - intros q Hq. by rewrite Ho', Ho.
  - exists (new' ++ new). rewrite Hs', Hs, app_assoc. split; [done | by apply Forall_app].
Qed.

Lemma delay_grows (retries ms : nat) (w : World) :
  isWait retries ms → grows retries w (delay ms w).2.
Proof.
  intros H. split; [done |]. split; [done |]. exists [ms]. split; [done |].
  by constructor.
Qed.

Lemma queryOf_categories (c : string) : queryOf c ∈ queryOf <$> categories.
Proof.
  unfold queryOf. case_bool_decide as H; [| compute_done].
  revert H. generalize c. apply Forall_forall. compute_done.
Qed.

Lemma queryOverpassAPI_grows (net : Network) (c : string) (i retries : nat) (w : World) :
  grows retries w (queryOverpassAPI net c i w).2.
Proof.
  unfold queryOverpassAPI, bind, getCached.
  destruct (cache w !! queryOf c) eqn:E; [apply grows_refl |].
  destruct (fetchElements net c i w) as [[e | els] w1] eqn:F;
    unfold fetchElements in F; destruct (net c i) as [status body | message];
    try destruct (ok status); unfold ret, throw in F; simplify_eq; cbn [snd];
    try apply grows_refl.
  unfold setCached. cbn [snd]. split; [| split]; cbn [cache slept].
  - by apply insert_subseteq.
  - intros q Hq. apply lookup_insert_ne. intros <-. apply Hq, queryOf_categories.
  - by exists [].
Qed.

Lemma retryLoop_grows (net : Network) (c : string) (lat lng : R) (retries : nat) :
  ∀ n i w, (i + n = S retries)%nat →
  grows retries w (retryLoop net c lat lng retries n i w).2.
Proof.
  induction n as [| n IH]; intros i w Hi; [apply grows_refl |].
  cbn [retryLoop]. unfold tryCatch, bind at 1.
  pose proof (queryOverpassAPI_grows net c i retries w) as Hq.
  destruct (queryOverpassAPI net c i w) as [[e | els] w1]; cbn [snd] in *; [| done].
  destruct (Nat.eqb_spec i retries) as [-> | Hne]; [done |].
  unfold bind. 
  pose proof (delay_grows retries
    (if JS.includes e "429" then 5000%nat else (2000 * (i + 1))%nat) w1) as Hd.
  destruct (delay _ w1) as [[e' | []] w2] eqn:D; [done |]. cbn [snd] in Hd.
  eapply grows_trans; [exact Hq |]. eapply grows_trans; [apply Hd | apply IH; lia].
  destruct (JS.includes e "429"); [by left | right]. exists i. split; [lia | done].
Qed.

Lemma retryLoop_fulfilled (net : Network) (c : string) (lat lng : R) (retries : nat) :
  ∀ n i w r w', (i + n = retries)%nat →
  retryLoop net c lat lng retries (S n) i w = (inr r, w') →
  fr_status r = fulfilled.
Proof.
  induction n as [| n IH]; intros i w r w' Hi H;
    cbn [retryLoop] in H; unfold tryCatch, bind at 1 in H;
    destruct (queryOverpassAPI net c i w) as [[e | els] w1];
    try (unfold ret in H; by simplify_eq).
  - replace (i =? retries)%nat with true in H by (symmetry; apply Nat.eqb_eq; lia).
    unfold throw in H. by simplify_eq.
  - destruct (Nat.eqb_spec i retries) as [-> | Hne]; [unfold throw in H; by simplify_eq |].
    unfold bind, delay in H. eapply IH; [| exact H]. lia.
Qed.

Lemma fetchCategoryWithRetry_grows (net : Network) (lat lng : R) (c : string) (w : World) :
  grows 3 w (fetchCategoryWithRetry net c lat lng 3 w).2 ∧
  ∀ r w', fetchCategoryWithRetry net c lat lng 3 w = (inr r, w') →
          fr_status r = fulfilled.
Proof.
  unfold fetchCategoryWithRetry, bind, getCached.
  destruct (cache w !! queryOf c).
  - split; [apply grows_refl |]. unfold ret. intros. by simplify_eq.
  - split; [apply retryLoop_grows; lia |].
    intros r w'. by apply retryLoop_fulfilled.
Qed.

Lemma fetchOne_grows (net : Network) (lat lng : R) (c : string)
    (results : list FetchResult) (w : World) :
  ∃ r w', fetchOne net lat lng c results w = (inr (results ++ [r]), w') ∧
          fr_category r = c ∧ fr_status r = fulfilled ∧ grows 3 w w'.
Proof.
  assert (isWait 3 2000) as H2000 by (right; exists 0%nat; split; [lia | done]).
  destruct (fetchOne_spec net lat lng c results w) as (r & w1 & E & Hcat & _).
  exists r, w1. split; [done |]. split; [done |]. clear Hcat.
  revert E. unfold fetchOne, tryCatch, bind at 1.
  destruct (fetchCategoryWithRetry_grows net lat lng c w) as [Hg Hst].
  destruct (fetchCategoryWithRetry net c lat lng 3 w) as [[e | r'] w2]; cbn [snd] in Hg.
  - unfold ret. intros E. injection E as E <-. apply app_inv_head in E.
    simplify_eq. by split.
  - specialize (Hst r' w2 eq_refl).
    destruct (negb (default false (fr_fromCache r'))); unfold bind, delay, ret;
      intros E; injection E as E <-; apply app_inv_head in E; simplify_eq;
      (split; [done |]); [| done].
    eapply grows_trans; [exact Hg |]. by apply (delay_grows 3 2000).
Qed.

Lemma fetchAll_grows (net : Network) (lat lng : R) (cats : list string) :
  ∀ results w,
  ∃ new w', fetchAll net lat lng cats results w = (inr (results ++ new), w') ∧
            fr_category <$> new = cats ∧
            Forall (λ r, fr_status r = fulfilled) new ∧
            grows 3 w w'.
Proof.
  induction cats as [| c cats IH]; intros results w.
  - exists [], w. rewrite app_nil_r. split_and!; try done. apply grows_refl.
  - destruct (fetchOne_grows net lat lng c results w) as (r & w1 & E & Hcat & Hst & Hg).
    destruct (IH (results ++ [r]) w1) as (new & w' & E' & Hcats & Hnew & Hg').
    exists (r :: new), w'. rewrite fetchAll_cons. unfold bind. rewrite E, E'.
    rewrite <- app_assoc. split_and!; [done | cbn; by rewrite Hcat, Hcats | |].
    + by constructor.
    + by eapply grows_trans.
Qed.

(** X12. The fetch loop of a run yields exactly one result per category,
    in the order of the category list and each with status fulfilled:
    the rejected result after the retry loop is never returned.  The
    facilities of each result are those that [processFacilities] makes
    of some elements under the category of the result, and the run
    awaits nothing but waits of 2000, 4000, 5000 or 6000 ms. *)
Theorem run_results_and_waits (net : Network) (lat lng : R) (w : World) :
  ∃ results w' waits,
    fetchAll net lat lng categories [] w = (inr results, w') ∧
    fr_category <$> results = categories ∧
    Forall (λ r, fr_status r = fulfilled) results ∧
    Forall (λ r, ∃ elements,
                 fr_facilities r = processFacilities elements (fr_category r) lat lng)
      results ∧
    slept w' = waits ++ slept w ∧
    Forall (λ ms, ms ∈ [2000; 4000; 5000; 6000]%nat) waits.
Proof.
  destruct (fetchAll_grows net lat lng categories [] w)
    as (results & w' & E & Hcats & Hst & _ & _ & waits & Hs & Hw).
  destruct (fetchAll_facilities net lat lng
              (λ c l, ∃ elements, l = processFacilities elements c lat lng)
              (λ c, ex_intro _ [] eq_refl)
              (λ c elements, ex_intro _ elements eq_refl)
              categories [] w) as (results' & w'' & E' & _ & Hfrom).
  rewrite E in E'. injection E' as <- _.
  exists results, w', waits. split_and!; try done.
  eapply Forall_impl; [exact Hw |]. intros ms [-> | (j & Hj & ->)]; [compute_done |].
  assert (j = 0 ∨ j = 1 ∨ j = 2)%nat as [-> | [-> | ->]] by lia; compute_done.
Qed.

(** *** Accessibility *)

(** X13. The query table has no entry for accessibility, which is sent
    the health query and shares its cache entry.  When the health query
    is not cached and its first request succeeds, and the elements are
    written to the cache and are still there when accessibility has its
    turn (as in every run of the model, where no write fails and no
    entry is evicted or expires), the run takes the result of
    accessibility from the cache without asking the network: it is made
    from the elements of the health response, processed a second time
    with accessibility as the bucket. *)
Theorem accessibility_reuses_health_elements (net : Network) (lat lng : R) (w : World)
    (status : nat) (body : option (list Element)) :
  cache w !! "health" = None →
  net "health" 0%nat = HttpResponse status body →
  ok status = true →
  ∃ results w',
    fetchAll net lat lng categories [] w = (inr results, w') ∧
    results !! 0%nat =
      Some (mkFetchResult "health"
              (processFacilities (default [] body) "health" lat lng)
              fulfilled (Some false)) ∧
    results !! 7%nat =
      Some (mkFetchResult "accessibility"
              (processFacilities (default [] body) "accessibility" lat lng)
              fulfilled (Some true)).
Proof.
  intros Hmiss Hnet Hok.
  change categories with
    (app ["health"]%string
       (app ["education"; "market"; "transport"; "walkability";
             "recreation"; "safety"]%string
          (app ["accessibility"]%string ["police"; "religious"]%string))).
  rewrite fetchAll_app. unfold bind at 1. rewrite fetchAll_cons. unfold bind at 1.
  rewrite (fetchOne_first_try net lat lng "health" [] w status body Hmiss Hnet Hok).
  cbn [fetchAll]. unfold ret at 1.
  set (r0 := mkFetchResult "health" _ _ _).
  set (w1 := mkWorld _ _).
  rewrite fetchAll_app. unfold bind at 1.
  destruct (fetchAll_grows net lat lng
              ["education"; "market"; "transport"; "walkability"; "recreation"; "safety"]%string
              ([] ++ [r0]) w1) as (mid & w2 & -> & Hmid & _ & Hsub & _).
  assert (cache w2 !! queryOf "accessibility" = Some (default [] body)) as Hhit.
  { eapply lookup_weaken; [| exact Hsub]. apply lookup_insert_eq. }
  rewrite fetchAll_app. unfold bind at 1. rewrite fetchAll_cons. unfold bind at 1.
  rewrite (fetchOne_cached net lat lng "accessibility" _ w2 _ Hhit).
  cbn [fetchAll]. unfold ret at 1.
  set (r7 := mkFetchResult "accessibility" _ _ _).
  destruct (fetchAll_grows net lat lng ["police"; "religious"]%string
              ((([] ++ [r0]) ++ mid) ++ [r7]) w2) as (last & w3 & E3 & _).
  cbn [fetchAll] in E3. rewrite E3.
  apply (f_equal length) in Hmid. rewrite length_fmap in Hmid. cbn [length] in Hmid.
  eexists _, w3. split; [done |]. split; [done |].
  rewrite lookup_app_l by (rewrite !length_app; cbn; lia).
  rewrite lookup_app_r by (rewrite !length_app; cbn; lia).
  rewrite length_app, Hmid. done.
Qed.

Lemma accessibility_reuses_health_elements_hospital :
  ∃ results w',
    fetchAll healthUp 0 0 categories [] emptyWorld = (inr results, w') ∧
    results !! 0%nat =
      Some (mkFetchResult "health"
              (processFacilities [hospitalAtOrigin] "health" 0 0) fulfilled (Some false)) ∧
    results !! 7%nat =
      Some (mkFetchResult "accessibility"
              (processFacilities [hospitalAtOrigin] "accessibility" 0 0)
              fulfilled (Some true)).
Proof.
  exact (accessibility_reuses_health_elements healthUp 0 0 emptyWorld 200
           (Some [hospitalAtOrigin]) eq_refl eq_refl eq_refl).
Defined.

(** ** The category sums *)

Lemma sumOf_app (g : Facility → R) (l1 l2 : list Facility) :
  sumOf g (l1 ++ l2) = sumOf g l1 + sumOf g l2.
Proof.
  unfold sumOf. induction l1 as [| f l1 IH]; cbn [app foldr]; [lra |].
  rewrite IH. lra.
Qed.

Lemma hasOwnProperty_ownKeys (counts : Counts) (c : string) :
  ownKeys counts → hasOwnProperty counts c = bool_decide (c ∈ categories).
Proof.
  intros H. unfold hasOwnProperty. apply bool_decide_ext, H.
Qed.

Lemma accumulate_score (acc : Counts * Scores) (f : Facility) (c : string) :
  ownKeys acc.1 → score (accumulate acc f).2 c = score acc.2 c + share c f.
Proof.
  destruct acc as [counts scores]. cbn [fst snd]. intros Hkeys.
  unfold accumulate, share. rewrite (hasOwnProperty_ownKeys _ _ Hkeys).
  destruct (bool_decide (category f ∈ categories)); [| cbn [snd]; lra].
  destruct (String.eqb_spec (category f) "walkability") as [Hw | Hw].
  - destruct (tagIs (tags f) "highway" "street_lamp" || tagIs (tags f) "lit" "yes");
      cbn [snd]; rewrite ?score_addScore;
      destruct (String.eqb_spec c "walkability") as [? | ?];
      destruct (String.eqb_spec c "safety") as [? | ?]; simplify_eq;
      repeat case_decide; simplify_eq; cbn [andb]; lra.
  - destruct (String.eqb_spec (category f) "safety") as [Hs | Hs].
    + destruct (tagIs (tags f) "amenity" "fire_station"); cbn [snd];
        rewrite score_addScore; destruct (String.eqb_spec c "safety");
        case_decide; simplify_eq; lra.
    + cbn [snd]. rewrite score_addScore.
      destruct (String.eqb_spec c (category f)); case_decide; simplify_eq; lra.
Qed.

Lemma accumulateCustom_score (acc : Counts * Scores) (f : Facility) (c : string) :
  ownKeys acc.1 → score (accumulateCustom acc f).2 c = score acc.2 c + customShare c f.
Proof.
  destruct acc as [counts scores]. cbn [fst snd]. intros Hkeys.
  unfold accumulateCustom, customShare. rewrite (hasOwnProperty_ownKeys _ _ Hkeys).
  destruct (bool_decide (category f ∈ categories)); cbn [snd andb]; [| lra].
  rewrite score_addScore.
  destruct (String.eqb_spec c (category f)); case_decide; simplify_eq; lra.
Qed.

Lemma fold_accumulate_score (l : list Facility) (c : string) : ∀ acc,
  ownKeys acc.1 →
  score (fold_left accumulate l acc).2 c = score acc.2 c + sumOf (share c) l.
Proof.
  induction l as [| f l IH]; intros acc Hkeys; [unfold sumOf; cbn [fold_left foldr]; lra |].
  cbn [fold_left]. rewrite IH by (by apply accumulate_ownKeys).
  rewrite accumulate_score by done. unfold sumOf. cbn [foldr]. lra.
Qed.

Lemma fold_accumulateCustom_score (l : list Facility) (c : string) : ∀ acc,
  ownKeys acc.1 →
  score (fold_left accumulateCustom l acc).2 c = score acc.2 c + sumOf (customShare c) l.
Proof.
  induction l as [| f l IH]; intros acc Hkeys; [unfold sumOf; cbn [fold_left foldr]; lra |].
  cbn [fold_left]. rewrite IH by (by apply accumulateCustom_ownKeys).
  rewrite accumulateCustom_score by done. unfold sumOf. cbn [foldr]. lra.
Qed.

Lemma fold_processResult_score (results : list FetchResult) (c : string) : ∀ acc,
  ownKeys acc.2.1 →
  (fold_left processResult results acc).1 = acc.1 ++ fetchedFacilities results ∧
  score (fold_left processResult results acc).2.2 c =
    score acc.2.2 c + sumOf (share c) (fetchedFacilities results).
Proof.
  induction results as [| r results IH]; intros acc Hkeys.
  - unfold fetchedFacilities, sumOf. cbn [fold_left fmap list_fmap mjoin list_join foldr].
    rewrite app_nil_r. split; [done | lra].
  - cbn [fold_left].
    destruct (IH (processResult acc r) (processResult_ownKeys acc r Hkeys)) as [-> ->].
    destruct acc as [all totals]. unfold processResult, fetchedFacilities.
    cbn [fmap list_fmap mjoin list_join fst snd] in *.
    destruct (fr_status r); cbn [fst snd app].
    + rewrite <- app_assoc. split; [done |].
      rewrite fold_accumulate_score, sumOf_app by done. apply Rplus_assoc.
    + done.
Qed.

Lemma summarize_score (results : list FetchResult) (allPOIs : list CustomPOI)
    (lat lng : R) (address : string) (c : string) :
  score (summarize results allPOIs lat lng address).2 c =
    sumOf (share c) (fetchedFacilities results) +
    sumOf (customShare c)
      (toCustomFacility lat lng <$> getPOIsNearLocation allPOIs lat lng 1000).
Proof.
  rewrite summarize_eq. cbn [fst snd].
  destruct (fold_processResult_score results c ([], (initialCounts, initialScores))
              ownKeys_initial) as [_ E].
  cbn [fst snd] in E. rewrite score_initial in E.
  rewrite fold_accumulateCustom_score by apply fetched_ownKeys.
  rewrite E. lra.
Qed.

(** X14. The category sums of a run are weighted sums of contributions.
    The sum of a category is the sum, over the facilities of the
    fulfilled results, of the share of each (a quarter of the
    contribution for a walkability facility, which enters the safety sum
    as well when it is lit; the whole contribution of a fire station and
    a quarter for any other safety facility; the whole contribution for
    the other eight categories; nothing for a facility outside the ten),
    plus the whole contributions of the custom facilities of the
    category.  The returned facilities are the fetched ones followed by
    the custom ones. *)
Theorem category_sums_are_weighted_sums (results : list FetchResult)
    (allPOIs : list CustomPOI) (lat lng : R) (address : string) (c : string) :
  let custom := toCustomFacility lat lng <$> getPOIsNearLocation allPOIs lat lng 1000 in
  (summarize results allPOIs lat lng address).1.2 = fetchedFacilities results ++ custom ∧
  score (summarize results allPOIs lat lng address).2 c =
    sumOf (share c) (fetchedFacilities results) + sumOf (customShare c) custom.
Proof.
  intros custom. rewrite summarize_eq. cbn [fst snd].
  destruct (fold_processResult_score results c ([], (initialCounts, initialScores))
              ownKeys_initial) as [E1 E2].
  cbn [fst snd app] in E1, E2. rewrite score_initial in E2.
  rewrite E1. split; [done |].
  rewrite fold_accumulateCustom_score by apply fetched_ownKeys. fold custom.
  rewrite E2. lra.
Qed.

(** ** More never lowers *)

Lemma Math_round_le (x y : R) : x <= y → JS.Math_round x <= JS.Math_round y.
Proof. intros H. unfold JS.Math_round. apply IZR_le, Zfloor_le. lra. Qed.

Lemma cap_le (x y : R) : x <= y → cap x <= cap y.
Proof.
  intros H. unfold cap, JS.Math_min. apply Math_round_le in H.
  apply Rmin_glb; [apply Rmin_l |]. etrans; [apply Rmin_r | done].
Qed.

Lemma calculateSubScores_le (scores scores' : Scores) (counts counts' : Counts) :
  (∀ c, score scores c <= score scores' c) →
  let s := calculateSubScores scores counts in
  let s' := calculateSubScores scores' counts' in
  services s <= services s' ∧ mobility s <= mobility s' ∧
  safety s <= safety s' ∧ environment s <= environment s' ∧
  overallScore s <= overallScore s'.
Proof.
  intros H.
  pose proof (H "health"). pose proof (H "education"). pose proof (H "market").
  pose proof (H "religious"). pose proof (H "transport"). pose proof (H "walkability").
  pose proof (H "safety"). pose proof (H "police"). pose proof (H "accessibility").
  pose proof (H "recreation").
  assert (services (calculateSubScores scores counts) <=
          services (calculateSubScores scores' counts')) by (apply cap_le; lra).
  assert (mobility (calculateSubScores scores counts) <=
          mobility (calculateSubScores scores' counts')) by (apply cap_le; lra).
  assert (safety (calculateSubScores scores counts) <=
          safety (calculateSubScores scores' counts')) by (apply cap_le; lra).
  assert (environment (calculateSubScores scores counts) <=
          environment (calculateSubScores scores' counts')) by (apply cap_le; lra).
  cbv zeta. unfold overallScore. repeat split; try done. lra.
Qed.

Lemma customShare_nonneg (c : string) (lat lng : R) (poi : CustomPOI) :
  0 <= customShare c (toCustomFacility lat lng poi).
Proof.
  unfold customShare. case_match; [| lra]. apply contribution_nonneg.
Qed.

(** X15. One more custom point in the store never lowers a result: every
    category sum, each of the four sub-scores and the overall score of
    the run with the point are at least those of the run without it. *)
Theorem custom_poi_never_lowers (results : list FetchResult)
    (allPOIs : list CustomPOI) (poi : CustomPOI) (lat lng : R) (address : string) :
  let before := summarize results allPOIs lat lng address in
  let after := summarize results (poi :: allPOIs) lat lng address in
  (∀ c, score before.2 c <= score after.2 c) ∧
  services (subscores before.1.1) <= services (subscores after.1.1) ∧
  mobility (subscores before.1.1) <= mobility (subscores after.1.1) ∧
  safety (subscores before.1.1) <= safety (subscores after.1.1) ∧
  environment (subscores before.1.1) <= environment (subscores after.1.1) ∧
  overall before.1.1 <= overall after.1.1.
Proof.
  intros before after.
  assert (∀ c, score before.2 c <= score after.2 c) as Hsums.
  { intros c. unfold before, after.
    rewrite !summarize_score.
    apply Rplus_le_compat_l.
    unfold getPOIsNearLocation. cbn [List.filter].
    destruct (JS.leb _ 1000); [| lra].
    cbn [fmap list_fmap]. unfold sumOf at 2. cbn [foldr].
    pose proof (customShare_nonneg c lat lng poi). unfold sumOf. 
    match goal with |- ?a <= _ + ?b => change b with a end. lra. }
  split; [exact Hsums |].
  unfold before, after in *. rewrite !summarize_eq in *. cbn [fst snd subscores overall] in *.
  by apply calculateSubScores_le.
Qed.

(** ** The empty state *)

Lemma fold_processResult_nothing (results : list FetchResult)
    (acc : list Facility * (Counts * Scores)) :
  Forall (λ r, fr_facilities r = []) results →
  fold_left processResult results acc = acc.
Proof.
  induction 1 as [| r results Hr _ IH]; [done |].
  cbn [fold_left]. by rewrite processResult_empty.
Qed.

Lemma cap_0 : cap 0 = 0.
Proof. unfold cap, JS.Math_min. rewrite Math_round_0. apply Rmin_right. lra. Qed.

Lemma initialCounts_empty : initialCounts = facilityCounts getEmptyLivabilityData.
Proof. by vm_compute. Qed.

(** X28. A run that finds nothing returns the scores and counts of the
    empty state: when no result holds a facility and no custom point is
    within 1000 m, the overall score and the four sub-scores are 0,
    every count is 0 and the list of facilities is empty; only the
    location differs from [getEmptyLivabilityData], which has none. *)
Theorem nothing_found_is_the_empty_state (results : list FetchResult)
    (allPOIs : list CustomPOI) (lat lng : R) (address : string) :
  Forall (λ r, fr_facilities r = []) results →
  getPOIsNearLocation allPOIs lat lng 1000 = [] →
  summarize results allPOIs lat lng address =
    ({| overall := overall getEmptyLivabilityData;
        subscores := subscores getEmptyLivabilityData;
        location := Some (mkLocation address (lng, lat));
        facilityCounts := facilityCounts getEmptyLivabilityData |},
     [], initialScores).
Proof.
  intros Hres Hpois. rewrite summarize_eq. cbv zeta.
  rewrite fold_processResult_nothing by done. rewrite Hpois.
  cbn [fmap list_fmap fold_left fst snd app].
  assert (calculateSubScores initialScores initialCounts =
          subscores getEmptyLivabilityData) as ->.
  { unfold calculateSubScores. rewrite !score_initial.
    replace (0 * (12 / 10) + 0 * 1 + 0 * (8 / 10) + 0 * (8 / 10)) with 0 by lra.
    replace (0 * (15 / 10) + 0 * (5 / 10)) with 0 by lra.
    replace (0 * (6 / 10) + 0 * 2 + 0 * (8 / 10) + 0 * 1) with 0 by lra.
    replace (0 * (25 / 10)) with 0 by lra.
    by rewrite cap_0. }
  rewrite initialCounts_empty. f_equal. f_equal. f_equal.
  unfold overallScore. cbn. lra.
Qed.

Lemma nothing_found_is_the_empty_state_no_results :
  summarize [] [] 1 2 "Jalan" =
    ({| overall := 0;
        subscores := subscores getEmptyLivabilityData;
        location := Some (mkLocation "Jalan" (2, 1));
        facilityCounts := facilityCounts getEmptyLivabilityData |},
     [], initialScores).
Proof.
  exact (nothing_found_is_the_empty_state [] [] 1 2 "Jalan" (Forall_nil_2 _) eq_refl).
Defined.

(** ** Cache keys, continued *)

Local Open Scope Z_scope.

Lemma toInt32_range (z : Z) : - 2 ^ 31 <= Cache.toInt32 z < 2 ^ 31.
Proof. unfold Cache.toInt32. pose proof (Z.mod_pos_bound (z + 2 ^ 31) (2 ^ 32)). lia. Qed.

Lemma toInt32_id (z : Z) : - 2 ^ 31 <= z < 2 ^ 31 → Cache.toInt32 z = z.
Proof. intros H. unfold Cache.toInt32. rewrite Z.mod_small; lia. Qed.

Lemma toInt32_congr (x y : Z) :
  x mod 2 ^ 32 = y mod 2 ^ 32 → Cache.toInt32 x = Cache.toInt32 y.
Proof.
  intros H. unfold Cache.toInt32.
  rewrite <- (Zplus_mod_idemp_l x), H, Zplus_mod_idemp_l. done.
Qed.

Lemma toInt32_mod (z : Z) : Cache.toInt32 z mod 2 ^ 32 = z mod 2 ^ 32.
Proof.
  unfold Cache.toInt32.
  rewrite <- Zminus_mod_idemp_l, Z.mod_mod by lia.
  rewrite Zminus_mod_idemp_l. f_equal. lia.
Qed.

Lemma hashStep_eq (h : Z) (c : ascii) :
  Cache.hashStep h c = Cache.toInt32 (31 * h + Z.of_nat (nat_of_ascii c)).
Proof.
  unfold Cache.hashStep. rewrite Z.land_diag. apply toInt32_congr.
  rewrite Z.shiftl_mul_pow2 by lia.
  rewrite <- Zplus_mod_idemp_l, <- Zminus_mod_idemp_l, toInt32_mod.
  rewrite <- Zmult_mod_idemp_l, toInt32_mod, Zmult_mod_idemp_l.
  rewrite Zminus_mod_idemp_l, Zplus_mod_idemp_l. f_equal. lia.
Qed.

Lemma hashLoop_polynomial (str : string) : ∀ h acc,
  h mod 2 ^ 32 = acc mod 2 ^ 32 →
  Cache.hashLoop h str mod 2 ^ 32 =
    fold_left (λ acc char, 31 * acc + Z.of_nat (nat_of_ascii char))
      (list_ascii_of_string str) acc mod 2 ^ 32.
Proof.
  induction str as [| c str IH]; intros h acc H; [done |].
  cbn [Cache.hashLoop list_ascii_of_string fold_left]. apply IH.
  rewrite hashStep_eq, toInt32_mod.
  rewrite <- Zplus_mod_idemp_l, <- Zmult_mod_idemp_r, H, Zmult_mod_idemp_r,
    Zplus_mod_idemp_l. done.
Qed.

Lemma hashLoop_range (str : string) : ∀ h,
  - 2 ^ 31 <= h < 2 ^ 31 → - 2 ^ 31 <= Cache.hashLoop h str < 2 ^ 31.
Proof.
  induction str as [| c str IH]; intros h H; [done |].
  cbn [Cache.hashLoop]. apply IH. rewrite hashStep_eq. apply toInt32_range.
Qed.

(** X16. The number that [cacheUtils.hash] prints is a signed 32-bit
    integer: the polynomial in 31 of the character codes of the string,
    wrapped to 32 bits, as each round [(hash << 5) - hash + char] is
    [31 * hash + char] wrapped.  The hash of the empty string is 0. *)
Theorem hash_is_wrapped_polynomial (str : string) :
  - 2 ^ 31 <= Cache.hashLoop 0 str < 2 ^ 31 ∧
  Cache.hashLoop 0 str = Cache.toInt32 (polynomial str) ∧
  Cache.hash str = pretty (Cache.toInt32 (polynomial str)) ∧
  Cache.hash "" = "0"%string.
Proof.
  assert (- 2 ^ 31 <= Cache.hashLoop 0 str < 2 ^ 31) as Hr
    by (apply hashLoop_range; lia).
  assert (Cache.hashLoop 0 str = Cache.toInt32 (polynomial str)) as He.
  { rewrite <- (toInt32_id _ Hr). apply toInt32_congr.
    by apply hashLoop_polynomial. }
  split; [exact Hr |]. split; [exact He |]. split; [| reflexivity].
  unfold Cache.hash. by rewrite He.
Qed.

(** X17. A category without a query of its own is sent the health query
    and so gets the cache key of health at every origin; accessibility,
    one of the ten categories, is such a category. *)
Theorem category_without_query_uses_health_key (c : string) (lat lng : Cache.Coord) :
  Cache.queries c = None →
  Cache.generateOverpassQuery c = Cache.generateOverpassQuery "health" ∧
  Cache.formattedQuery c lat lng = Cache.formattedQuery "health" lat lng ∧
  Cache.overpassKey c lat lng = Cache.overpassKey "health" lat lng.
Proof.
  intros H.
  assert (Cache.generateOverpassQuery c = Cache.generateOverpassQuery "health") as E.
  { unfold Cache.generateOverpassQuery. rewrite !FACILITY_DISTANCES_default.
    f_equal. rewrite H. reflexivity. }
  split; [exact E |].
  unfold Cache.overpassKey, Cache.formattedQuery. rewrite E. split; reflexivity.
Qed.

Lemma category_without_query_uses_health_key_accessibility :
  "accessibility" ∈ categories ∧
  Cache.queries "accessibility" = None ∧
  Cache.overpassKey "accessibility" (-6200100) 106816600 =
    Cache.overpassKey "health" (-6200100) 106816600.
Proof.
  split; [compute_done |]. split; [reflexivity |].
  exact (proj2 (proj2 (category_without_query_uses_health_key "accessibility"
                         (-6200100) 106816600 eq_refl))).
Defined.

Local Close Scope Z_scope.

(** ** The order of the parameters of a key *)

Lemma string_compare_trans (s1 : string) : ∀ s2 s3,
  String.compare s1 s2 ≠ Gt → String.compare s2 s3 ≠ Gt → String.compare s1 s3 ≠ Gt.
Proof.
  induction s1 as [| c1 s1 IH]; intros [| c2 s2] [| c3 s3]; cbn; try done.
  unfold Ascii.compare.
  destruct (N.compare_spec (N_of_ascii c1) (N_of_ascii c2)) as [E12 | L12 | G12];
    destruct (N.compare_spec (N_of_ascii c2) (N_of_ascii c3)) as [E23 | L23 | G23];
    destruct (N.compare_spec (N_of_ascii c1) (N_of_ascii c3)) as [E13 | L13 | G13];
    try done; try lia.
  apply IH.
Qed.

Lemma string_leb_trans (s1 s2 s3 : string) :
  String.leb s1 s2 = true → String.leb s2 s3 = true → String.leb s1 s3 = true.
Proof.
  unfold String.leb. intros H12 H23.
  pose proof (string_compare_trans s1 s2 s3) as H.
  destruct (String.compare s1 s2); try done;
    destruct (String.compare s2 s3); try done;
    destruct (String.compare s1 s3); try done; by exfalso; apply H.
Qed.

Lemma insertSorted_perm (p : string * string) (l : list (string * string)) :
  Cache.insertSorted p l ≡ₚ p :: l.
Proof.
  induction l as [| q l IH]; cbn; [done |].
  destruct (String.leb p.1 q.1); [done |]. rewrite IH. apply Permutation_swap.
Qed.

Lemma sortParams_perm (params : list (string * string)) :
  Cache.sortParams params ≡ₚ params.
Proof.
  induction params as [| p l IH]; cbn; [done |].
  rewrite insertSorted_perm. by constructor.
Qed.

Lemma insertSorted_sorted (p : string * string) (l : list (string * string)) :
  StronglySorted (λ a b, String.leb a.1 b.1 = true) l →
  StronglySorted (λ a b, String.leb a.1 b.1 = true) (Cache.insertSorted p l).
Proof.
  induction 1 as [| q l Hl IH Hq]; cbn; [by repeat constructor |].
  destruct (String.leb p.1 q.1) eqn:E.
  - constructor; [by constructor |]. constructor; [done |].
    eapply Forall_impl; [exact Hq |]. cbn. intros r Hr. by eapply string_leb_trans.
  - constructor; [done |]. rewrite insertSorted_perm. constructor; [| done].
    by destruct (String.leb_total p.1 q.1) as [H | H]; [congruence |].
Qed.

Lemma sortParams_sorted (params : list (string * string)) :
  StronglySorted (λ a b, String.leb a.1 b.1 = true) (Cache.sortParams params).
Proof.
  induction params as [| p l IH]; cbn; [constructor |]. by apply insertSorted_sorted.
Qed.

Lemma sorted_perm_eq (l1 : list (string * string)) : ∀ l2,
  StronglySorted (λ a b, String.leb a.1 b.1 = true) l1 →
  StronglySorted (λ a b, String.leb a.1 b.1 = true) l2 →
  l1 ≡ₚ l2 → NoDup l1.*1 → l1 = l2.
Proof.
  induction l1 as [| a l1 IH]; intros l2 H1 H2 Hperm Hnd.
  - by apply Permutation_nil_l in Hperm.
  - destruct l2 as [| b l2]; [by apply Permutation_nil_r in Hperm |].
    apply StronglySorted_inv in H1 as [H1 Ha]. apply StronglySorted_inv in H2 as [H2 Hb].
    rewrite Forall_forall in Ha, Hb. cbn in Hnd. apply NoDup_cons in Hnd as [Hna Hnd].
    assert (a = b) as <-.
    { assert (a ∈ b :: l2) as Hab by (rewrite <- Hperm; left).
      assert (b ∈ a :: l1) as Hba by (rewrite Hperm; left).
      apply elem_of_cons in Hab as [-> | Hab]; [done |].
      apply elem_of_cons in Hba as [-> | Hba]; [done |].
      exfalso. apply Hna. apply list_elem_of_fmap. exists b. split; [| done].
      apply String.leb_antisym; [by apply Ha | by apply Hb]. }
    f_equal. apply IH; try done. by eapply Permutation_cons_inv.
Qed.

(** X29. The key that [generateKey] makes does not depend on the order
    in which the parameters are given: two lists of parameters with the
    same entries, no property name twice, give the same key. *)
Theorem generateKey_ignores_order (prefix : string) (params params' : list (string * string)) :
  params ≡ₚ params' → NoDup params.*1 →
  Cache.generateKey prefix params = Cache.generateKey prefix params'.
Proof.
  intros Hperm Hnd. unfold Cache.generateKey.
  assert (Cache.sortParams params = Cache.sortParams params') as ->; [| done].
  apply sorted_perm_eq; try apply sortParams_sorted.
  - by rewrite !sortParams_perm.
  - by rewrite sortParams_perm.
Qed.

Lemma generateKey_ignores_order_lng_lat :
  Cache.generateKey "location-weather" [("lng", "106.817"); ("lat", "-6.200")]%string =
    Cache.generateKey "location-weather" [("lat", "-6.200"); ("lng", "106.817")]%string ∧
  Cache.generateKey "location-weather" [("lat", "-6.200"); ("lng", "106.817")]%string =
    "location-weather:lat:-6.200|lng:106.817"%string.
Proof.
  split; [| reflexivity].
  apply generateKey_ignores_order; [apply Permutation_swap | compute_done].
Defined.

(** ** The cache service *)

Lemma getStorageKey_inj (key key' : string) :
  CacheService.getStorageKey key = CacheService.getStorageKey key' → key = key'.
Proof.
  unfold CacheService.getStorageKey, CacheService.STORAGE_PREFIX. cbn.
  intros H. by simplify_eq.
Qed.

Lemma getStorageKey_isOwn (key : string) :
  CacheService.isOwn (CacheService.getStorageKey key) = true.
Proof.
  unfold CacheService.isOwn, CacheService.getStorageKey, CacheService.STORAGE_PREFIX.
  by destruct key; vm_compute.
Qed.

Lemma expired_true (now timestamp ttl : Z) :
  CacheService.expired now timestamp ttl = true ↔ (ttl < now - timestamp)%Z.
Proof. unfold CacheService.expired. apply Z.ltb_lt. Qed.

Lemma expired_false (now timestamp ttl : Z) :
  CacheService.expired now timestamp ttl = false ↔ (now - timestamp <= ttl)%Z.
Proof. unfold CacheService.expired. rewrite Z.ltb_ge. done. Qed.

(** X18. What [set] writes, [get] reads until the entry expires.  When
    the storage has room for the entry, [set] stores it under the
    prefixed key and changes no other key; [get] of the key then returns
    the data and leaves the storage as it is as long as no more than
    [ttl] ms have passed, the boundary included, and returns [null] and
    removes the entry afterwards. *)
Theorem set_then_get {D : Type} (fits : CacheService.Storage D → bool) (key : string)
    (data : option D) (ttl now pruneTime later : Z) (storage : CacheService.Storage D) :
  let storageKey := CacheService.getStorageKey key in
  let entry := CacheService.Entry data now ttl in
  let storage' := CacheService.set fits key data ttl now pruneTime storage in
  fits (<[storageKey := entry]> storage) = true →
  storage' = <[storageKey := entry]> storage ∧
  ((later - now <= ttl)%Z → CacheService.get key later storage' = (data, storage')) ∧
  ((ttl < later - now)%Z →
     CacheService.get key later storage' = (None, base.delete storageKey storage')) ∧
  (∀ key' t, key' ≠ key →
     (CacheService.get key' t storage').1 = (CacheService.get key' t storage).1).
Proof.
  intros storageKey entry storage' Hfits.
  assert (storage' = <[storageKey := entry]> storage) as ->.
  { unfold storage', CacheService.set, CacheService.setItem. cbv zeta.
    fold storageKey entry. by rewrite Hfits. }
  split; [done |]. unfold CacheService.get. cbv zeta. fold storageKey.
  rewrite lookup_insert_eq. unfold entry. split; [| split].
  - intros H. apply expired_false in H. by rewrite H.
  - intros H. apply expired_true in H. by rewrite H.
  - intros key' t Hne. rewrite lookup_insert_ne.
    + destruct (storage !! CacheService.getStorageKey key') as [[d ts l |] |];
        [| done | done]. by destruct (CacheService.expired t ts l).
    + intros E. by apply getStorageKey_inj in E.
Qed.

Lemma set_then_get_fresh :
  let storage' := CacheService.set (λ _, true) "search:query:depok" (Some 7%nat)
                    600000 1000 1000 ∅ in
  CacheService.get "search:query:depok" 601000 storage' = (Some 7%nat, storage') ∧
  (CacheService.get "search:query:depok" 601001 storage').1 = None.
Proof.
  intros storage'.
  destruct (set_then_get (λ _, true) "search:query:depok" (Some 7%nat)
              600000 1000 1000 601000 ∅ eq_refl) as (_ & H1 & _).
  destruct (set_then_get (λ _, true) "search:query:depok" (Some 7%nat)
              600000 1000 1000 601001 ∅ eq_refl) as (_ & _ & H2 & _).
  split; [apply H1; lia |]. unfold storage'. rewrite H2 by lia. done.
Defined.

(** X19. [get] never returns expired data and never changes another
    key.  Data that it returns belongs to an entry under the prefixed
    key that is not older than its [ttl], and the storage is left as it
    is.  When it returns [null], the storage is as it was, or the entry
    was expired and is removed; a text that does not parse gives [null]
    and stays in the storage. *)
Theorem get_returns_unexpired {D : Type} (key : string) (now : Z)
    (storage : CacheService.Storage D) :
  let storageKey := CacheService.getStorageKey key in
  let result := CacheService.get key now storage in
  (∀ data, result.1 = Some data →
     result.2 = storage ∧
     ∃ timestamp ttl,
       storage !! storageKey = Some (CacheService.Entry (Some data) timestamp ttl) ∧
       (now - timestamp <= ttl)%Z) ∧
  (result.2 = storage ∨
   result.1 = None ∧ result.2 = base.delete storageKey storage ∧
   ∃ data timestamp ttl,
     storage !! storageKey = Some (CacheService.Entry data timestamp ttl) ∧
     (ttl < now - timestamp)%Z) ∧
  (storage !! storageKey = Some CacheService.Corrupt → result = (None, storage)) ∧
  (storage !! storageKey = None → result = (None, storage)) ∧
  (∀ k, k ≠ storageKey → result.2 !! k = storage !! k).
Proof.
  intros storageKey result. unfold result, CacheService.get. cbv zeta. fold storageKey.
  destruct (storage !! storageKey) as [[data timestamp ttl |] |] eqn:E; cbn [fst snd];
    try (split; [done |]; split; [by left |]; by repeat split).
  destruct (CacheService.expired now timestamp ttl) eqn:X; cbn [fst snd].
  - apply expired_true in X. split; [done |]. split; [| split; [done | split; [done |]]].
    + right. split; [done |]. split; [done |]. by exists data, timestamp, ttl.
    + intros k Hk. by rewrite lookup_delete_ne.
  - apply expired_false in X. split; [| split; [by left | by repeat split]].
    intros d ->. split; [done |]. by exists timestamp, ttl.
Qed.

(** *** [prune] *)

Lemma insertByTimestamp_perm (e : string * Z) (l : list (string * Z)) :
  CacheService.insertByTimestamp e l ≡ₚ e :: l.
Proof.
  induction l as [| e' l IH]; cbn; [done |].
  destruct (e.2 <=? e'.2)%Z; [done |]. rewrite IH. apply Permutation_swap.
Qed.

Lemma sortByTimestamp_perm (l : list (string * Z)) :
  CacheService.sortByTimestamp l ≡ₚ l.
Proof.
  induction l as [| e l IH]; cbn; [done |].
  rewrite insertByTimestamp_perm. by constructor.
Qed.

Lemma insertByTimestamp_sorted (e : string * Z) (l : list (string * Z)) :
  StronglySorted (λ a b, a.2 <= b.2)%Z l →
  StronglySorted (λ a b, a.2 <= b.2)%Z (CacheService.insertByTimestamp e l).
Proof.
  induction 1 as [| e' l Hl IH He']; cbn; [by repeat constructor |].
  destruct (Z.leb_spec e.2 e'.2) as [Hle | Hgt].
  - constructor; [by constructor |]. constructor; [done |].
    eapply Forall_impl; [exact He' |]. cbn. intros. lia.
  - constructor; [done |]. rewrite insertByTimestamp_perm.
    constructor; [lia | done].
Qed.

Lemma sortByTimestamp_sorted (l : list (string * Z)) :
  StronglySorted (λ a b, a.2 <= b.2)%Z (CacheService.sortByTimestamp l).
Proof.
  induction l as [| e l IH]; cbn; [constructor |].
  by apply insertByTimestamp_sorted.
Qed.

Lemma sorted_take_drop (l : list (string * Z)) (m : nat) (a b : string * Z) :
  StronglySorted (λ a b, a.2 <= b.2)%Z l →
  a ∈ take m l → b ∈ drop m l → (a.2 <= b.2)%Z.
Proof.
  intros Hl. revert m. induction Hl as [| e l Hl IH He]; intros m Ha Hb.
  - rewrite take_nil in Ha. by apply elem_of_nil in Ha.
  - destruct m as [| m]; cbn in Ha, Hb; [by apply elem_of_nil in Ha |].
    apply elem_of_cons in Ha as [-> | Ha]; [| by eapply IH].
    rewrite Forall_forall in He. apply He.
    rewrite <- (take_drop m l). apply elem_of_app. by right.
Qed.

Lemma elem_of_keys {D : Type} (storage : CacheService.Storage D) (k : string) :
  k ∈ List.filter CacheService.isOwn (map_to_list storage).*1 ↔
  CacheService.isOwn k = true ∧ is_Some (storage !! k).
Proof.
  rewrite list_elem_of_In, filter_In, <- list_elem_of_In, list_elem_of_fmap.
  split.
  - intros [([k' item] & -> & H) Hown]. apply elem_of_map_to_list in H.
    split; [done | by eexists].
  - intros [Hown [item H]]. split; [| done]. exists (k, item). split; [done |].
    by apply elem_of_map_to_list.
Qed.

Lemma NoDup_keys {D : Type} (storage : CacheService.Storage D) :
  NoDup (List.filter CacheService.isOwn (map_to_list storage).*1).
Proof.
  apply NoDup_ListNoDup, List.NoDup_filter, NoDup_ListNoDup, NoDup_fst_map_to_list.
Qed.

Lemma validEntry_delete {D : Type} (now : Z) (storage : CacheService.Storage D)
    (k : string) (ks : list string) :
  k ∉ ks →
  omap (CacheService.validEntry now (delete k storage)) ks =
    omap (CacheService.validEntry now storage) ks.
Proof.
  induction ks as [| k' ks IH]; intros Hk; [done |].
  apply not_elem_of_cons in Hk as [Hne Hk]. cbn.
  rewrite IH by done. unfold CacheService.validEntry.
  by rewrite lookup_delete_ne.
Qed.

Lemma checkExpiry_fold {D : Type} (now : Z) (ks : list string) :
  ∀ (valid0 : list (string * Z)) (st0 : CacheService.Storage D),
  NoDup ks →
  let r := fold_left (CacheService.checkExpiry now) ks (valid0, st0) in
  r.1 = valid0 ++ omap (CacheService.validEntry now st0) ks ∧
  ∀ k, r.2 !! k =
       if decide (k ∈ ks)
       then st0 !! k ≫= (λ item, if CacheService.live now item then Some item else None)
       else st0 !! k.
Proof.
  induction ks as [| k0 ks IH]; intros valid0 st0 Hnd; cbn [fold_left].
  - cbn. rewrite app_nil_r. split; [done |]. intros k. by rewrite decide_False by apply not_elem_of_nil.
  - apply NoDup_cons in Hnd as [Hk0 Hnd].
    assert (∃ valid1 st1,
      CacheService.checkExpiry now (valid0, st0) k0 = (valid1, st1) ∧
      valid1 = valid0 ++ from_option (λ e, [e]) [] (CacheService.validEntry now st0 k0) ∧
      st1 !! k0 = (st0 !! k0 ≫=
                     (λ item, if CacheService.live now item then Some item else None)) ∧
      (∀ k, k ≠ k0 → st1 !! k = st0 !! k) ∧
      omap (CacheService.validEntry now st1) ks =
        omap (CacheService.validEntry now st0) ks) as (valid1 & st1 & -> & -> & H0 & Hne & Hv).
    { unfold CacheService.checkExpiry, CacheService.validEntry, CacheService.live.
      destruct (st0 !! k0) as [[d ts ttl |] |] eqn:E0; cbn.
      - destruct (CacheService.expired now ts ttl); cbn; eexists _, _;
          (split; [done |]); rewrite ?app_nil_r;
          (split; [done |]); rewrite ?lookup_delete_eq;
          (split; [done |]).
        + split; [intros k Hk; by rewrite lookup_delete_ne |].
          by apply validEntry_delete.
        + done.
      - eexists _, _. split; [done |]. rewrite app_nil_r, lookup_delete_eq.
        split; [done |]. split; [done |].
        split; [intros k Hk; by rewrite lookup_delete_ne |]. by apply validEntry_delete.
      - eexists _, _. split; [done |]. rewrite app_nil_r, E0. done. }
    destruct (IH (valid0 ++ from_option (λ e, [e]) [] (CacheService.validEntry now st0 k0))
                st1 Hnd) as [E1 E2].
    cbv zeta in *. split.
    + rewrite E1, <- app_assoc, Hv. f_equal. cbn [omap list_omap].
      by destruct (CacheService.validEntry now st0 k0).
    + intros k. rewrite E2. destruct (decide (k = k0)) as [-> | Hk].
      * rewrite decide_False by done. rewrite decide_True by left. done.
      * rewrite Hne by done. destruct (decide (k ∈ ks)).
        -- by rewrite decide_True by (by right).
        -- rewrite decide_False; [done |]. by intros [? | ?]%elem_of_cons.
Qed.

Lemma delete_fold {D : Type} (l : list (string * Z)) :
  ∀ (storage : CacheService.Storage D) (k : string),
  fold_left (λ storage entry, delete entry.1 storage) l storage !! k =
    if decide (k ∈ l.*1) then None else storage !! k.
Proof.
  induction l as [| e l IH]; intros storage k; cbn [fold_left].
  - by rewrite decide_False by apply not_elem_of_nil.
  - rewrite IH. cbn [fmap list_fmap]. destruct (decide (k ∈ l.*1)).
    + by rewrite decide_True by (by right).
    + destruct (decide (k = e.1)) as [-> | Hne].
      * rewrite lookup_delete_eq. by rewrite decide_True by left.
      * rewrite lookup_delete_ne by done. rewrite decide_False; [done |].
        by intros [? | ?]%elem_of_cons.
Qed.

Lemma length_omap_le {A B : Type} (f : A → option B) (l : list A) :
  (length (omap f l) <= length l)%nat.
Proof.
  induction l as [| x l IH]; cbn; [done |]. destruct (f x); cbn; lia.
Qed.

Lemma prune_lookup {D : Type} (now : Z) (storage : CacheService.Storage D) :
  let keys := List.filter CacheService.isOwn (map_to_list storage).*1 in
  let valid := omap (CacheService.validEntry now storage) keys in
  let toRemove :=
    if (CacheService.maxSize <? length valid)%nat
    then take (length valid - CacheService.maxSize) (CacheService.sortByTimestamp valid)
    else [] in
  ∀ k, CacheService.prune now storage !! k =
       if decide (k ∈ toRemove.*1) then None
       else if decide (k ∈ keys)
            then storage !! k ≫=
                   (λ item, if CacheService.live now item then Some item else None)
            else storage !! k.
Proof.
  intros keys valid toRemove k. unfold CacheService.prune. fold keys.
  destruct (checkExpiry_fold now keys [] storage (NoDup_keys storage)) as [E1 E2].
  destruct (fold_left (CacheService.checkExpiry now) keys ([], storage))
    as [validEntries storage1].
  cbn [fst snd app] in E1, E2. subst validEntries. fold valid. unfold toRemove.
  destruct (CacheService.maxSize <? length valid)%nat.
  - rewrite delete_fold. by rewrite E2.
  - rewrite decide_False by apply not_elem_of_nil. apply E2.
Qed.

Lemma elem_of_valid {D : Type} (now : Z) (storage : CacheService.Storage D)
    (k : string) (timestamp : Z) :
  (k, timestamp) ∈
    omap (CacheService.validEntry now storage)
      (List.filter CacheService.isOwn (map_to_list storage).*1) ↔
  CacheService.isOwn k = true ∧
  ∃ data ttl, storage !! k = Some (CacheService.Entry data timestamp ttl) ∧
              (now - timestamp <= ttl)%Z.
Proof.
  rewrite list_elem_of_omap. split.
  - intros (k' & Hk' & Hv). apply elem_of_keys in Hk' as [Hown _].
    unfold CacheService.validEntry in Hv.
    destruct (storage !! k') as [[d ts ttl |] |] eqn:E; try done.
    destruct (CacheService.expired now ts ttl) eqn:X; [done |].
    simplify_eq. apply expired_false in X. split; [done |]. by exists d, ttl.
  - intros (Hown & d & ttl & E & X). exists k. split.
    + apply elem_of_keys. split; [done | by eexists].
    + unfold CacheService.validEntry. rewrite E.
      apply expired_false in X. by rewrite X.
Qed.

(** X20. [prune] removes and never adds or changes: what is left is
    part of the storage.  Keys without the prefix are not touched.  Of
    the keys with the prefix only entries that are not expired are left
    (expired entries and texts that do not parse are removed), and at
    most 100 of them; when entries that are not expired are removed, no
    removed one is newer than one that is left.  When the storage holds
    at most 100 keys with the prefix, every entry that is not expired is
    left. *)
Theorem prune_keeps_the_newest {D : Type} (now : Z) (storage : CacheService.Storage D) :
  let pruned := CacheService.prune now storage in
  pruned ⊆ storage ∧
  (∀ k, CacheService.isOwn k = false → pruned !! k = storage !! k) ∧
  (∀ k item, CacheService.isOwn k = true → pruned !! k = Some item →
     ∃ data timestamp ttl,
       item = CacheService.Entry data timestamp ttl ∧ (now - timestamp <= ttl)%Z) ∧
  (CacheService.statsSize pruned <= CacheService.maxSize)%nat ∧
  (∀ k data timestamp ttl k' data' timestamp' ttl',
     CacheService.isOwn k = true →
     storage !! k = Some (CacheService.Entry data timestamp ttl) →
     (now - timestamp <= ttl)%Z →
     pruned !! k = None →
     CacheService.isOwn k' = true →
     pruned !! k' = Some (CacheService.Entry data' timestamp' ttl') →
     (timestamp <= timestamp')%Z) ∧
  ((CacheService.statsSize storage <= CacheService.maxSize)%nat →
   ∀ k data timestamp ttl,
     storage !! k = Some (CacheService.Entry data timestamp ttl) →
     (now - timestamp <= ttl)%Z →
     pruned !! k = Some (CacheService.Entry data timestamp ttl)).
Proof.
  intros pruned. pose proof (prune_lookup now storage) as Hp. cbv zeta in Hp.
  fold pruned in Hp.
  set (keys := List.filter CacheService.isOwn (map_to_list storage).*1) in *.
  set (valid := omap (CacheService.validEntry now storage) keys) in *.
  set (toRemove :=
         if (CacheService.maxSize <? length valid)%nat
         then take (length valid - CacheService.maxSize)
                (CacheService.sortByTimestamp valid)
         else []) in *.
  set (kept :=
         if (CacheService.maxSize <? length valid)%nat
         then drop (length valid - CacheService.maxSize)
                (CacheService.sortByTimestamp valid)
         else valid).
  assert (toRemove ++ kept ≡ₚ valid) as Hperm.
  { unfold toRemove, kept. destruct (CacheService.maxSize <? length valid)%nat; [| done].
    rewrite take_drop. apply sortByTimestamp_perm. }
  assert (length kept <= CacheService.maxSize)%nat as Hkept.
  { unfold kept. destruct (Nat.ltb_spec CacheService.maxSize (length valid)); [| done].
    rewrite length_drop, (Permutation_length (sortByTimestamp_perm valid)). lia. }
  assert (∀ k item, pruned !! k = Some item → storage !! k = Some item) as Hsub.
  { intros k item. rewrite Hp. repeat case_decide; try done.
    destruct (storage !! k) as [item' |]; [| done]. cbn.
    by destruct (CacheService.live now item'). }
  assert (∀ k item, CacheService.isOwn k = true → pruned !! k = Some item →
            ∃ data timestamp ttl,
              item = CacheService.Entry data timestamp ttl ∧
              (now - timestamp <= ttl)%Z ∧ (k, timestamp) ∈ kept) as Hown.
  { intros k item Hk H. pose proof (Hsub k item H) as Hs. rewrite Hp in H.
    destruct (decide (k ∈ toRemove.*1)) as [| Hrem]; [done |].
    rewrite decide_True in H by (apply elem_of_keys; split; [done | by eexists]).
    rewrite Hs in H. cbn in H. unfold CacheService.live in H.
    destruct item as [d ts ttl |]; [| done].
    destruct (CacheService.expired now ts ttl) eqn:X; [done |].
    apply expired_false in X. exists d, ts, ttl. split; [done |]. split; [done |].
    assert ((k, ts) ∈ valid) as Hv by (apply elem_of_valid; split; [done | by exists d, ttl]).
    rewrite <- Hperm in Hv. apply elem_of_app in Hv as [Hv | Hv]; [| done].
    exfalso. apply Hrem. apply list_elem_of_fmap. by exists (k, ts). }
  split; [| split; [| split; [| split; [| split]]]].
  - apply map_subseteq_spec. exact Hsub.
  - intros k Hk. rewrite Hp.
    assert (k ∉ keys) as Hnk.
    { intros [Hown' _]%elem_of_keys. congruence. }
    rewrite (decide_False (P := k ∈ keys)) by done.
    rewrite decide_False; [done |].
    intros ([k' ts] & -> & Hin)%list_elem_of_fmap.
    assert ((k', ts) ∈ valid) as Hv.
    { rewrite <- Hperm. apply elem_of_app. by left. }
    apply elem_of_valid in Hv as [Hown' _]. cbn [fst] in Hk. congruence.
  - intros k item Hk H. destruct (Hown k item Hk H) as (d & ts & ttl & -> & X & _).
    by exists d, ts, ttl.
  - unfold CacheService.statsSize. etrans; [| exact Hkept].
    rewrite <- (length_fmap fst kept).
    apply NoDup_incl_length; [apply NoDup_ListNoDup, NoDup_keys |].
    intros k Hk. apply list_elem_of_In in Hk. apply list_elem_of_In.
    apply elem_of_keys in Hk as [Hk [item H]].
    destruct (Hown k item Hk H) as (d & ts & ttl & _ & _ & Hin).
    apply list_elem_of_fmap. by exists (k, ts).
  - intros k d ts ttl k' d' ts' ttl' Hk Hs X Hgone Hk' H'.
    destruct (Hown k' _ Hk' H') as (? & ? & ? & [= <- <- <-] & _ & Hin').
    assert ((k, ts) ∈ valid) as Hv by (apply elem_of_valid; split; [done | by exists d, ttl]).
    assert ((k, ts) ∈ toRemove) as Hin.
    { destruct (decide (k ∈ toRemove.*1)) as [Hrem | Hrem].
      - apply list_elem_of_fmap in Hrem as ([k0 ts0] & Hk0 & Hrem). cbn in Hk0. subst k0.
        assert ((k, ts0) ∈ valid) as Hv0.
        { rewrite <- Hperm. apply elem_of_app. by left. }
        apply elem_of_valid in Hv0 as (_ & d0 & ttl0 & E0 & _).
        rewrite Hs in E0. by simplify_eq.
      - exfalso. rewrite Hp in Hgone. rewrite decide_False in Hgone by done.
        rewrite decide_True in Hgone by (apply elem_of_keys; split; [done | by eexists]).
        rewrite Hs in Hgone. cbn in Hgone. unfold CacheService.live in Hgone.
        apply expired_false in X. by rewrite X in Hgone. }
    unfold toRemove, kept in Hin, Hin'.
    destruct (CacheService.maxSize <? length valid)%nat; [| by apply elem_of_nil in Hin].
    exact (sorted_take_drop _ _ (k, ts) (k', ts') (sortByTimestamp_sorted valid) Hin Hin').
  - intros Hsize k d ts ttl Hs X. rewrite Hp.
    assert (toRemove = []) as ->.
    { unfold toRemove. destruct (Nat.ltb_spec CacheService.maxSize (length valid)); [| done].
      exfalso. unfold CacheService.statsSize in Hsize. fold keys in Hsize.
      pose proof (length_omap_le (CacheService.validEntry now storage) keys).
      fold valid in H0. lia. }
    rewrite decide_False by apply not_elem_of_nil.
    rewrite Hs. cbn. unfold CacheService.live.
    apply expired_false in X. rewrite X. by case_decide.
Qed.

(** *** [cacheAPI], [delete] and [clear] *)

(** X21. [cacheAPI] calls [fetchFn] on a miss only.  After a miss, an
    error of [fetchFn] is thrown on and nothing is stored.  Data that
    is fetched and stored is returned by a second call within [ttl]
    whatever [fetchFn] would do then, and the storage stays as it is.
    A fetched [null] is stored as well, but it is never a hit: the
    second call fetches again. *)
Theorem cacheAPI_fetches_on_miss_only {D : Type} (fits : CacheService.Storage D → bool)
    (key : string) (ttl getTime setTime pruneTime later t2 t3 : Z)
    (storage : CacheService.Storage D) :
  let storageKey := CacheService.getStorageKey key in
  let storage1 := (CacheService.get key getTime storage).2 in
  (CacheService.get key getTime storage).1 = None →
  (later - setTime <= ttl)%Z →
  (∀ error,
     CacheService.cacheAPI fits key (inl error) ttl getTime setTime pruneTime storage =
       (inl error, storage1)) ∧
  (∀ data,
     fits (<[storageKey := CacheService.Entry (Some data) setTime ttl]> storage1) = true →
     ∃ storage2,
       CacheService.cacheAPI fits key (inr (Some data)) ttl getTime setTime pruneTime
         storage = (inr (Some data), storage2) ∧
       storage2 !! storageKey = Some (CacheService.Entry (Some data) setTime ttl) ∧
       ∀ fetched,
         CacheService.cacheAPI fits key fetched ttl later t2 t3 storage2 =
           (inr (Some data), storage2)) ∧
  (fits (<[storageKey := CacheService.Entry None setTime ttl]> storage1) = true →
   ∃ storage2,
     CacheService.cacheAPI fits key (inr None) ttl getTime setTime pruneTime storage =
       (inr None, storage2) ∧
     ∀ data,
       (CacheService.cacheAPI fits key (inr data) ttl later t2 t3 storage2).1 = inr data).
Proof.
  intros storageKey storage1 Hmiss Hlater. unfold CacheService.cacheAPI.
  subst storage1. destruct (CacheService.get key getTime storage) as [cached storage1].
  cbn [fst snd] in *. subst cached. split; [done |].
  apply expired_false in Hlater.
  split; [intros data Hfits | intros Hfits]; eexists; (split; [reflexivity |]);
    unfold CacheService.set, CacheService.setItem; cbv zeta; fold storageKey;
    rewrite Hfits.
  - split; [apply lookup_insert_eq |]. intros fetched.
    unfold CacheService.get. cbv zeta. fold storageKey.
    by rewrite lookup_insert_eq, Hlater.
  - intros data. unfold CacheService.get at 1. cbv zeta. fold storageKey.
    by rewrite lookup_insert_eq, Hlater.
Qed.

Lemma cacheAPI_fetches_on_miss_only_twice :
  ∃ storage2 : CacheService.Storage nat,
    CacheService.cacheAPI (λ _, true) "search:query:depok" (inr (Some 7%nat))
      600000 1000 1200 1200 ∅ = (inr (Some 7%nat), storage2) ∧
    CacheService.cacheAPI (λ _, true) "search:query:depok" (inl "offline"%string)
      600000 2000 2000 2000 storage2 = (inr (Some 7%nat), storage2).
Proof.
  assert ((CacheService.get (D := nat) "search:query:depok" 1000 ∅).1 = None) as Hmiss.
  { unfold CacheService.get. cbv zeta. by rewrite lookup_empty. }
  destruct (cacheAPI_fetches_on_miss_only (D := nat) (λ _, true) "search:query:depok"
              600000 1000 1200 1200 2000 2000 2000 ∅ Hmiss)
    as (_ & H & _); [lia |].
  destruct (H 7%nat eq_refl) as (storage2 & E & _ & E').
  exists storage2. split; [exact E | exact (E' (inl "offline"%string))].
Defined.

Lemma delete_keys_fold {D : Type} (ks : list string) :
  ∀ (storage : CacheService.Storage D) (k : string),
  fold_left (λ storage k, delete k storage) ks storage !! k =
    if decide (k ∈ ks) then None else storage !! k.
Proof.
  induction ks as [| k0 ks IH]; intros storage k; cbn [fold_left].
  - by rewrite decide_False by apply not_elem_of_nil.
  - rewrite IH. destruct (decide (k ∈ ks)).
    + by rewrite decide_True by (by right).
    + destruct (decide (k = k0)) as [-> | Hne].
      * rewrite lookup_delete_eq. by rewrite decide_True by left.
      * rewrite lookup_delete_ne by done. rewrite decide_False; [done |].
        by intros [? | ?]%elem_of_cons.
Qed.

(** X22. [delete] removes the entry of a key and no other: a lookup of
    the key finds nothing afterwards and every other lookup finds what
    it found before.  [clear] removes every key with the prefix and no
    other key, so that no lookup finds anything and the size that
    [getStats] reports is 0. *)
Theorem delete_and_clear {D : Type} (key : string) (now : Z)
    (storage : CacheService.Storage D) :
  let deleted := (CacheService.delete key storage).2 in
  let cleared := CacheService.clear storage in
  (CacheService.delete key storage).1 = true ∧
  CacheService.get key now deleted = (None, deleted) ∧
  (∀ key', key' ≠ key →
     (CacheService.get key' now deleted).1 = (CacheService.get key' now storage).1) ∧
  (∀ k, CacheService.isOwn k = false →
     deleted !! k = storage !! k ∧ cleared !! k = storage !! k) ∧
  (∀ k, CacheService.isOwn k = true → cleared !! k = None) ∧
  (∀ key', CacheService.get key' now cleared = (None, cleared)) ∧
  CacheService.statsSize cleared = 0%nat.
Proof.
  intros deleted cleared.
  assert (∀ k, cleared !! k =
               if CacheService.isOwn k then None else storage !! k) as Hc.
  { intros k. unfold cleared, CacheService.clear. rewrite delete_keys_fold.
    destruct (CacheService.isOwn k) eqn:Hk.
    - case_decide as H; [done |]. destruct (storage !! k) eqn:E; [| done].
      exfalso. apply H, elem_of_keys. split; [done | by eexists].
    - rewrite decide_False; [done |]. intros [? _]%elem_of_keys. congruence. }
  split; [done |]. split; [| split; [| split; [| split; [| split]]]].
  - unfold CacheService.get, deleted, CacheService.delete. cbn [snd].
    by rewrite lookup_delete_eq.
  - intros key' Hne. unfold CacheService.get, deleted, CacheService.delete. cbn [snd].
    rewrite lookup_delete_ne by (intros E; by apply getStorageKey_inj in E).
    destruct (storage !! CacheService.getStorageKey key') as [[d ts l |] |];
      [| done | done]. by destruct (CacheService.expired now ts l).
  - intros k Hk. split; [| by rewrite Hc, Hk].
    unfold deleted, CacheService.delete. cbn [snd]. apply lookup_delete_ne.
    intros <-. by rewrite getStorageKey_isOwn in Hk.
  - intros k Hk. by rewrite Hc, Hk.
  - intros key'. unfold CacheService.get. by rewrite Hc, getStorageKey_isOwn.
  - unfold CacheService.statsSize.
    destruct (List.filter CacheService.isOwn (map_to_list cleared).*1) as [| k l] eqn:E;
      [done |].
    assert (k ∈ List.filter CacheService.isOwn (map_to_list cleared).*1) as Hk
      by (rewrite E; left).
    apply elem_of_keys in Hk as [Hk [item H]]. by rewrite Hc, Hk in H.
Qed.

(** ** The store of custom points *)

Lemma getAllPOIs_Some (pois : list PoiStore.StoredPOI) : PoiStore.getAllPOIs (Some pois) = pois.
Proof. reflexivity. Qed.

Lemma find_app_Some {A : Type} (p : A → bool) (l1 l2 : list A) (x : A) :
  List.find p l1 = Some x → List.find p (l1 ++ l2) = Some x.
Proof.
  induction l1 as [| y l1 IH]; [done |]. cbn. by destruct (p y).
Qed.

Lemma find_app_None {A : Type} (p : A → bool) (l1 l2 : list A) :
  List.find p l1 = None → List.find p (l1 ++ l2) = List.find p l2.
Proof.
  induction l1 as [| y l1 IH]; [done |]. cbn. by destruct (p y).
Qed.

Lemma find_filter_other {A : Type} (p q : A → bool) (l : list A) :
  (∀ x, p x = true → q x = true) →
  List.find p (List.filter q l) = List.find p l.
Proof.
  intros H. induction l as [| x l IH]; [done |]. cbn.
  destruct (q x) eqn:Q; cbn; destruct (p x) eqn:P; try done.
  apply H in P. congruence.
Qed.

Lemma find_filter_none {A : Type} (p : A → bool) (l : list A) :
  List.find p (List.filter (λ x, negb (p x)) l) = None.
Proof.
  induction l as [| x l IH]; [done |]. cbn.
  destruct (p x) eqn:P; cbn; [done |]. by rewrite P.
Qed.

Lemma filter_length_eq {A : Type} (q : A → bool) (l : list A) :
  length (List.filter q l) = length l ↔ Forall (λ x, q x = true) l.
Proof.
  induction l as [| x l IH]; cbn; [by split; [constructor |] |].
  pose proof (List.filter_length_le q l) as Hle.
  destruct (q x) eqn:Q; cbn.
  - split.
    + intros [= H]. constructor; [done | by apply IH].
    + inversion 1; subst. f_equal. by apply IH.
  - split; [lia |]. inversion 1; subst. congruence.
Qed.

(** X23. [deletePOI] answers [true] exactly when the store holds a point
    with the id.  When it answers [false] the store is as before.  When
    it answers [true] and the write succeeds, all points with the id are
    gone, the other points are kept in their order, so a lookup of the
    id finds nothing and the lookup of any other id finds what it found
    before; when the write fails the store is as before although the
    answer is [true]. *)
Theorem deletePOI_removes_the_id (fits : list PoiStore.StoredPOI → bool) (id : string)
    (store : PoiStore.Store) :
  let filtered :=
    List.filter (λ p, negb (String.eqb (PoiStore.idOf p) id)) (PoiStore.getAllPOIs store) in
  let result := PoiStore.deletePOI fits id store in
  (result.1 = true ↔ ∃ p, p ∈ PoiStore.getAllPOIs store ∧ PoiStore.idOf p = id) ∧
  (result.1 = false → result.2 = store) ∧
  (result.1 = true → fits filtered = false → result.2 = store) ∧
  (result.1 = true → fits filtered = true →
     PoiStore.getAllPOIs result.2 = filtered ∧
     PoiStore.getPOIById id result.2 = None ∧
     ∀ id', id' ≠ id → PoiStore.getPOIById id' result.2 = PoiStore.getPOIById id' store).
Proof.
  intros filtered result. unfold result, PoiStore.deletePOI. fold filtered.
  destruct (Nat.eqb_spec (length filtered) (length (PoiStore.getAllPOIs store))) as [E | E];
    cbn [fst snd].
  - split; [| by repeat split].
    split; [done |]. intros (p & Hp & Hid).
    apply filter_length_eq in E. rewrite Forall_forall in E.
    specialize (E p Hp). cbn in E. apply negb_true_iff in E.
    rewrite <- Hid in E. by rewrite String.eqb_refl in E.
  - split; [| split; [done |]].
    + split; [| done]. intros _.
      destruct (decide (Forall (λ p, negb (String.eqb (PoiStore.idOf p) id) = true)
                          (PoiStore.getAllPOIs store))) as [H | H].
      * by apply filter_length_eq in H.
      * apply not_Forall_Exists in H; [| intros x; apply _].
        apply Exists_exists in H as (p & Hp & Hne). exists p. split; [done |].
        apply not_true_is_false, negb_false_iff in Hne. by apply String.eqb_eq.
    + unfold PoiStore.savePOIs. split; intros _ Hfits; rewrite Hfits; [done |].
      unfold PoiStore.getPOIById. rewrite !getAllPOIs_Some. split; [done |]. split.
      * apply find_filter_none.
      * intros id' Hid'. apply find_filter_other. intros p Hp.
        apply String.eqb_eq in Hp. apply negb_true_iff, String.eqb_neq. congruence.
Qed.

Lemma findIndex_find {A : Type} (p : A → bool) (l : list A) (i : nat) :
  JS.findIndex p l = Some i → List.find p l = l !! i.
Proof.
  revert i. induction l as [| x l IH]; intros i; cbn; [done |].
  destruct (p x); [by intros [= <-] |].
  rewrite fmap_Some. intros (j & Hj & ->). by apply IH.
Qed.

Lemma findIndex_find_None {A : Type} (p : A → bool) (l : list A) :
  JS.findIndex p l = None → List.find p l = None.
Proof.
  induction l as [| x l IH]; cbn; [done |].
  destruct (p x); [done |]. rewrite fmap_None. exact IH.
Qed.

Lemma find_insert_first {A : Type} (p : A → bool) (l : list A) (i : nat) (x' : A) :
  JS.findIndex p l = Some i → p x' = true → List.find p (<[i := x']> l) = Some x'.
Proof.
  revert i. induction l as [| x l IH]; intros i; cbn; [done |].
  destruct (p x) eqn:P.
  - intros [= <-] Hx'. cbn. by rewrite Hx'.
  - rewrite fmap_Some. intros (j & Hj & ->) Hx'. cbn. rewrite P. by apply IH.
Qed.

Lemma find_insert_other {A : Type} (q : A → bool) (l : list A) (i : nat) (x x' : A) :
  l !! i = Some x → q x = false → q x' = false →
  List.find q (<[i := x']> l) = List.find q l.
Proof.
  revert i. induction l as [| y l IH]; intros i; [done |].
  destruct i as [| i]; cbn.
  - intros [= ->] -> ->. done.
  - intros Hi Hx Hx'. destruct (q y); [done |]. by apply IH.
Qed.

(** X24. [updatePOI] answers [null] exactly when no stored point has
    the id, and leaves the store as it is then.  Otherwise it answers
    the first point with the id, changed by the updates: the id and the
    time of creation are kept and the time of the update is the current
    time.  When the write succeeds, a lookup of the id finds the changed
    point, the number of points is as before and the lookup of any
    other id finds what it found before. *)
Theorem updatePOI_changes_first_match (fits : list PoiStore.StoredPOI → bool) (id : string)
    (updates : PoiStore.Updates) (now : Z) (store : PoiStore.Store) :
  let result := PoiStore.updatePOI fits id updates now store in
  (result.1 = None ↔ ∀ p, p ∈ PoiStore.getAllPOIs store → PoiStore.idOf p ≠ id) ∧
  (result.1 = None → result.2 = store) ∧
  (∀ p', result.1 = Some p' →
     ∃ p index,
       PoiStore.getPOIById id store = Some p ∧
       PoiStore.getAllPOIs store !! index = Some p ∧
       p' = PoiStore.applyUpdates p updates now ∧
       PoiStore.idOf p' = id ∧ PoiStore.createdAt p' = PoiStore.createdAt p ∧ PoiStore.updatedAt p' = now ∧
       (fits (<[index := p']> (PoiStore.getAllPOIs store)) = true →
          PoiStore.getAllPOIs result.2 = <[index := p']> (PoiStore.getAllPOIs store) ∧
          PoiStore.getPOIById id result.2 = Some p' ∧
          length (PoiStore.getAllPOIs result.2) = length (PoiStore.getAllPOIs store) ∧
          ∀ id', id' ≠ id → PoiStore.getPOIById id' result.2 = PoiStore.getPOIById id' store)).
Proof.
  intros result. unfold result, PoiStore.updatePOI.
  destruct (JS.findIndex _ (PoiStore.getAllPOIs store)) as [index |] eqn:E.
  - pose proof (findIndex_find _ _ _ E) as Hfind.
    destruct (findIndex_Some _ _ _ E) as (p & Hp & Hid). apply String.eqb_eq in Hid.
    rewrite Hp. cbn [fst snd].
    rewrite list_lookup_insert_eq by (by eapply lookup_lt_Some).
    split; [| split; [done |]].
    + split; [done |]. intros H. exfalso. eapply H; [| exact Hid].
      by eapply list_elem_of_lookup_2.
    + intros p' [= <-]. exists p, index. unfold PoiStore.getPOIById. rewrite Hfind.
      split; [done |]. split; [done |]. split; [done |].
      split; [exact Hid |]. split; [done |]. split; [done |].
      intros Hfits. unfold PoiStore.savePOIs. rewrite Hfits.
      remember (PoiStore.getAllPOIs store) as pois. rewrite !getAllPOIs_Some.
      split; [done |]. split; [| split].
      * apply find_insert_first; [done |]. by apply String.eqb_eq.
      * apply length_insert.
      * intros id' Hid'. eapply find_insert_other; [exact Hp | |];
          apply String.eqb_neq; unfold PoiStore.idOf in *; cbn; congruence.
  - cbn [fst snd]. split; [| split; [done | done]].
    split; [| done]. intros _ p Hp Hid.
    apply findIndex_None in E. rewrite Forall_forall in E. specialize (E p Hp).
    cbn in E. rewrite Hid, String.eqb_refl in E. done.
Qed.

(** X25. [addPOI] returns a new point whose id is made from the time
    and the random text.  When the write succeeds the new point is the
    last of the store, every lookup that found a point finds the same
    point, a lookup of the new id finds the new point unless the id was
    taken, and the new point is among the points near a location from
    which it is within the radius.  When the write fails the point is
    returned all the same and the store is as before. *)
Theorem addPOI_appends (fits : list PoiStore.StoredPOI → bool) (poi : PoiStore.NewPOI)
    (idTime createdTime updatedTime : Z) (random : string) (store : PoiStore.Store)
    (lat lng radius : R) :
  let result := PoiStore.addPOI fits poi idTime createdTime updatedTime random store in
  let newPOI := result.1 in
  PoiStore.idOf newPOI = "custom-" +:+ pretty idTime +:+ "-" +:+ random ∧
  (fits (PoiStore.getAllPOIs store ++ [newPOI]) = false → result.2 = store) ∧
  (fits (PoiStore.getAllPOIs store ++ [newPOI]) = true →
     PoiStore.getAllPOIs result.2 = PoiStore.getAllPOIs store ++ [newPOI] ∧
     (∀ id p, PoiStore.getPOIById id store = Some p → PoiStore.getPOIById id result.2 = Some p) ∧
     (PoiStore.getPOIById (PoiStore.idOf newPOI) store = None →
        PoiStore.getPOIById (PoiStore.idOf newPOI) result.2 = Some newPOI) ∧
     (calculateDistance lat lng (PoiStore.new_lat poi) (PoiStore.new_lng poi) <= radius →
        PoiStore.nearLocation result.2 lat lng radius =
          PoiStore.nearLocation store lat lng radius ++ [PoiStore.fields newPOI])).
Proof.
  intros result newPOI. subst newPOI result. unfold PoiStore.addPOI. cbn [fst snd].
  set (p := PoiStore.mkStoredPOI _ _ _ _). split; [done |]. unfold PoiStore.savePOIs.
  split; intros Hfits; rewrite Hfits; [done |].
  unfold PoiStore.getPOIById, PoiStore.nearLocation. remember (PoiStore.getAllPOIs store) as pois.
  rewrite !getAllPOIs_Some.
  split; [done |]. split; [| split].
  - intros id q. apply find_app_Some.
  - intros H. rewrite find_app_None by done. cbn. by rewrite String.eqb_refl.
  - intros Hd. rewrite fmap_app, getPOIsNearLocation_app. f_equal.
    cbn [fmap list_fmap]. by rewrite getPOIsNearLocation_cons.
Qed.

(** X26. [importPOIs] rejects a text that does not parse or is not an
    array and leaves the store as it is.  An array is appended to the
    store as it is, nothing in it being checked: when the write succeeds
    the store is the old points followed by the imported ones, and every
    lookup that found a point finds the same point, so an imported point
    whose id is taken is never found. *)
Theorem importPOIs_appends (fits : list PoiStore.StoredPOI → bool)
    (imported : list PoiStore.StoredPOI) (store : PoiStore.Store) :
  PoiStore.importPOIs fits PoiStore.SyntaxError store = (false, store) ∧
  PoiStore.importPOIs fits PoiStore.NotAnArray store = (false, store) ∧
  (PoiStore.importPOIs fits (PoiStore.AnArray imported) store).1 = true ∧
  (fits (PoiStore.getAllPOIs store ++ imported) = false →
     (PoiStore.importPOIs fits (PoiStore.AnArray imported) store).2 = store) ∧
  (fits (PoiStore.getAllPOIs store ++ imported) = true →
     PoiStore.getAllPOIs (PoiStore.importPOIs fits (PoiStore.AnArray imported) store).2 =
       PoiStore.getAllPOIs store ++ imported ∧
     (∀ id p, PoiStore.getPOIById id store = Some p →
        PoiStore.getPOIById id (PoiStore.importPOIs fits (PoiStore.AnArray imported) store).2 = Some p) ∧
     (∀ id, PoiStore.getPOIById id store = None →
        PoiStore.getPOIById id (PoiStore.importPOIs fits (PoiStore.AnArray imported) store).2 =
          List.find (λ p, String.eqb (PoiStore.idOf p) id) imported)).
Proof.
  split; [done |]. split; [done |]. split; [done |].
  unfold PoiStore.importPOIs, PoiStore.savePOIs. cbn [snd].
  split; intros Hfits; rewrite Hfits; [done |].
  unfold PoiStore.getPOIById. remember (PoiStore.getAllPOIs store) as pois.
  rewrite !getAllPOIs_Some.
  split; [done |]. split.
  - intros id p. apply find_app_Some.
  - intros id. apply find_app_None.
Qed.

(** X27. The points near a location are points of the store, in the
    order of the store, each within the radius; a larger radius gives at
    least the points of a smaller one; a point on the location itself is
    returned for every radius that is not negative, and a negative
    radius gives no point. *)
Theorem getPOIsNearLocation_within_radius (allPOIs : list CustomPOI)
    (lat lng radius radius' : R) :
  sublist (getPOIsNearLocation allPOIs lat lng radius) allPOIs ∧
  Forall (λ poi, calculateDistance lat lng (poi_lat poi) (poi_lng poi) <= radius)
    (getPOIsNearLocation allPOIs lat lng radius) ∧
  (radius <= radius' →
     sublist (getPOIsNearLocation allPOIs lat lng radius)
       (getPOIsNearLocation allPOIs lat lng radius')) ∧
  (0 <= radius →
     ∀ poi, poi ∈ allPOIs → poi_lat poi = lat → poi_lng poi = lng →
            poi ∈ getPOIsNearLocation allPOIs lat lng radius) ∧
  (radius < 0 → getPOIsNearLocation allPOIs lat lng radius = []).
Proof.
  split; [| split; [| split; [| split]]].
  - unfold getPOIsNearLocation. induction allPOIs as [| poi l IH]; [done |].
    cbn. destruct (JS.leb _ radius); by constructor.
  - apply Forall_forall. intros poi H. by apply getPOIsNearLocation_elem in H as [_ H].
  - intros Hr. unfold getPOIsNearLocation. induction allPOIs as [| poi l IH]; [done |].
    cbn. destruct (JS.leb _ radius) eqn:E.
    + apply leb_true in E.
      replace (JS.leb (calculateDistance lat lng (poi_lat poi) (poi_lng poi)) radius')
        with true by (symmetry; apply leb_true; lra).
      by constructor.
    + destruct (JS.leb _ radius'); [by constructor | done].
  - intros Hr poi Hpoi <- <-. apply getPOIsNearLocation_elem. split; [done |].
    rewrite calculateDistance_same. done.
  - intros Hr. unfold getPOIsNearLocation. induction allPOIs as [| poi l IH]; [done |].
    cbn. replace (JS.leb _ radius) with false; [done |].
    symmetry. apply leb_false.
    pose proof (calculateDistance_nonneg lat lng (poi_lat poi) (poi_lng poi)). lra.
Qed.

(** ** One facility per place *)

Lemma samePlace_sym (f g : Facility) : samePlace f g → samePlace g f.
Proof. unfold samePlace. by rewrite isDuplicate_sym. Qed.

Lemma pairwiseDistinct_lookup (l : list Facility) :
  pairwiseDistinct l ↔
  ∀ i j x y, i ≠ j → l !! i = Some x → l !! j = Some y → ¬ samePlace x y.
Proof.
  induction l as [| f l IH]; cbn [pairwiseDistinct].
  - split; [intros _ i j x y _ H; by rewrite lookup_nil in H | done].
  - rewrite IH, Forall_forall. split.
    + intros [Hf Hl] [| i] [| j] x y Hij Hx Hy; cbn in Hx, Hy; simplify_eq.
      * apply Hf. by eapply list_elem_of_lookup_2.
      * apply Hf. by eapply list_elem_of_lookup_2.
      * eapply Hl; [| exact Hx | exact Hy]. congruence.
    + intros H. split.
      * intros g Hg. apply list_elem_of_lookup_1 in Hg as [j Hj].
        split; [apply (H 0%nat (S j)) | apply (H (S j) 0%nat)]; done.
      * intros i j x y Hij Hx Hy. apply (H (S i) (S j)); [congruence | done | done].
Qed.

(** A facility that duplicates no kept one is appended. *)
Lemma represents_append (kept seen : list Facility) (f : Facility) :
  represents kept seen →
  Forall (λ e, isDuplicate e f = false) kept →
  represents (kept ++ [f]) (seen ++ [f]).
Proof.
  intros (Hd & Hin & Hcov) Hnone. split; [| split].
  - apply pairwiseDistinct_app.
    split_and!; [done | by cbn | by apply not_duplicate_distinct].
  - intros g [Hg | Hg]%elem_of_app; apply elem_of_app; [left; by apply Hin | by right].
  - intros x [Hx | Hx]%elem_of_app.
    + destruct (Hcov x Hx) as (g & Hg & Hgx & Hle).
      exists g. split; [apply elem_of_app; by left | done].
    + apply list_elem_of_singleton in Hx as ->.
      exists f. split; [apply elem_of_app; right; by left |]. split; [by left | lra].
Qed.

(** A facility that duplicates a kept one without beating it is dropped. *)
Lemma represents_drop (kept seen : list Facility) (f e : Facility) :
  represents kept seen →
  e ∈ kept → samePlace e f → contribution f <= contribution e →
  represents kept (seen ++ [f]).
Proof.
  intros (Hd & Hin & Hcov) He Hdup Hle. split; [done | split].
  - intros g Hg. apply elem_of_app. left. by apply Hin.
  - intros x [Hx | Hx]%elem_of_app; [by apply Hcov |].
    apply list_elem_of_singleton in Hx as ->. exists e. split; [done |]. by split; [right |].
Qed.

(** A facility that beats the first kept one it duplicates takes its
    place; when duplicates come in groups, the kept facilities still
    stand for the facilities seen. *)
Lemma represents_overwrite (all kept seen : list Facility) (f e : Facility) (i : nat) :
  duplicatesTransitive all →
  (∀ x, x ∈ seen ++ [f] → x ∈ all) →
  represents kept seen →
  kept !! i = Some e → samePlace e f → contribution e < contribution f →
  represents (<[i := f]> kept) (seen ++ [f]).
Proof.
  intros Htrans Hall (Hd & Hin & Hcov) Hi Hdup Hlt.
  assert (f ∈ all) as Hf by (apply Hall, elem_of_app; right; by left).
  assert (∀ g, g ∈ kept → g ∈ all) as Hkept
    by (intros g Hg; apply Hall, elem_of_app; left; by apply Hin).
  assert (e ∈ kept) as He by (by eapply list_elem_of_lookup_2).
  assert (i < length kept)%nat as Hlen by (by eapply lookup_lt_Some).
  rewrite pairwiseDistinct_lookup in Hd.
  split; [| split].
  - apply pairwiseDistinct_lookup. intros a b x y Hab Hx Hy.
    destruct (decide (a = i)) as [-> | Hai]; destruct (decide (b = i)) as [-> | Hbi];
      [done | | |].
    + rewrite list_lookup_insert_eq in Hx by done.
      rewrite list_lookup_insert_ne in Hy by done. simplify_eq.
      intros Hfy. apply (Hd i b e y); [done | done | done |].
      apply (Htrans e x y); [by apply Hkept | done | | done | done].
      apply Hkept. by eapply list_elem_of_lookup_2.
    + rewrite list_lookup_insert_ne in Hx by done.
      rewrite list_lookup_insert_eq in Hy by done. simplify_eq.
      intros Hxf. apply (Hd a i x e); [done | done | done |].
      apply (Htrans x y e); [| done | by apply Hkept | done | by apply samePlace_sym].
      apply Hkept. by eapply list_elem_of_lookup_2.
    + rewrite list_lookup_insert_ne in Hx by done.
      rewrite list_lookup_insert_ne in Hy by done. by apply (Hd a b).
  - intros g Hg. apply list_elem_of_lookup_1 in Hg as [j Hj].
    destruct (decide (j = i)) as [-> | Hji].
    + rewrite list_lookup_insert_eq in Hj by done. simplify_eq.
      apply elem_of_app. right. by left.
    + rewrite list_lookup_insert_ne in Hj by done.
      apply elem_of_app. left. apply Hin. by eapply list_elem_of_lookup_2.
  - assert (f ∈ <[i := f]> kept) as Hfk.
    { apply (list_elem_of_lookup_2 _ i). by rewrite list_lookup_insert_eq. }
    intros x [Hx | Hx]%elem_of_app.
    + destruct (Hcov x Hx) as (g & Hg & Hgx & Hle).
      apply list_elem_of_lookup_1 in Hg as [j Hj].
      destruct (decide (j = i)) as [-> | Hji].
      * assert (g = e) as -> by congruence.
        exists f. split; [done |]. split; [| lra]. right.
        destruct Hgx as [<- | Hgx]; [by apply samePlace_sym |].
        apply (Htrans f e x); [done | by apply Hkept | | by apply samePlace_sym | done].
        apply Hall, elem_of_app. by left.
      * exists g. split; [| done].
        apply (list_elem_of_lookup_2 _ j). by rewrite list_lookup_insert_ne.
    + apply list_elem_of_singleton in Hx as ->. exists f.
      split; [done |]. split; [by left | lra].
Qed.

Lemma dedupe_represents_transitive (all rest : list Facility) : ∀ kept seen,
  duplicatesTransitive all →
  all = seen ++ rest →
  represents kept seen →
  represents (fold_left dedupeStep rest kept) all.
Proof.
  induction rest as [| f rest IH]; intros kept seen Htrans Hall Hrep.
  - rewrite app_nil_r in Hall. by subst.
  - cbn [fold_left]. apply (IH _ (seen ++ [f])); [done | by rewrite <- app_assoc |].
    unfold dedupeStep. destruct (JS.findIndex _ kept) as [i |] eqn:E.
    + apply findIndex_Some in E as (e & Hi & Hdup). rewrite Hi.
      destruct (JS.ltb (contribution e) (contribution f)) eqn:L.
      * apply ltb_true in L. apply (represents_overwrite all _ _ _ e); try done.
        intros x Hx. rewrite Hall. apply elem_of_app in Hx as [Hx | Hx].
        -- apply elem_of_app. by left.
        -- apply elem_of_app. right. apply list_elem_of_singleton in Hx as ->. by left.
      * apply ltb_false in L. apply (represents_drop _ _ _ e); try done.
        by eapply list_elem_of_lookup_2.
    + apply findIndex_None in E. by apply represents_append.
Qed.

Lemma dedupe_represents_no_overwrite (rest : list Facility) : ∀ kept seen,
  Forall (λ e, Forall (λ f, samePlace e f → contribution f <= contribution e) rest) kept →
  noBetterDuplicate rest →
  represents kept seen →
  represents (fold_left dedupeStep rest kept) (seen ++ rest).
Proof.
  induction rest as [| f rest IH]; intros kept seen Hle Hno Hrep.
  - by rewrite app_nil_r.
  - cbn [fold_left]. destruct Hno as [Hf Hno].
    assert (Forall (λ e, Forall (λ g, samePlace e g → contribution g <= contribution e) rest)
              kept) as Hle'
      by (eapply Forall_impl; [exact Hle | by intros e He; inversion He]).
    rewrite (cons_middle f), app_assoc.
    unfold dedupeStep. destruct (JS.findIndex _ kept) as [i |] eqn:E.
    + apply findIndex_Some in E as (e & Hi & Hdup). rewrite Hi.
      assert (contribution f <= contribution e) as Hc.
      { rewrite Forall_lookup in Hle. specialize (Hle i e Hi).
        inversion Hle; subst. auto. }
      pose proof Hc as L. apply ltb_false in L. rewrite L.
      apply IH; [done | done |]. apply (represents_drop _ _ _ e); try done.
      by eapply list_elem_of_lookup_2.
    + apply findIndex_None in E. apply IH; [| done | by apply represents_append].
      apply Forall_app. split; [done |]. by constructor.
Qed.

Lemma represents_nil : represents [] [].
Proof. split; [done |]. split; [done |]. intros f Hf. by apply elem_of_nil in Hf. Qed.

Lemma dedupeById_fold_covers (l : list Facility) : ∀ acc g,
  g ∈ acc ++ l → ∃ g', g' ∈ fold_left dedupeByIdStep l acc ∧ id g' = id g.
Proof.
  induction l as [| f l IH]; intros acc g Hg; cbn [fold_left].
  - rewrite app_nil_r in Hg. by exists g.
  - unfold dedupeByIdStep at 2.
    destruct (JS.findIndex _ acc) as [i |] eqn:E.
    + apply elem_of_app in Hg as [Hg | Hg];
        [apply IH, elem_of_app; by left |].
      apply elem_of_cons in Hg as [-> | Hg]; [| apply IH, elem_of_app; by right].
      apply findIndex_Some in E as (e & Hi & He). apply String.eqb_eq in He.
      destruct (IH acc e) as (g' & Hg' & Hid).
      { apply elem_of_app. left. by eapply list_elem_of_lookup_2. }
      exists g'. split; [done | congruence].
    + apply IH. by rewrite <- app_assoc.
Qed.

(** C6, as amended. The deduplication is a single pass, which is not
    iterated.  When the duplicates among the facilities that pass the
    filter come in groups (the rule is transitive on them), or when no
    facility beats an earlier one that it duplicates, the output of the
    pass has no two entries for the same place, holds only facilities of
    the input, and holds for each facility of the input the facility
    itself or a duplicate of it that contributes at least as much; a
    second pass over the output changes nothing, and the final list of
    [processFacilities], which keeps of the output one facility for each
    id, has no two entries for the same place either. *)
Theorem dedupe_keeps_one_per_place (elements : list Element) (bucket : string)
    (userLat userLng : R) :
  let facilities :=
    List.filter withinMaxDistance (imap (toFacility bucket userLat userLng) elements) in
  duplicatesTransitive facilities ∨ noBetterDuplicate facilities →
  processFacilities elements bucket userLat userLng = dedupeById (dedupe facilities) ∧
  pairwiseDistinct (dedupe facilities) ∧
  (∀ g, g ∈ dedupe facilities → g ∈ facilities) ∧
  (∀ f, f ∈ facilities →
     ∃ g, g ∈ dedupe facilities ∧ (g = f ∨ samePlace g f) ∧
          contribution f <= contribution g) ∧
  dedupe (dedupe facilities) = dedupe facilities ∧
  pairwiseDistinct (processFacilities elements bucket userLat userLng) ∧
  (∀ g, g ∈ processFacilities elements bucket userLat userLng → g ∈ dedupe facilities) ∧
  (∀ g, g ∈ dedupe facilities →
     ∃ g', g' ∈ processFacilities elements bucket userLat userLng ∧ id g' = id g).
Proof.
  intros facilities H.
  assert (represents (dedupe facilities) facilities) as (Hd & Hin & Hcov).
  { destruct H as [Htrans | Hno].
    - by apply (dedupe_represents_transitive facilities facilities [] []);
        [| | apply represents_nil].
    - by apply (dedupe_represents_no_overwrite facilities [] []);
        [constructor | | apply represents_nil]. }
  split_and!; [done | done | done | done | | | |].
  - by apply (dedupe_distinct (dedupe facilities) []).
  - by apply (dedupeById_distinct (dedupe facilities) []).
  - intros g Hg. unfold processFacilities in Hg. fold facilities in Hg.
    by apply (dedupeById_fold_elem (dedupe facilities) []) in Hg as [Hg | Hg];
      [apply elem_of_nil in Hg |].
  - intros g Hg. by apply (dedupeById_fold_covers (dedupe facilities) []).
Qed.

Lemma kopi_kopiSusu_facilities :
  List.filter withinMaxDistance (imap (toFacility "market" 1 2) [kopi; kopiSusu]) =
    [kopiFacility; kopiSusuFacility].
Proof.
  cbn [imap compose]. rewrite kopi_facility.
  assert (toFacility "market" 1 2 1 kopiSusu = kopiSusuFacility) as ->
    by (unfold kopiSusu; facility_at_origin; reflexivity).
  cbn [List.filter]. by rewrite !withinMaxDistance_0.
Qed.

Lemma dedupe_keeps_one_per_place_kopi :
  duplicatesTransitive
    (List.filter withinMaxDistance (imap (toFacility "market" 1 2) [kopi; kopiSusu])) ∧
  dedupe [kopiFacility; kopiSusuFacility] = [kopiSusuFacility] ∧
  pairwiseDistinct (processFacilities [kopi; kopiSusu] "market" 1 2).
Proof.
  assert (duplicatesTransitive
            (List.filter withinMaxDistance
               (imap (toFacility "market" 1 2) [kopi; kopiSusu]))) as H.
  { rewrite kopi_kopiSusu_facilities. intros f g h Hf _ Hh _ _.
    assert (∀ x, x ∈ [kopiFacility; kopiSusuFacility] →
                 x = kopiFacility ∨ x = kopiSusuFacility) as Hcases.
    { intros x Hx. apply elem_of_cons in Hx as [-> | Hx]; [by left |].
      apply list_elem_of_singleton in Hx as ->. by right. }
    unfold samePlace.
    destruct (Hcases f Hf) as [-> | ->]; destruct (Hcases h Hh) as [-> | ->];
      rewrite isDuplicate_same_coordinates by done; vm_compute; reflexivity. }
  split; [exact H |]. split.
  - unfold dedupe. cbn [fold_left].
    unfold dedupeStep at 2. cbn [JS.findIndex app].
    unfold dedupeStep. cbn [JS.findIndex].
    rewrite isDuplicate_same_coordinates by done.
    replace (nameSimilar _ _) with true by (vm_compute; reflexivity).
    cbn [lookup list_lookup contribution kopiFacility kopiSusuFacility].
    replace (JS.ltb 8 10) with true by (symmetry; apply ltb_true; lra).
    reflexivity.
  - exact (proj1 (proj2 (proj2 (proj2 (proj2 (proj2
      (dedupe_keeps_one_per_place [kopi; kopiSusu] "market" 1 2 (or_introl H)))))))).
Defined.

(** ** A custom point in a run *)

Lemma summarize_append_near (results : list FetchResult) (allPOIs : list CustomPOI)
    (poi : CustomPOI) (lat lng : R) (address : string) :
  calculateDistance lat lng (poi_lat poi) (poi_lng poi) <= 1000 →
  let f := toCustomFacility lat lng poi in
  let before := summarize results allPOIs lat lng address in
  let after := summarize results (allPOIs ++ [poi]) lat lng address in
  ∃ acc,
    ownKeys acc.1 ∧
    facilityCounts before.1.1 = acc.1 ∧ before.2 = acc.2 ∧
    facilityCounts after.1.1 = (accumulateCustom acc f).1 ∧
    after.2 = (accumulateCustom acc f).2 ∧
    after.1.2 = before.1.2 ++ [f].
Proof.
  intros Hd f before after. unfold before, after. rewrite !summarize_eq. cbv zeta.
  cbn [fst snd facilityCounts].
  rewrite getPOIsNearLocation_app, (getPOIsNearLocation_cons poi []) by done.
  change (getPOIsNearLocation [] lat lng 1000) with (@nil CustomPOI).
  rewrite fmap_app, fold_left_app. cbn [fmap list_fmap fold_left]. fold f.
  eexists. split; [| split; [reflexivity | split; [reflexivity |]]].
  - apply custom_ownKeys, fetched_ownKeys.
  - split; [reflexivity |]. split; [reflexivity |]. by rewrite app_assoc.
Qed.

Lemma summarize_append_far (results : list FetchResult) (allPOIs : list CustomPOI)
    (poi : CustomPOI) (lat lng : R) (address : string) :
  1000 < calculateDistance lat lng (poi_lat poi) (poi_lng poi) →
  summarize results (allPOIs ++ [poi]) lat lng address =
    summarize results allPOIs lat lng address.
Proof.
  intros Hd. unfold summarize. rewrite getPOIsNearLocation_app.
  assert (getPOIsNearLocation [poi] lat lng 1000 = []) as ->; [| by rewrite app_nil_r].
  unfold getPOIsNearLocation. cbn [List.filter].
  replace (JS.leb _ 1000) with false; [done |]. symmetry. apply leb_false. lra.
Qed.

(** C8, as amended. A custom point within 1000 m of the origin becomes
    a facility whose contribution is computed by
    [calculateDistanceContribution] from its unrounded distance and its
    declared category (the health configuration for the legacy category
    custom, which becomes recreation).  When its category is one of the
    ten, the run with the point returns the facilities of the run
    without it followed by the new facility, counts one more facility of
    its category and adds the whole contribution to the sum of its
    category, every other count and sum being as without the point:
    nothing is dampened and nothing spills over.  This is what the
    accumulation of fetched facilities does for every category but
    walkability and safety.  A point farther than 1000 m changes nothing
    in the run. *)
Theorem custom_poi_merge (results : list FetchResult) (allPOIs : list CustomPOI)
    (poi : CustomPOI) (lat lng : R) (address : string) :
  calculateDistance lat lng (poi_lat poi) (poi_lng poi) <= 1000 →
  let f := toCustomFacility lat lng poi in
  category f ∈ categories →
  let before := summarize results allPOIs lat lng address in
  let after := summarize results (allPOIs ++ [poi]) lat lng address in
  contribution f =
    calculateDistanceContribution
      (calculateDistance lat lng (poi_lat poi) (poi_lng poi)) (poi_category poi) ∧
  (poi_category poi = "custom" →
     category f = "recreation" ∧
     contribution f =
       calculateDistanceContribution
         (calculateDistance lat lng (poi_lat poi) (poi_lng poi)) "health") ∧
  (poi_category poi ≠ "custom" → category f = poi_category poi) ∧
  after.1.2 = before.1.2 ++ [f] ∧
  (∀ c, count (facilityCounts after.1.1) c =
        (count (facilityCounts before.1.1) c +
         if String.eqb c (category f) then 1 else 0)%nat) ∧
  (∀ c, score after.2 c =
        score before.2 c + if String.eqb c (category f) then contribution f else 0) ∧
  (category f ≠ "walkability" → category f ≠ "safety" →
     ∀ acc, accumulateCustom acc f = accumulate acc f) ∧
  (∀ far,
     1000 < calculateDistance lat lng (poi_lat far) (poi_lng far) →
     summarize results (allPOIs ++ [far]) lat lng address = before).
Proof.
  intros Hd f Hc before after.
  destruct (summarize_append_near results allPOIs poi lat lng address Hd)
    as ([counts scores] & Hkeys & E1 & E2 & E3 & E4 & E5).
  fold f before after in E1, E2, E3, E4, E5. cbn [fst snd] in *.
  assert (accumulateCustom (counts, scores) f =
            (increment counts (category f),
             addScore scores (category f) (contribution f))) as Hacc.
  { unfold accumulateCustom. rewrite (hasOwnProperty_ownKeys _ _ Hkeys).
    by rewrite bool_decide_eq_true_2. }
  rewrite Hacc in E3, E4. cbn [fst snd] in E3, E4.
  split; [done |]. split; [| split; [| split; [exact E5 | split; [| split; [| split]]]]].
  - intros E. unfold f. rewrite toCustomFacility_category, E. split; [done |].
    unfold toCustomFacility. cbn [contribution]. rewrite E.
    unfold calculateDistanceContribution, configOf. done.
  - intros E. unfold f. rewrite toCustomFacility_category.
    by destruct (String.eqb_spec (poi_category poi) "custom").
  - intros c. rewrite E3, E1, count_increment.
    destruct (String.eqb_spec c (category f)) as [-> | Hne].
    + rewrite decide_True by done. lia.
    + rewrite decide_False by done. lia.
  - intros c. rewrite E4, E2, score_addScore.
    destruct (String.eqb_spec c (category f)) as [-> | Hne].
    + by rewrite decide_True.
    + rewrite decide_False by done. lra.
  - intros Hw Hs [counts' scores']. unfold accumulateCustom, accumulate.
    destruct (hasOwnProperty counts' (category f)); [| done].
    destruct (String.eqb_spec (category f) "walkability"); [done |].
    by destruct (String.eqb_spec (category f) "safety").
  - intros far Hfar. by apply summarize_append_far.
Qed.

Lemma custom_poi_merge_park :
  calculateDistance 1 2 (poi_lat customPark) (poi_lng customPark) <= 1000 ∧
  category (toCustomFacility 1 2 customPark) ∈ categories ∧
  (summarize [] [customPark] 1 2 "Jalan").1.2 = [toCustomFacility 1 2 customPark] ∧
  count (facilityCounts (summarize [] [customPark] 1 2 "Jalan").1.1) "recreation" = 1%nat.
Proof.
  assert (calculateDistance 1 2 (poi_lat customPark) (poi_lng customPark) <= 1000) as Hd
    by (cbn; rewrite calculateDistance_same; lra).
  assert (category (toCustomFacility 1 2 customPark) ∈ categories) as Hc by compute_done.
  destruct (custom_poi_merge [] [] customPark 1 2 "Jalan" Hd Hc)
    as (_ & _ & _ & Hl & Hcount & _).
  split; [exact Hd |]. split; [exact Hc |]. split; [exact Hl |].
  exact (Hcount "recreation"%string).
Defined.




(** ** A failed category in a run *)








